(** * BanditPAM: the k-medoids driver and its numeric kernels

    A shallow embedding of [src/kmedoids_algorithm.cpp] (class
    [km::KMedoids]): the configuration setters, the loss-tag parser
    [setLossFn], the driver [fit], the four dissimilarity kernels, the
    assignment engine [calc_best_distances_swap], the two sigma estimators
    and the loss evaluator [calc_loss].

    - A C++ [double] is a primitive binary64 float, so comparisons with
      NaN, the infinities and signed zeros behave as on the machine.
    - A [size_t] is a [nat]; the conversions between [size_t] and
      [double] that the code performs implicitly are written out.
    - An [arma::rowvec] / [arma::vec] is a [list float]; an [arma::mat] is
      the list of its columns.
    - Exceptions are values of [exn]; a member function returns an
      [outcome] together with the state it leaves behind.
    - The row vectors that [calc_best_distances_swap] receives by
      reference live in a store indexed by reference, so that two
      parameters may name the same vector.
    - The loops of [build_sigma] and [swap_sigma] run under a schedule
      of the threads of their team, which share the vector [sample]. *)

From Stdlib Require Import ZArith List String Ascii Lia Bool.
From Stdlib Require Import Uint63 Floats.
From stdpp Require Import base option list gmap.


(** ** Exceptions and outcomes *)

Inductive exn : Type :=
  | invalid_argument (what : string)  (* std::invalid_argument *)
  | out_of_range (what : string)      (* std::out_of_range: string::at, Armadillo bounds checks *)
  | logic_error (what : string)       (* std::logic_error: Armadillo argument checks *)
  | c_string (what : string).         (* throw "literal" *)

(** [Undefined] marks executions the C++ standard leaves undefined. *)
Inductive outcome (A : Type) : Type :=
  | Ok (a : A)
  | Throw (e : exn)
  | Undefined (what : string).
Arguments Ok {A} a.
Arguments Throw {A} e.
Arguments Undefined {A} what.

Definition obind {A B} (m : outcome A) (f : A -> outcome B) : outcome B :=
  match m with
  | Ok a => f a
  | Throw e => Throw e
  | Undefined w => Undefined w
  end.

Declare Scope outcome_scope.
Delimit Scope outcome_scope with outcome.
Notation "'let?' x ':=' m 'in' k" := (obind m (fun x => k))
  (at level 10, x pattern, m at level 100, k at level 200) : outcome_scope.
Local Open Scope outcome_scope.

(** The computation returns normally. *)
Definition is_ok {A} (m : outcome A) : Prop := exists a, m = Ok a.

(** ** IEEE-754 binary64 *)

Module F64.

Local Open Scope float_scope.

(** The C++ type [double]. *)
Abbreviation double := float (only parsing).

(** [x] is a number (not NaN). *)
Definition num (x : double) : Prop := (x =? x) = true.
(** C's [isfinite]: a number that is not an infinity. *)
Definition finite (x : double) : Prop := (abs x <? infinity) = true.
(** [0 <= x]; false for NaN. *)
Definition nonneg (x : double) : Prop := (0 <=? x) = true.

(** The order of [<] on the specification side. *)
Definition SFlt (a b : spec_float) : Prop := SFcompare a b = Some Lt.

(** A rank that orders the non-NaN values as [SFcompare] does. *)
Definition key (a : spec_float) : Z * Z * Z :=
  match a with
  | S754_nan => (0, 0, 0)
  | S754_infinity true => (-2, 0, 0)
  | S754_infinity false => (2, 0, 0)
  | S754_zero _ => (0, 0, 0)
  | S754_finite true m e => (-1, - e, - Zpos m)
  | S754_finite false m e => (1, e, Zpos m)
  end%Z.

Definition key_lt (p q : Z * Z * Z) : Prop :=
  let '(a1, b1, c1) := p in
  let '(a2, b2, c2) := q in
  (a1 < a2 \/ (a1 = a2 /\ (b1 < b2 \/ (b1 = b2 /\ c1 < c2))))%Z.

Definition SFnum (a : spec_float) : Prop := a <> S754_nan.

(** Zero of either sign, a positive finite value or [+infinity]. *)
Definition SFnonneg (a : spec_float) : Prop :=
  match a with
  | S754_zero _ => True
  | S754_infinity s | S754_finite s _ _ => s = false
  | S754_nan => False
  end.

(** Zero or a finite value. *)
Definition SFfinite (a : spec_float) : Prop :=
  match a with
  | S754_zero _ | S754_finite _ _ _ => True
  | _ => False
  end.

(** The result carries the sign [s], or is a zero. *)
Definition SFsigned (s : bool) (a : spec_float) : Prop :=
  match a with
  | S754_zero s' | S754_infinity s' | S754_finite s' _ _ => s' = s
  | S754_nan => False
  end.

(** A zero or NaN. *)
Definition SFzn (a : spec_float) : Prop :=
  match a with
  | S754_zero _ | S754_nan => True
  | _ => False
  end.

End F64.

Import F64.

(** ** C and C++ library routines on strings *)

(** [std::isdigit] in the "C" locale, the character read as unsigned. *)
Definition isdigit (c : ascii) : bool :=
  (48 <=? nat_of_ascii c)%nat && (nat_of_ascii c <=? 57)%nat.

Fixpoint all_digits (s : string) : bool :=
  match s with
  | EmptyString => true
  | String c r => isdigit c && all_digits r
  end.

(** [std::regex_match(s, std::regex("L\\d*"))]: the whole of [s] is an
    [L] followed by decimal digits only. *)
Definition regex_match_L_digits (s : string) : bool :=
  match s with
  | String c r => Ascii.eqb c "L" && all_digits r
  | EmptyString => false
  end.

(** [s.substr(1)] for a non-empty [s]. *)
Definition substr1 (s : string) : string :=
  match s with
  | String _ r => r
  | EmptyString => EmptyString
  end.

(** [s.at(0)]. *)
Definition at0 (s : string) : outcome ascii :=
  match s with
  | String c _ => Ok c
  | EmptyString => Throw (out_of_range "basic_string::at")
  end.

Definition digit_value (c : ascii) : Z := Z.of_nat (nat_of_ascii c) - 48.

(** The value of the longest prefix of decimal digits, most significant
    digit first; [acc] is the value read so far. *)
Fixpoint digits_prefix (acc : Z) (s : string) : Z :=
  match s with
  | String c r =>
      if isdigit c then digits_prefix (10 * acc + digit_value c) r else acc
  | EmptyString => acc
  end.

Definition INT_MAX : Z := 2147483647.

(** [atoi] on a string that starts with a digit (the only use in the
    source): no white space or sign is skipped.  A value that does not
    fit an [int] is undefined behaviour. *)
Definition atoi (s : string) : outcome Z :=
  let v := digits_prefix 0 s in
  if (v <=? INT_MAX)%Z then Ok v else Undefined "atoi: value out of range".

(** ** Armadillo: vectors, matrices and the routines the source calls

    The library is not part of the repository.  Its routines are given
    their documented results, computed in the straightforward
    left-to-right order; [std::pow], [arma::stddev], the random
    permutation and the formatting of the sigma summary stay parameters
    of the development. *)

Abbreviation rowvec := (list float) (only parsing).
(** A matrix is the list of its columns, all of the same length. *)
Abbreviation mat := (list (list float)) (only parsing).

Definition n_cols (data : mat) : nat := length data.

(** [size_t] to [double], as in [assignments(i) = k]; exact below
    [2^53], the nearest double below [2^63]. *)
Definition of_size (k : nat) : double :=
  PrimFloat.of_uint63 (Uint63.of_Z (Z.of_nat k)).

(** [double] to [size_t], as in [medoid_indices(k)] passed for an index:
    the value is truncated; a value that [size_t] cannot hold is
    undefined behaviour. *)
Definition to_size (x : double) : outcome nat :=
  match Prim2SF x with
  | S754_zero _ => Ok 0%nat
  | S754_finite s m e =>
      let z := Z.shiftl (Zpos m) e in
      if s then
        if (z =? 0)%Z then Ok 0%nat
        else Undefined "negative double converted to size_t"
      else if (z <? 2 ^ 64)%Z then Ok (Z.to_nat z)
      else Undefined "double too large for size_t"
  | _ => Undefined "NaN or infinity converted to size_t"
  end.

(** [v(i)] with Armadillo's bounds check. *)
Definition elem (v : rowvec) (i : nat) : outcome double :=
  match v !! i with
  | Some x => Ok x
  | None => Throw (out_of_range "Mat::operator(): index out of bounds")
  end.

(** [v(i) = x] with Armadillo's bounds check. *)
Definition set_elem (v : rowvec) (i : nat) (x : double) : outcome rowvec :=
  if decide (i < length v)%nat then Ok (<[i := x]> v)
  else Throw (out_of_range "Mat::operator(): index out of bounds").

(** [data.col(i)]. *)
Definition col (data : mat) (i : nat) : outcome (list double) :=
  match data !! i with
  | Some c => Ok c
  | None => Throw (out_of_range "Mat::col(): index out of bounds")
  end.

Definition vsub (a b : list double) : list double :=
  zip_with PrimFloat.sub a b.

Definition vabs (a : list double) : list double := map PrimFloat.abs a.

Definition accu (v : list double) : double :=
  foldl PrimFloat.add 0%float v.

Definition dot (a b : list double) : double :=
  accu (zip_with PrimFloat.mul a b).

(** [arma::max(v)]: a running maximum that starts from the most negative
    value and is replaced by each element greater than it. *)
Definition arma_max (v : list double) : outcome double :=
  match v with
  | [] => Throw (logic_error "max(): object has no elements")
  | _ =>
      Ok (foldl (fun m x => if (m <? x)%float then x else m) neg_infinity v)
  end.

Section Norm.

(** [std::pow]. *)
Variable pow : double -> double -> double.

Definition vec_norm_1 (v : list double) : double :=
  foldl (fun acc x => acc + abs x)%float 0%float v.

Definition vec_norm_2 (v : list double) : double :=
  sqrt (foldl (fun acc x => acc + x * x)%float 0%float v).

Definition vec_norm_k (v : list double) (k : nat) : double :=
  pow (foldl (fun acc x => acc + pow (abs x) (of_size k))%float 0%float v)
      (1 / of_size k)%float.

(** [arma::norm(v, k)] for a vector [v]. *)
Definition norm (v : list double) (k : nat) : outcome double :=
  match v with
  | [] => Ok 0%float
  | _ =>
      match k with
      | 1%nat => Ok (vec_norm_1 v)
      | 2%nat => Ok (vec_norm_2 v)
      | 0%nat => Throw (logic_error "norm(): k must be greater than zero")
      | _ => Ok (vec_norm_k v k)
      end
  end.

End Norm.

(** ** The [km::KMedoids] object *)

(** The member-function pointer [lossFn] points to one of four kernels. *)
Inductive loss_kind : Type :=
  | loss_manhattan
  | loss_cos
  | loss_LINF
  | loss_LP.

(** The part of [logHelper] this file touches. *)
Record LogHelper : Type := mkLogHelper {
  sigma_build : list string;
  sigma_swap : list string;
  loss_swap : list double
}.

Record KMedoids : Type := mkKMedoids {
  n_medoids : nat;
  algorithm : string;
  max_iter : nat;
  buildConfidence : nat;
  swapConfidence : nat;
  verbosity : nat;
  logFilename : string;
  lossFn : option loss_kind;      (* [None]: not set yet *)
  lp : option nat;                (* [None]: not set yet *)
  medoid_indices_build : rowvec;
  medoid_indices_final : rowvec;
  labels : rowvec;
  steps : nat;
  logHelper : LogHelper
}.

Definition with_algorithm (a : string) (k : KMedoids) : KMedoids :=
  mkKMedoids (n_medoids k) a (max_iter k) (buildConfidence k)
    (swapConfidence k) (verbosity k) (logFilename k) (lossFn k) (lp k)
    (medoid_indices_build k) (medoid_indices_final k) (labels k) (steps k)
    (logHelper k).

Definition with_lossFn (f : loss_kind) (k : KMedoids) : KMedoids :=
  mkKMedoids (n_medoids k) (algorithm k) (max_iter k) (buildConfidence k)
    (swapConfidence k) (verbosity k) (logFilename k) (Some f) (lp k)
    (medoid_indices_build k) (medoid_indices_final k) (labels k) (steps k)
    (logHelper k).

Definition with_lp (p : nat) (k : KMedoids) : KMedoids :=
  mkKMedoids (n_medoids k) (algorithm k) (max_iter k) (buildConfidence k)
    (swapConfidence k) (verbosity k) (logFilename k) (lossFn k) (Some p)
    (medoid_indices_build k) (medoid_indices_final k) (labels k) (steps k)
    (logHelper k).

Definition with_sigma_build (l : list string) (k : KMedoids) : KMedoids :=
  mkKMedoids (n_medoids k) (algorithm k) (max_iter k) (buildConfidence k)
    (swapConfidence k) (verbosity k) (logFilename k) (lossFn k) (lp k)
    (medoid_indices_build k) (medoid_indices_final k) (labels k) (steps k)
    (mkLogHelper l (sigma_swap (logHelper k)) (loss_swap (logHelper k))).

(** The three engines [fit] can hand over to. *)
Inductive engine : Type := PAM | BanditPAM | FastPAM1.

(** What a caller can observe of a call besides its outcome. *)
Inductive event : Type :=
  | Cout (line : string)                      (* a line on std::cout *)
  | Enter (e : engine)                        (* an engine is called *)
  | WriteProfile (file : string) (build final : rowvec)
      (nsteps : nat) (loss : double).         (* the log file is written *)

Record World : Type := mkWorld {
  obj : KMedoids;
  trace : list event
}.

(** A stateful, fallible computation: an outcome and the state left
    behind, also when it throws. *)
Definition ST (St A : Type) : Type := St -> outcome A * St.

Definition ret {St A} (a : A) : ST St A := fun w => (Ok a, w).

Definition bind {St A B} (m : ST St A) (f : A -> ST St B) : ST St B :=
  fun w =>
    match m w with
    | (Ok a, w') => f a w'
    | (Throw e, w') => (Throw e, w')
    | (Undefined s, w') => (Undefined s, w')
    end.

Definition throw {St A} (e : exn) : ST St A := fun w => (Throw e, w).

Definition lift {St A} (o : outcome A) : ST St A := fun w => (o, w).

(** A member function of [km::KMedoids]. *)
Definition M (A : Type) : Type := ST World A.

Definition modify (f : KMedoids -> KMedoids) : M unit :=
  fun w => (Ok tt, mkWorld (f (obj w)) (trace w)).

Definition emit (e : event) : M unit :=
  fun w => (Ok tt, mkWorld (obj w) (trace w ++ [e])).

(** [try { body } catch (std::invalid_argument& e) { handler e.what() }]:
    any other exception leaves the block. *)
Definition catch_invalid_argument {A} (body : M A)
    (handler : string -> M A) : M A :=
  fun w =>
    match body w with
    | (Throw (invalid_argument what), w') => handler what w'
    | r => r
    end.

Declare Scope M_scope.
Delimit Scope M_scope with M.
Bind Scope M_scope with ST.
Bind Scope M_scope with M.
Notation "x <- m ;; k" := (bind m (fun x => k))
  (at level 20, m at level 99, k at level 200, only parsing) : M_scope.
Notation "m ;; k" := (bind m (fun _ => k))
  (at level 100, k at level 200, only parsing, right associativity) : M_scope.

(** ** Configuration and the driver *)

Definition checkAlgorithm (algorithm : string) : outcome unit :=
  if negb (algorithm =? "BanditPAM")%string
     && negb (algorithm =? "naive")%string
     && negb (algorithm =? "FastPAM1")%string
  then Throw (c_string "unrecognized algorithm")
  else Ok tt.

(** The constructor; the fields the initialiser list does not mention
    start empty or unset. *)
Definition KMedoids_new (n_medoids : nat) (algorithm : string)
    (verbosity max_iter buildConfidence swapConfidence : nat)
    (logFilename : string) : outcome KMedoids :=
  let? _ := checkAlgorithm algorithm in
  Ok (mkKMedoids n_medoids algorithm max_iter buildConfidence
        swapConfidence verbosity logFilename None None [] [] [] 0
        (mkLogHelper [] [] [])).

Definition setAlgorithm (new_alg : string) : M unit :=
  (modify (with_algorithm new_alg) ;;
   a <- (fun w => (Ok (algorithm (obj w)), w)) ;;
   lift (checkAlgorithm a))%M.

Definition setLossFn (loss : string) : M unit :=
  let loss := if regex_match_L_digits loss then substr1 loss else loss in
  catch_invalid_argument
    (if (loss =? "manhattan")%string then modify (with_lossFn loss_manhattan)
     else if (loss =? "cos")%string then modify (with_lossFn loss_cos)
     else if (loss =? "inf")%string then modify (with_lossFn loss_LINF)
     else
       c <- lift (at0 loss) ;;
       if isdigit c then
         modify (with_lossFn loss_LP) ;;
         v <- lift (atoi loss) ;;
         modify (with_lp (Z.to_nat v))
       else
         throw (invalid_argument "error: unrecognized loss function"))%M
    (fun what => emit (Cout what)).

Section Driver.

(** The engines live in other files of the repository; each works on
    the object it is given. *)
Variable fit_naive fit_bpam fit_fastpam1 :
  mat -> KMedoids -> outcome unit * KMedoids.

Definition run_engine (e : engine) (input_data : mat) : M unit :=
  (emit (Enter e) ;;
   fun w =>
     let '(o, k) :=
       match e with
       | PAM => fit_naive input_data (obj w)
       | BanditPAM => fit_bpam input_data (obj w)
       | FastPAM1 => fit_fastpam1 input_data (obj w)
       end in
     (o, mkWorld k (trace w)))%M.

(** The [if (verbosity > 0)] block at the end of [fit];
    [loss_swap.back()] of an empty vector is undefined. *)
Definition write_log : M unit :=
  fun w =>
    let k := obj w in
    if (0 <? verbosity k)%nat then
      match last (loss_swap (logHelper k)) with
      | Some l =>
          emit (WriteProfile (logFilename k) (medoid_indices_build k)
                  (medoid_indices_final k) (steps k) l) w
      | None => (Undefined "back() of an empty vector", w)
      end
    else (Ok tt, w).

(** The engine dispatch of [fit]. *)
Definition dispatch (input_data : mat) : M unit :=
  fun w =>
    let a := algorithm (obj w) in
    if (a =? "naive")%string then run_engine PAM input_data w
    else if (a =? "BanditPAM")%string then run_engine BanditPAM input_data w
    else if (a =? "FastPAM1")%string then run_engine FastPAM1 input_data w
    else (Ok tt, w).

Definition fit (input_data : mat) (loss : string) : M unit :=
  (setLossFn loss ;;
   dispatch input_data ;;
   write_log)%M.

End Driver.

(** ** The dissimilarity kernels *)

Section Kernels.

Variable pow : double -> double -> double.

Definition LP (self : KMedoids) (data : mat) (i j : nat) : outcome double :=
  let? a := col data i in
  let? b := col data j in
  match lp self with
  | Some p => norm pow (vsub a b) p
  | None => Undefined "lp is read before it is set"
  end.

Definition cos (data : mat) (i j : nat) : outcome double :=
  let? a := col data i in
  let? b := col data j in
  let? na := norm pow a 2 in
  let? nb := norm pow b 2 in
  Ok (dot a b / (na * nb))%float.

Definition manhattan (data : mat) (i j : nat) : outcome double :=
  let? a := col data i in
  let? b := col data j in
  Ok (accu (vabs (vsub a b))).

Definition LINF (data : mat) (i j : nat) : outcome double :=
  let? a := col data i in
  let? b := col data j in
  arma_max (vabs (vsub a b)).

(** [(this->*lossFn)(data, i, j)]. *)
Definition call_lossFn (self : KMedoids) (data : mat) (i j : nat)
    : outcome double :=
  match lossFn self with
  | Some loss_manhattan => manhattan data i j
  | Some loss_cos => cos data i j
  | Some loss_LINF => LINF data i j
  | Some loss_LP => LP self data i j
  | None => Undefined "lossFn is called before it is set"
  end.

End Kernels.

(** ** Row vectors passed by reference *)

(** A reference to a row vector, and the store of the row vectors. *)
Abbreviation ref := nat (only parsing).
Abbreviation store := (gmap nat (list float)) (only parsing).

Definition load (r : ref) : ST store rowvec :=
  fun s =>
    match s !! r with
    | Some v => (Ok v, s)
    | None => (Undefined "dangling reference", s)
    end.

(** [r(i)] *)
Definition read (r : ref) (i : nat) : ST store double :=
  (v <- load r ;; lift (elem v i))%M.

(** [r(i) = x] *)
Definition write (r : ref) (i : nat) (x : double) : ST store unit :=
  (v <- load r ;;
   v' <- lift (set_elem v i x) ;;
   fun s => (Ok tt, <[r := v']> s))%M.

(** ** Loops run by a team of threads

    In [build_sigma] and in [swap_sigma] the vector [sample] is declared
    before the [#pragma omp parallel for], so the threads of the team
    share it.  An execution of such a loop is an interleaving of the
    statements of its iterations: the schedule names, step after step,
    the iteration whose next statement runs, and the statements of one
    iteration run in program order.  One statement on the shared memory
    is one step; a finer grain would add executions and take none away.
    A single thread runs the iterations one after the other.  A
    statement that throws ends the loop with its exception (where the
    program is built with OpenMP, an exception cannot leave the parallel
    region and ends the program instead). *)

Section Parallel_for.

(** The memory the threads share and the statements that act on it. *)
Variables Mem Act : Type.
Variable perform : Act -> Mem -> outcome Mem.
(** The statements of the iteration [i]; a statement whose operands fail
    to evaluate is that failure. *)
Variable body : nat -> list (outcome Act).

(** [pcs !! i] counts the statements of the iteration [i] run so far. *)
Fixpoint interleave (schedule : list nat) (pcs : list nat) (m : Mem)
    : outcome (list nat * Mem) :=
  match schedule with
  | [] => Ok (pcs, m)
  | i :: rest =>
      match pcs !! i with
      | None => Undefined "not a schedule of the loop"
      | Some pc =>
          match body i !! pc with
          | None => Undefined "not a schedule of the loop"
          | Some o =>
              let? a := o in
              let? m' := perform a m in
              interleave rest (<[i := S pc]> pcs) m'
          end
      end
  end.

(** The loop of [n] iterations under [schedule], which has to run every
    iteration to its end. *)
Definition parallel_for (n : nat) (schedule : list nat) (m : Mem)
    : outcome Mem :=
  let? r := interleave schedule (replicate n 0%nat) m in
  if decide (r.1 = map (fun i => length (body i)) (seq 0 n)) then Ok r.2
  else Undefined "not a schedule of the loop".

(** The schedule of a team of one thread. *)
Definition one_thread (n : nat) : list nat :=
  flat_map (fun i => replicate (length (body i)) i) (seq 0 n).

End Parallel_for.

Arguments interleave {Mem Act} perform body schedule pcs m.
Arguments parallel_for {Mem Act} perform body n schedule m.
Arguments one_thread {Act} body n.

(** The statements of the two sigma loops that touch the memory the
    threads share: [sample], and [updated_sigma] at the cell of the
    iteration. *)
Inductive action (C : Type) : Type :=
  | Assign (j : nat) (v : double)       (* sample(j) = v *)
  | Subtract (j : nat) (b : double)     (* sample(j) -= b *)
  | Stddev (cell : C).                   (* updated_sigma(cell) = arma::stddev(sample) *)
Arguments Assign {C} j v.
Arguments Subtract {C} j b.
Arguments Stddev {C} cell.

(** ** The assignment engine, the sigma estimators and the loss

    The iterations of the loop of [calc_best_distances_swap] write to
    entries of their own (the index [i]) and share nothing else, so the
    loop is read iteration after iteration.  The loops of [build_sigma]
    and [swap_sigma] share [sample] and are run under a schedule. *)

Section Engine.

Variable pow : double -> double -> double.
(** [arma::stddev(v, norm_type)]; [norm_type = 0], the default, is the
    normalisation by [N-1]. *)
Variable arma_stddev : list double -> nat -> double.
(** [arma::randperm(N, M)]: the draw of the call. *)
Variable randperm : nat -> nat -> outcome (list nat).
(** The text built from the minimum, the quartiles, the maximum and the
    mean of the sigmas. *)
Variable sigma_summary : rowvec -> outcome string.

Variable self : KMedoids.
Variable data : mat.

Section Assign.

Variables medoid_indices best_distances second_distances assignments : ref.

(** Iterations [k], ..., [k + count - 1] of the loop over the medoids
    for the point [i]; [best] and [second] are the locals. *)
Fixpoint scan_medoids (i k count : nat) (best second : double)
    : ST store (double * double) :=
  match count with
  | O => ret (best, second)
  | S count' =>
      (m <- read medoid_indices k ;;
       idx <- lift (to_size m) ;;
       cost <- lift (call_lossFn pow self data idx i) ;;
       if (cost <? best)%float then
         write assignments i (of_size k) ;;
         scan_medoids i (S k) count' cost best
       else if (cost <? second)%float then
         scan_medoids i (S k) count' best cost
       else
         scan_medoids i (S k) count' best second)%M
  end.

(** Iterations [i], ..., [i + count - 1] of the loop over the points. *)
Fixpoint each_point (i count : nat) : ST store unit :=
  match count with
  | O => ret tt
  | S count' =>
      (ms <- load medoid_indices ;;
       bs <- scan_medoids i 0 (length ms) infinity infinity ;;
       write best_distances i (fst bs) ;;
       write second_distances i (snd bs) ;;
       each_point (S i) count')%M
  end.

Definition calc_best_distances_swap : ST store unit :=
  each_point 0 (n_cols data).

End Assign.

(** [tmp_refs(j)] *)
Definition uelem (v : list nat) (j : nat) : outcome nat :=
  match v !! j with
  | Some x => Ok x
  | None => Throw (out_of_range "Mat::operator(): index out of bounds")
  end.

(** [m(k, n) = x] on a matrix held by columns. *)
Definition set_at (m : mat) (k n : nat) (x : double) : outcome mat :=
  match m !! n with
  | Some c =>
      if decide (k < length c)%nat then Ok (<[n := <[k := x]> c]> m)
      else Throw (out_of_range "Mat::operator(): index out of bounds")
  | None => Throw (out_of_range "Mat::operator(): index out of bounds")
  end.

(** One statement on the shared [sample] and [updated_sigma]; [put]
    stores a value at a cell of [updated_sigma]. *)
Definition perform {C S : Type} (put : C -> double -> S -> outcome S)
    (a : action C) (m : list double * S) : outcome (list double * S) :=
  match a with
  | Assign j v =>
      let? sample' := set_elem m.1 j v in Ok (sample', m.2)
  | Subtract j b =>
      let? x := elem m.1 j in
      let? sample' := set_elem m.1 j (x - b)%float in Ok (sample', m.2)
  | Stddev cell =>
      let? sigma' := put cell (arma_stddev m.1 0) m.2 in Ok (m.1, sigma')
  end.

(** [updated_sigma(i) = x] in [build_sigma] and [updated_sigma(k, n) = x]
    in [swap_sigma]. *)
Definition put_candidate (i : nat) (x : double) (s : rowvec)
    : outcome rowvec :=
  set_elem s i x.

Definition put_arm (c : nat * nat) (x : double) (s : mat) : outcome mat :=
  set_at s c.1 c.2 x.

(** The statements of [build_sigma] for the candidate [i] and the slot
    [j]: lines 339-346. *)
Definition build_statements (best_distances : rowvec) (use_absolute : bool)
    (tmp_refs : list nat) (i j : nat) : list (outcome (action nat)) :=
  let cost := let? r := uelem tmp_refs j in call_lossFn pow self data i r in
  let best := let? r := uelem tmp_refs j in elem best_distances r in
  if use_absolute then
    [let? c := cost in Ok (Assign j c)]
  else
    [let? c := cost in
     let? b := best in Ok (Assign j (if (c <? b)%float then c else b));
     let? b := best in Ok (Subtract j b)].

(** The body of the loop over the candidates. *)
Definition build_body (best_distances : rowvec) (use_absolute : bool)
    (tmp_refs : list nat) (batch_size i : nat)
    : list (outcome (action nat)) :=
  flat_map (build_statements best_distances use_absolute tmp_refs i)
    (seq 0 batch_size)
  ++ [Ok (Stddev i)].

(** [build_sigma] under a schedule of its loop: the sigmas and the object
    with the summary appended to [logHelper.sigma_build]. *)
Definition build_sigma (schedule : list nat) (best_distances : rowvec)
    (batch_size : nat) (use_absolute : bool) : outcome (rowvec * KMedoids) :=
  let N := n_cols data in
  let? tmp_refs := randperm N batch_size in
  let? m :=
    parallel_for (perform put_candidate)
      (build_body best_distances use_absolute tmp_refs batch_size)
      N schedule (replicate batch_size 0%float, replicate N 0%float) in
  let? line := sigma_summary m.2 in
  Ok (m.2, with_sigma_build (sigma_build (logHelper self) ++ [line]) self).

(** The statements of [swap_sigma] for the arm [(k, n)] and the slot
    [j]: lines 440-456. *)
Definition swap_statements (best_distances second_best_distances
    assignments : rowvec) (tmp_refs : list nat) (k n j : nat)
    : list (outcome (action (nat * nat))) :=
  [let? r := uelem tmp_refs j in
   let? cost := call_lossFn pow self data n r in
   let? a := elem assignments r in
   if (of_size k =? a)%float then
     let? s := elem second_best_distances r in
     Ok (Assign j (if (cost <? s)%float then cost else s))
   else
     let? b := elem best_distances r in
     Ok (Assign j (if (cost <? b)%float then cost else b));
   let? r := uelem tmp_refs j in
   let? b := elem best_distances r in Ok (Subtract j b)].

(** The body of the loop over the arms: the iteration [i] is the arm
    [(i % K, i / K)]. *)
Definition swap_body (best_distances second_best_distances
    assignments : rowvec) (tmp_refs : list nat) (batch_size K i : nat)
    : list (outcome (action (nat * nat))) :=
  let n := (i / K)%nat in
  let k := (i mod K)%nat in
  flat_map (swap_statements best_distances second_best_distances
              assignments tmp_refs k n) (seq 0 batch_size)
  ++ [Ok (Stddev (k, n))].

(** [swap_sigma] under a schedule of its loop: a [K] x [N] matrix
    ([K * N] is taken not to wrap). *)
Definition swap_sigma (schedule : list nat) (batch_size : nat)
    (best_distances second_best_distances assignments : rowvec)
    : outcome mat :=
  let N := n_cols data in
  let K := n_medoids self in
  let updated_sigma := replicate N (replicate K 0%float) in
  let? tmp_refs := randperm N batch_size in
  let? m :=
    parallel_for (perform put_arm)
      (swap_body best_distances second_best_distances assignments tmp_refs
         batch_size K)
      (K * N) schedule (replicate batch_size 0%float, updated_sigma) in
  Ok m.2.

(** The loop over [k] of [calc_loss] for the point [i]. *)
Fixpoint nearest (medoid_indices : rowvec) (i k count : nat)
    (cost : double) : outcome double :=
  match count with
  | O => Ok cost
  | S count' =>
      let? m := elem medoid_indices k in
      let? idx := to_size m in
      let? currCost := call_lossFn pow self data idx i in
      nearest medoid_indices i (S k) count'
        (if (currCost <? cost)%float then currCost else cost)
  end.

Fixpoint sum_nearest (medoid_indices : rowvec) (i count : nat)
    (total : double) : outcome double :=
  match count with
  | O => Ok total
  | S count' =>
      let? cost := nearest medoid_indices i 0 (n_medoids self) infinity in
      sum_nearest medoid_indices (S i) count' (total + cost)%float
  end.

Definition calc_loss (medoid_indices : rowvec) : outcome double :=
  sum_nearest medoid_indices 0 (n_cols data) 0%float.

End Engine.

(** ** What the claims are measured against *)

(** [m] is a minimum of [xs]: one of its elements, and at most each of
    them. *)
Definition is_min_of (xs : list double) (m : double) : Prop :=
  m ∈ xs /\ Forall (fun x => (m <=? x)%float = true) xs.

(** [p] is the first position of [xs] that holds its minimum [m]. *)
Definition first_argmin (xs : list double) (p : nat) (m : double) : Prop :=
  xs !! p = Some m /\
  forall q x, (q < p)%nat -> xs !! q = Some x -> (m <? x)%float = true.

(** [s] is the smallest of the values at the positions other than [p]. *)
Definition min_of_others (xs : list double) (p : nat) (s : double) : Prop :=
  (exists q, q <> p /\ xs !! q = Some s) /\
  forall q x, q <> p -> xs !! q = Some x -> (s <=? x)%float = true.

(** The sum of [xs], taken from the left. *)
Definition sum_of (xs : list double) : double :=
  foldl PrimFloat.add 0%float xs.

(** The differences of two columns, row by row. *)
Fixpoint differences (a b : list double) : list double :=
  match a, b with
  | x :: a', y :: b' => (x - y)%float :: differences a' b'
  | _, _ => []
  end.

(** The Euclidean distance of two columns: the square root of the sum of
    the squared differences. *)
Definition euclidean (a b : list double) : double :=
  sqrt (sum_of (map (fun d => d * d)%float (differences a b))).

(** The L1 distance of two columns: the sum of the absolute
    differences. *)
Definition taxicab (a b : list double) : double :=
  sum_of (map PrimFloat.abs (differences a b)).

(** The engine that [algorithm] names, if any. *)
Definition selected_engine (a : string) : option engine :=
  if (a =? "naive")%string then Some PAM
  else if (a =? "BanditPAM")%string then Some BanditPAM
  else if (a =? "FastPAM1")%string then Some FastPAM1
  else None.

(** Every field but [lossFn] and [lp] is the same in both objects. *)
Definition same_but_loss (k k' : KMedoids) : Prop :=
  n_medoids k' = n_medoids k /\ algorithm k' = algorithm k /\
  max_iter k' = max_iter k /\ buildConfidence k' = buildConfidence k /\
  swapConfidence k' = swapConfidence k /\ verbosity k' = verbosity k /\
  logFilename k' = logFilename k /\
  medoid_indices_build k' = medoid_indices_build k /\
  medoid_indices_final k' = medoid_indices_final k /\
  labels k' = labels k /\ steps k' = steps k /\ logHelper k' = logHelper k.

(** No engine is entered in the course of [l]. *)
Definition no_enter (l : list event) : Prop := forall e, Enter e ∉ l.

(** The stores agree on every reference outside [X]. *)
Definition agree_outside (X : list ref) (s s' : store) : Prop :=
  forall r, r ∉ X -> s' !! r = s !! r.

(** A computation that writes to the references of [X] only. *)
Definition writes_only {A} (X : list ref) (m : ST store A) : Prop :=
  forall s, agree_outside X s (m s).2.

(** Every entry of the column is a zero (of either sign). *)
Definition zero_column (a : list double) : Prop :=
  Forall (fun x => (x =? 0)%float = true) a.

(** ** Pure views of the loops, used in the proofs *)

(** The loop over the medoids on the list of the costs of one point:
    the two locals, and the position last written to [assignments]. *)
Fixpoint scan_costs (costs : list double) (k : nat) (best second : double)
    (a : option nat) : double * double * option nat :=
  match costs with
  | [] => (best, second, a)
  | c :: cs =>
      if (c <? best)%float then scan_costs cs (S k) c best (Some k)
      else if (c <? second)%float then scan_costs cs (S k) best c a
      else scan_costs cs (S k) best second a
  end.

(** A cost below [+infinity]; in particular a number. *)
Definition below_inf (x : double) : Prop := (x <? infinity)%float = true.

(** What the locals hold once the costs [xs] have been scanned. *)
Definition scan_inv (xs : list double) (b s : double) (p : nat) : Prop :=
  xs !! p = Some b /\
  (forall q x, xs !! q = Some x -> (x <? b)%float = false) /\
  (forall q x, (q < p)%nat -> xs !! q = Some x -> (b <? x)%float = true) /\
  (length xs = 1%nat -> s = infinity) /\
  ((2 <= length xs)%nat -> exists q, q <> p /\ xs !! q = Some s) /\
  (forall q x, q <> p -> xs !! q = Some x -> (x <? s)%float = false) /\
  (s <? b)%float = false.

(** [c] is the cost [d(data, m, i)] of the point [i] to the medoid whose
    index the double [m] holds. *)
Definition cost_is (pow : double -> double -> double) (self : KMedoids)
    (data : mat) (i : nat) (m c : double) : Prop :=
  exists idx, to_size m = Ok idx /\ call_lossFn pow self data idx i = Ok c.

(** The costs of the point [i] to the medoids at the positions
    [0, ..., len - 1], in that order. *)
Definition point_costs (cost : nat -> nat -> double) (len i : nat)
    : list double :=
  map (fun k => cost k i) (seq 0 len).

(** The loop over the medoids of [calc_loss] on the list of the costs of
    one point. *)
Definition running_min (cs : list double) (c0 : double) : double :=
  foldl (fun acc c => if (c <? acc)%float then c else acc) c0 cs.

(** The statements of a loop body that evaluate, in order. *)
Definition oks {A} (l : list (outcome A)) : list A :=
  flat_map (fun o => match o with Ok a => [a] | _ => [] end) l.

(** Statements run one after the other. *)
Fixpoint perform_all {Mem Act} (perform : Act -> Mem -> outcome Mem)
    (acts : list Act) (m : Mem) : outcome Mem :=
  match acts with
  | [] => Ok m
  | a :: rest => let? m' := perform a m in perform_all perform rest m'
  end.

(** The iterations [i], ..., [i + count - 1] run one after the other,
    each to its end. *)
Fixpoint run_in_order {Mem Act} (perform : Act -> Mem -> outcome Mem)
    (body : nat -> list (outcome Act)) (i count : nat) (m : Mem)
    : outcome Mem :=
  match count with
  | O => Ok m
  | S count' =>
      let? m' := perform_all perform (oks (body i)) m in
      run_in_order perform body (S i) count' m'
  end.

(** The contract of [arma::randperm(N, M)] for [M <= N]: [M] distinct
    indices below [N]. *)
Definition randperm_contract (randperm : nat -> nat -> outcome (list nat))
    : Prop :=
  forall N M, (M <= N)%nat ->
    exists R, randperm N M = Ok R /\ NoDup R /\ length R = M /\
              Forall (fun r => (r < N)%nat) R.

(** The sample slot that [build_sigma] fills for the candidate [i] and the
    reference point [r], as the code computes it. *)
Definition build_slot (pow : double -> double -> double) (self : KMedoids)
    (data : mat) (best_distances : rowvec) (use_absolute : bool)
    (i r : nat) (x : double) : Prop :=
  exists c, call_lossFn pow self data i r = Ok c /\
    if use_absolute then x = c
    else exists b, best_distances !! r = Some b /\
           x = ((if (c <? b)%float then c else b) - b)%float.

(** The same slot in the words of the claim: the raw cost under
    [use_absolute], else [min(d(D,i,r), b(r)) - b(r)]. *)
Definition build_delta (pow : double -> double -> double) (self : KMedoids)
    (data : mat) (best_distances : rowvec) (use_absolute : bool)
    (i r : nat) (x : double) : Prop :=
  exists c, call_lossFn pow self data i r = Ok c /\
    if use_absolute then x = c
    else exists b m, best_distances !! r = Some b /\
           is_min_of [c; b] m /\ x = (m - b)%float.

(** [m(k, n)] of a matrix held by columns. *)
Definition mat_at (m : mat) (k n : nat) : option double :=
  match m !! n with
  | Some c => c !! k
  | None => None
  end.

(** [N] columns of [K] entries each. *)
Definition mat_shape (m : mat) (K N : nat) : Prop :=
  length m = N /\ Forall (fun c : list double => length c = K) m.

(** The sample slot that [swap_sigma] fills for the arm [(k, n)] and the
    reference point [r], as the code computes it. *)
Definition swap_slot (pow : double -> double -> double) (self : KMedoids)
    (data : mat) (best_distances second_best_distances assignments : rowvec)
    (k n r : nat) (x : double) : Prop :=
  exists c a b,
    call_lossFn pow self data n r = Ok c /\
    assignments !! r = Some a /\ best_distances !! r = Some b /\
    if (of_size k =? a)%float then
      exists s, second_best_distances !! r = Some s /\
                x = ((if (c <? s)%float then c else s) - b)%float
    else x = ((if (c <? b)%float then c else b) - b)%float.

(** The same slot in the words of the claim: [reward - best(r)], where
    the reward is [min(d(D,n,r), second(r))] when [r] is assigned to the
    slot [k] and [min(d(D,n,r), best(r))] otherwise. *)
Definition swap_delta (pow : double -> double -> double) (self : KMedoids)
    (data : mat) (best_distances second_best_distances assignments : rowvec)
    (k n r : nat) (x : double) : Prop :=
  exists c a b reward,
    call_lossFn pow self data n r = Ok c /\
    assignments !! r = Some a /\ best_distances !! r = Some b /\
    (if (of_size k =? a)%float then
       exists s, second_best_distances !! r = Some s /\
                 is_min_of [c; s] reward
     else is_min_of [c; b] reward) /\
    x = (reward - b)%float.

(** ** The accessors and [sigma_log] *)

Definition getMedoidsFinal (k : KMedoids) : rowvec := medoid_indices_final k.

Definition getMedoidsBuild (k : KMedoids) : rowvec := medoid_indices_build k.

Definition getLabels (k : KMedoids) : rowvec := labels k.

Definition getSteps (k : KMedoids) : nat := steps k.

Definition getNMedoids (k : KMedoids) : nat := n_medoids k.

Definition getAlgorithm (k : KMedoids) : string := algorithm k.

Definition getVerbosity (k : KMedoids) : nat := verbosity k.

Definition getMaxIter (k : KMedoids) : nat := max_iter k.

Definition getbuildConfidence (k : KMedoids) : nat := buildConfidence k.

Definition getswapConfidence (k : KMedoids) : nat := swapConfidence k.

Definition getLogfileName (k : KMedoids) : string := logFilename k.

Definition with_n_medoids (n : nat) (k : KMedoids) : KMedoids :=
  mkKMedoids n (algorithm k) (max_iter k) (buildConfidence k)
    (swapConfidence k) (verbosity k) (logFilename k) (lossFn k) (lp k)
    (medoid_indices_build k) (medoid_indices_final k) (labels k) (steps k)
    (logHelper k).

Definition with_verbosity (v : nat) (k : KMedoids) : KMedoids :=
  mkKMedoids (n_medoids k) (algorithm k) (max_iter k) (buildConfidence k)
    (swapConfidence k) v (logFilename k) (lossFn k) (lp k)
    (medoid_indices_build k) (medoid_indices_final k) (labels k) (steps k)
    (logHelper k).

Definition with_max_iter (n : nat) (k : KMedoids) : KMedoids :=
  mkKMedoids (n_medoids k) (algorithm k) n (buildConfidence k)
    (swapConfidence k) (verbosity k) (logFilename k) (lossFn k) (lp k)
    (medoid_indices_build k) (medoid_indices_final k) (labels k) (steps k)
    (logHelper k).

Definition with_buildConfidence (c : nat) (k : KMedoids) : KMedoids :=
  mkKMedoids (n_medoids k) (algorithm k) (max_iter k) c
    (swapConfidence k) (verbosity k) (logFilename k) (lossFn k) (lp k)
    (medoid_indices_build k) (medoid_indices_final k) (labels k) (steps k)
    (logHelper k).

Definition with_swapConfidence (c : nat) (k : KMedoids) : KMedoids :=
  mkKMedoids (n_medoids k) (algorithm k) (max_iter k) (buildConfidence k)
    c (verbosity k) (logFilename k) (lossFn k) (lp k)
    (medoid_indices_build k) (medoid_indices_final k) (labels k) (steps k)
    (logHelper k).

Definition with_logFilename (f : string) (k : KMedoids) : KMedoids :=
  mkKMedoids (n_medoids k) (algorithm k) (max_iter k) (buildConfidence k)
    (swapConfidence k) (verbosity k) f (lossFn k) (lp k)
    (medoid_indices_build k) (medoid_indices_final k) (labels k) (steps k)
    (logHelper k).

Definition with_sigma_swap (l : list string) (k : KMedoids) : KMedoids :=
  mkKMedoids (n_medoids k) (algorithm k) (max_iter k) (buildConfidence k)
    (swapConfidence k) (verbosity k) (logFilename k) (lossFn k) (lp k)
    (medoid_indices_build k) (medoid_indices_final k) (labels k) (steps k)
    (mkLogHelper (sigma_build (logHelper k)) l (loss_swap (logHelper k))).

Definition setNMedoids (new_num : nat) : M unit :=
  modify (with_n_medoids new_num).

Definition setVerbosity (new_ver : nat) : M unit :=
  modify (with_verbosity new_ver).

Definition setMaxIter (new_max : nat) : M unit :=
  modify (with_max_iter new_max).

Definition setbuildConfidence (new_buildConfidence : nat) : M unit :=
  modify (with_buildConfidence new_buildConfidence).

Definition setswapConfidence (new_swapConfidence : nat) : M unit :=
  modify (with_swapConfidence new_swapConfidence).

Definition setLogFilename (new_lname : string) : M unit :=
  modify (with_logFilename new_lname).

(** The number of rows of a matrix held by columns. *)
Definition n_rows (m : mat) : nat :=
  match m with
  | [] => 0%nat
  | c :: _ => length c
  end.

(** [sigma.as_row()]: the rows of the matrix one after the other, as
    Armadillo documents it. *)
Definition as_row (sigma : mat) : rowvec :=
  flat_map (fun k => omap (fun c : list double => c !! k) sigma)
    (seq 0 (n_rows sigma)).

(** [sigma_log]: the summary of the flattened matrix goes to
    [logHelper.sigma_swap]; [sigma_summary] is the text that
    [build_sigma] builds as well. *)
Definition sigma_log (sigma_summary : rowvec -> outcome string)
    (sigma : mat) : M unit :=
  (line <- lift (sigma_summary (as_row sigma)) ;;
   modify (fun k => with_sigma_swap (sigma_swap (logHelper k) ++ [line]) k))%M.

(** ** What the further properties are measured against *)

(** The kernel is Manhattan, L-infinity, L1 or L2: one whose value is
    built from the absolute differences with [+], [max] and [sqrt]
    only. *)
Definition elementary_kernel (self : KMedoids) : Prop :=
  lossFn self = Some loss_manhattan \/ lossFn self = Some loss_LINF \/
  (lossFn self = Some loss_LP /\ (lp self = Some 1%nat \/ lp self = Some 2%nat)).

(** In [s'] every reference names a vector of the length it has in [s],
    and no reference has appeared or gone. *)
Definition same_shape (s s' : store) : Prop :=
  forall r, length <$> (s' !! r) = length <$> (s !! r).

(** A computation that never resizes, creates or removes a vector. *)
Definition keeps_shape {A} (m : ST store A) : Prop :=
  forall s, same_shape s (m s).2.

(** The object differs from [k] in its algorithm name at most. *)
Definition same_but_algorithm (k k' : KMedoids) : Prop :=
  n_medoids k' = n_medoids k /\
  max_iter k' = max_iter k /\ buildConfidence k' = buildConfidence k /\
  swapConfidence k' = swapConfidence k /\ verbosity k' = verbosity k /\
  logFilename k' = logFilename k /\ lossFn k' = lossFn k /\ lp k' = lp k /\
  medoid_indices_build k' = medoid_indices_build k /\
  medoid_indices_final k' = medoid_indices_final k /\
  labels k' = labels k /\ steps k' = steps k /\ logHelper k' = logHelper k.

(** A matrix of [R] rows, [R > 0], whose entries are all finite. *)
Definition finite_matrix (data : mat) (R : nat) : Prop :=
  R <> 0%nat /\
  Forall (fun c : list double => length c = R /\ Forall finite c) data.

(** ** Concrete objects for the examples *)

(** Stands for [std::pow] where the computation never calls it. *)
Definition pow_unused : double -> double -> double := fun _ _ => nan.

(** An engine that returns at once. *)
Definition idle_engine : mat -> KMedoids -> outcome unit * KMedoids :=
  fun _ k => (Ok tt, k).

Definition example_object (alg : string) : KMedoids :=
  mkKMedoids 2 alg 100 10 20 0 "log.txt" None None [] [] [] 0
    (mkLogHelper [] [] []).

Definition example_world (alg : string) : World :=
  mkWorld (example_object alg) [].

(** Four points of the plane, one per column; the first is the origin. *)
Definition example_data : mat :=
  [[0; 0]; [3; 4]; [-3; -4]; [6; 8]]%float.

(** The object of the examples once the tag [L2] is set. *)
Definition example_l2 : KMedoids :=
  with_lp 2 (with_lossFn loss_LP (example_object "naive")).

(** A store with the medoid indices 0 and 3 at the reference 0 and three
    vectors of four entries at the references 1, 2 and 3. *)
Definition example_store : store :=
  <[0%nat := [0; 3]%float]>
    (<[1%nat := [9; 9; 9; 9]%float]>
       (<[2%nat := [9; 9; 9; 9]%float]>
          (<[3%nat := [9; 9; 9; 9]%float]> ∅))).

(** The costs of the four example points to the medoids 0 and 3. *)
Definition example_cost (k i : nat) : double :=
  nth i (nth k [[0; 5; 5; 10]; [10; 5; 15; 0]]%float []) nan.

(** A drawing of the first indices, for the examples. *)
Definition first_indices (N M : nat) : outcome (list nat) :=
  if (M <=? N)%nat then Ok (seq 0 M)
  else Throw (logic_error "randperm(): 'M' must be less than or equal to 'N'").

(** The textbook standard deviation, for the examples: the square root of
    the sum of the squared deviations from the mean over [n - 1]
    ([norm_type] 0) or [n]; 0 for fewer than two values. *)
Definition textbook_stddev (v : list double) (norm_type : nat) : double :=
  let n := length v in
  if (n <? 2)%nat then 0%float
  else
    let mean := (sum_of v / of_size n)%float in
    let ss := sum_of (map (fun x => (x - mean) * (x - mean))%float v) in
    sqrt (ss / of_size (if (norm_type =? 0)%nat then n - 1 else n))%float.

(** A summary line for the examples. *)
Definition plain_summary : rowvec -> outcome string :=
  fun _ => Ok "sigma"%string.

(** The object of the examples with the cosine kernel, and the costs of
    the four example points to the medoids 1 and 3 under it; the first
    point, the origin, has no direction. *)
Definition example_cos : KMedoids :=
  with_lossFn loss_cos (example_object "naive").

Definition example_cos_cost (k i : nat) : double :=
  match call_lossFn pow_unused example_cos example_data
          (nth k [1; 3]%nat 0%nat) i with
  | Ok c => c
  | _ => nan
  end.

(** A schedule of the loop of [build_sigma] on the four example points
    with three slots (seven statements an iteration), for a team of two
    threads that take the candidates 0, 1 and 2, 3: the candidate 0 of
    the first thread and the candidate 2 of the second fill the slots
    one after the other, then each takes its stddev; the candidates 1
    and 3 follow. *)
Definition example_race_build : list nat :=
  replicate 6 0%nat ++ replicate 6 2%nat ++ [0; 2]%nat
  ++ replicate 7 1%nat ++ replicate 7 3%nat.

(** A schedule of the loop of [swap_sigma] on the four example points
    with two medoids and three slots (eight arms of seven statements),
    for a team of two threads that take the arms 0 to 3 and 4 to 7: the
    arm 0 of the first thread and the arm 4 of the second, that is
    [(0, 0)] and [(0, 2)], fill the slots one after the other, then each
    takes its stddev; the other arms follow. *)
Definition example_race_swap : list nat :=
  replicate 6 0%nat ++ replicate 6 4%nat ++ [0; 4]%nat
  ++ replicate 7 1%nat ++ replicate 7 2%nat ++ replicate 7 3%nat
  ++ replicate 7 5%nat ++ replicate 7 6%nat ++ replicate 7 7%nat.

(** * Properties *)

(** ** Facts on binary64 *)

Section F64_facts.

Local Open Scope float_scope.

Lemma SFltb_true a b : SFltb a b = true <-> SFlt a b.
Proof.
  unfold SFltb, SFlt.
  destruct (SFcompare a b) as [[]|]; split; congruence.
Qed.

Lemma ltb_SFlt x y : (x <? y) = true <-> SFlt (Prim2SF x) (Prim2SF y).
Proof. rewrite FloatAxioms.ltb_spec. apply SFltb_true. Qed.

Lemma ltb_false_SFlt x y :
  (x <? y) = false <-> ~ SFlt (Prim2SF x) (Prim2SF y).
Proof.
  rewrite <- ltb_SFlt. destruct (x <? y); split; congruence.
Qed.

Lemma key_lt_irrefl p : ~ key_lt p p.
Proof. destruct p as [[a b] c]. unfold key_lt. lia. Qed.

Lemma key_lt_trans p q r : key_lt p q -> key_lt q r -> key_lt p r.
Proof.
  destruct p as [[a1 b1] c1], q as [[a2 b2] c2], r as [[a3 b3] c3].
  unfold key_lt. lia.
Qed.

Lemma key_lt_cotrans p q r : key_lt p r -> key_lt p q \/ key_lt q r.
Proof.
  destruct p as [[a1 b1] c1], q as [[a2 b2] c2], r as [[a3 b3] c3].
  unfold key_lt. lia.
Qed.

Lemma SFlt_key a b :
  SFlt a b <-> a <> S754_nan /\ b <> S754_nan /\ key_lt (key a) (key b).
Proof.
  unfold SFlt.
  destruct a as [sa|sa| |sa ma ea], b as [sb|sb| |sb mb eb];
    try destruct sa; try destruct sb; cbn;
    try (split; [intros; try discriminate; repeat split; (congruence || lia)
                | intros (?&?&?); try congruence; try reflexivity; lia]).
  - rewrite Pos.compare_cont_spec; cbn.
    destruct (Z.compare_spec ea eb), (Pos.compare_spec ma mb); cbn;
      split; try discriminate; try (intros (?&?&?); lia);
      intros _; repeat split; try congruence; lia.
  - rewrite Pos.compare_cont_spec; cbn.
    destruct (Z.compare_spec ea eb), (Pos.compare_spec ma mb); cbn;
      split; try discriminate; try (intros (?&?&?); lia);
      intros _; repeat split; try congruence; lia.
Qed.

Lemma ltb_irrefl x : (x <? x) = false.
Proof.
  apply ltb_false_SFlt. rewrite SFlt_key. intros (_&_&H).
  exact (key_lt_irrefl _ H).
Qed.

Lemma ltb_trans x y z :
  (x <? y) = true -> (y <? z) = true -> (x <? z) = true.
Proof.
  rewrite !ltb_SFlt, !SFlt_key. intros (?&?&?) (?&?&?).
  repeat split; eauto using key_lt_trans.
Qed.

Lemma ltb_asym x y : (x <? y) = true -> (y <? x) = false.
Proof.
  intros H. destruct (y <? x) eqn:E; [|reflexivity].
  pose proof (ltb_trans _ _ _ H E) as F. rewrite ltb_irrefl in F.
  discriminate.
Qed.

Lemma num_SF x : num x <-> Prim2SF x <> S754_nan.
Proof.
  unfold num. rewrite FloatAxioms.eqb_spec. unfold SFeqb.
  destruct (Prim2SF x) as [s|s| |s m e]; cbn; try destruct s; cbn;
    try (split; congruence).
  all: rewrite Z.compare_refl, Pos.compare_cont_refl; cbn; split; congruence.
Qed.

(** Among numbers [<] is a strict weak order. *)
Lemma ltb_cotrans x y z :
  num y -> (x <? z) = true -> (x <? y) = true \/ (y <? z) = true.
Proof.
  rewrite num_SF, !ltb_SFlt, !SFlt_key. intros Hy (?&?&H).
  destruct (key_lt_cotrans _ (key (Prim2SF y)) _ H); [left|right];
    repeat split; assumption.
Qed.

Lemma ltb_num_l x y : (x <? y) = true -> num x.
Proof. rewrite ltb_SFlt, SFlt_key, num_SF. tauto. Qed.

Lemma ltb_num_r x y : (x <? y) = true -> num y.
Proof. rewrite ltb_SFlt, SFlt_key, num_SF. tauto. Qed.

(** *** Signs and NaN through rounding *)

Lemma SFsigned_num s a : SFsigned s a -> SFnum a.
Proof. destruct a; cbn; unfold SFnum; congruence. Qed.

Lemma SFsigned_nonneg a : SFsigned false a -> SFnonneg a.
Proof. destruct a; cbn; auto. Qed.

Lemma shr_1_nonneg mrs : (0 <= shr_m mrs)%Z -> (0 <= shr_m (shr_1 mrs))%Z.
Proof.
  destruct mrs as [m r s]; cbn. destruct m as [|[p|p|]|[p|p|]]; cbn; lia.
Qed.

Lemma iter_pos_shr_1_nonneg p mrs :
  (0 <= shr_m mrs)%Z -> (0 <= shr_m (SpecFloat.iter_pos shr_1 p mrs))%Z.
Proof.
  revert mrs. induction p as [p IH|p IH|]; intros mrs H; cbn.
  - apply IH, IH, shr_1_nonneg, H.
  - apply IH, IH, H.
  - apply shr_1_nonneg, H.
Qed.

Lemma shr_fexp_nonneg m e l :
  (0 <= m)%Z -> (0 <= shr_m (fst (shr_fexp prec emax m e l)))%Z.
Proof.
  intros H. unfold shr_fexp, shr.
  assert (0 <= shr_m (shr_record_of_loc m l))%Z as H0
    by (destruct l as [|[]]; cbn; exact H).
  destruct (_ - e)%Z; cbn; auto using iter_pos_shr_1_nonneg.
Qed.

Lemma round_nearest_even_nonneg m l :
  (0 <= m)%Z -> (0 <= round_nearest_even m l)%Z.
Proof.
  intros H. destruct l as [|[]]; cbn; try lia. destruct (Z.even m); lia.
Qed.

Lemma binary_round_aux_signed s m e l :
  (0 <= m)%Z -> SFsigned s (binary_round_aux prec emax s m e l).
Proof.
  intros H. unfold binary_round_aux.
  pose proof (shr_fexp_nonneg m e l H) as H1.
  destruct (shr_fexp prec emax m e l) as [mrs' e']; cbn in H1.
  pose proof (shr_fexp_nonneg
    (round_nearest_even (shr_m mrs') (loc_of_shr_record mrs')) e' loc_Exact
    (round_nearest_even_nonneg _ _ H1)) as H2.
  destruct (shr_fexp prec emax _ e' loc_Exact) as [mrs'' e'']; cbn in H2.
  destruct (shr_m mrs''); cbn; try reflexivity; try lia.
  destruct (_ <=? _)%Z; reflexivity.
Qed.

Lemma binary_round_signed s m e :
  SFsigned s (binary_round prec emax s m e).
Proof.
  unfold binary_round. destruct (shl_align _ _ _) as [mz ez].
  apply binary_round_aux_signed. lia.
Qed.

Lemma binary_normalize_num m e sz :
  SFnum (binary_normalize prec emax m e sz).
Proof.
  destruct m; cbn; [congruence| |];
    eapply SFsigned_num, binary_round_signed.
Qed.

(** *** The arithmetic of non-negative values *)

Lemma nonneg_SF x : nonneg x <-> SFnonneg (Prim2SF x).
Proof.
  unfold nonneg. rewrite FloatAxioms.leb_spec. unfold SFleb.
  change (Prim2SF 0) with (S754_zero false).
  destruct (Prim2SF x) as [s|[]| |[] m e]; cbn; split;
    (congruence || tauto || auto).
Qed.

Lemma finite_SF x : finite x <-> SFfinite (Prim2SF x).
Proof.
  unfold finite. rewrite ltb_SFlt, FloatAxioms.abs_spec. unfold SFlt.
  change (Prim2SF infinity) with (S754_infinity false).
  destruct (Prim2SF x) as [s|[]| |[] m e]; cbn; split;
    (congruence || tauto || auto).
Qed.

Lemma nonneg_num x : nonneg x -> num x.
Proof.
  rewrite nonneg_SF, num_SF. destruct (Prim2SF x); cbn; congruence || tauto.
Qed.

Lemma finite_num x : finite x -> num x.
Proof.
  rewrite finite_SF, num_SF. destruct (Prim2SF x); cbn; congruence || tauto.
Qed.

Lemma sub_finite_num x y : finite x -> finite y -> num (x - y).
Proof.
  rewrite !finite_SF, num_SF, FloatAxioms.sub_spec.
  unfold SF64sub, SFsub.
  destruct (Prim2SF x) as [sx|sx| |sx mx ex],
           (Prim2SF y) as [sy|sy| |sy my ey]; cbn; try tauto; intros _ _.
  - destruct sx, sy; congruence.
  - congruence.
  - congruence.
  - apply binary_normalize_num.
Qed.

Lemma abs_nonneg x : num x -> nonneg (abs x).
Proof.
  rewrite num_SF, nonneg_SF, FloatAxioms.abs_spec.
  destruct (Prim2SF x); cbn; congruence || tauto.
Qed.

Lemma add_nonneg x y : nonneg x -> nonneg y -> nonneg (x + y).
Proof.
  rewrite !nonneg_SF, FloatAxioms.add_spec. unfold SF64add, SFadd.
  destruct (Prim2SF x) as [sx|sx| |sx mx ex],
           (Prim2SF y) as [sy|sy| |sy my ey]; cbn; try tauto;
    intros Hx Hy; subst; cbn; auto.
  - destruct sx, sy; cbn; auto.
  - apply SFsigned_nonneg, binary_round_signed.
Qed.

Lemma mul_self_nonneg x : num x -> nonneg (x * x).
Proof.
  rewrite num_SF, nonneg_SF, FloatAxioms.mul_spec. unfold SF64mul, SFmul.
  destruct (Prim2SF x) as [s|s| |s m e]; cbn; try tauto; try congruence;
    intros _.
  - apply xorb_nilpotent.
  - apply SFsigned_nonneg. rewrite xorb_nilpotent.
    apply binary_round_aux_signed. lia.
Qed.

Lemma sqrt_nonneg x : nonneg x -> nonneg (sqrt x).
Proof.
  rewrite !nonneg_SF, FloatAxioms.sqrt_spec. unfold SF64sqrt, SFsqrt.
  destruct (Prim2SF x) as [s|s| |s m e]; cbn; try tauto;
    intros ->; cbn; auto.
  destruct (SFsqrt_core_binary prec emax (Z.pos m) e) as [[mz ez] lz] eqn:E.
  apply SFsigned_nonneg, binary_round_aux_signed.
  unfold SFsqrt_core_binary in E.
  destruct (Z.sqrtrem _) as [q r] eqn:Q in E.
  injection E as <- _ _.
  match type of Q with
  | Z.sqrtrem ?a = _ => pose proof (Z.sqrtrem_sqrt a) as S; rewrite Q in S
  end.
  cbn in S. subst q. apply Z.sqrt_nonneg.
Qed.

Lemma nonneg_zero : nonneg 0.
Proof. reflexivity. Qed.

Lemma neg_infinity_ltb_nonneg x : nonneg x -> (neg_infinity <? x) = true.
Proof.
  rewrite nonneg_SF, ltb_SFlt. unfold SFlt.
  change (Prim2SF neg_infinity) with (S754_infinity true).
  destruct (Prim2SF x) as [s|[]| |[] m e]; cbn; congruence || tauto.
Qed.
(** *** [<=] against [<] *)

Lemma SFcompare_swap a b :
  SFcompare b a = option_map CompOpp (SFcompare a b).
Proof.
  destruct a as [sa|sa| |sa ma ea], b as [sb|sb| |sb mb eb];
    try destruct sa; try destruct sb; cbn; try reflexivity.
  all: rewrite (Z.compare_antisym ea eb), !Pos.compare_cont_spec,
         (Pos.compare_antisym ma mb); cbn.
  all: destruct (ea ?= eb)%Z; cbn; try reflexivity.
  all: destruct (ma ?= mb)%positive; reflexivity.
Qed.

Lemma SFcompare_num a b :
  a <> S754_nan -> b <> S754_nan -> exists c, SFcompare a b = Some c.
Proof.
  destruct a as [sa|sa| |sa ma ea], b as [sb|sb| |sb mb eb]; cbn;
    intros; try congruence; eauto.
Qed.

Lemma not_ltb_leb x y :
  num x -> num y -> (y <? x) = false -> (x <=? y) = true.
Proof.
  rewrite !num_SF, FloatAxioms.ltb_spec, FloatAxioms.leb_spec.
  unfold SFltb, SFleb. intros Hx Hy.
  rewrite (SFcompare_swap (Prim2SF x) (Prim2SF y)).
  destruct (SFcompare_num _ _ Hx Hy) as [c ->]. destruct c; cbn; congruence.
Qed.

Lemma leb_not_ltb x y : (x <=? y) = true -> (y <? x) = false.
Proof.
  rewrite FloatAxioms.ltb_spec, FloatAxioms.leb_spec. unfold SFltb, SFleb.
  rewrite (SFcompare_swap (Prim2SF x) (Prim2SF y)).
  destruct (SFcompare _ _) as [[]|]; cbn; congruence.
Qed.

Lemma ltb_leb x y : (x <? y) = true -> (x <=? y) = true.
Proof.
  rewrite FloatAxioms.ltb_spec, FloatAxioms.leb_spec. unfold SFltb, SFleb.
  destruct (SFcompare _ _) as [[]|]; cbn; congruence.
Qed.

Lemma leb_refl x : num x -> (x <=? x) = true.
Proof.
  intros H. apply not_ltb_leb; auto using ltb_irrefl.
Qed.

(** *** Zeros and NaN *)

Lemma eqb_zero_SF x :
  (x =? 0) = true <-> exists s, Prim2SF x = S754_zero s.
Proof.
  rewrite FloatAxioms.eqb_spec. unfold SFeqb.
  change (Prim2SF 0) with (S754_zero false).
  destruct (Prim2SF x) as [s|[]| |[] m e]; cbn; split;
    try congruence; eauto; intros [? ?]; congruence.
Qed.

Lemma SFzn_num_zero a : SFzn a -> a <> S754_nan -> exists s, a = S754_zero s.
Proof. destruct a; cbn; try tauto; eauto; congruence. Qed.

Lemma mul_zn_l x y : SFzn (Prim2SF x) -> SFzn (Prim2SF (x * y)).
Proof.
  rewrite FloatAxioms.mul_spec. unfold SF64mul, SFmul.
  destruct (Prim2SF x), (Prim2SF y); cbn; tauto.
Qed.

Lemma mul_zn_r x y : SFzn (Prim2SF y) -> SFzn (Prim2SF (x * y)).
Proof.
  rewrite FloatAxioms.mul_spec. unfold SF64mul, SFmul.
  destruct (Prim2SF x), (Prim2SF y); cbn; tauto.
Qed.

Lemma add_zn x y :
  SFzn (Prim2SF x) -> SFzn (Prim2SF y) -> SFzn (Prim2SF (x + y)).
Proof.
  rewrite FloatAxioms.add_spec. unfold SF64add, SFadd.
  destruct (Prim2SF x) as [[]| | |], (Prim2SF y) as [[]| | |]; cbn; tauto.
Qed.

Lemma sqrt_zn x : SFzn (Prim2SF x) -> SFzn (Prim2SF (sqrt x)).
Proof.
  rewrite FloatAxioms.sqrt_spec. unfold SF64sqrt, SFsqrt.
  destruct (Prim2SF x); cbn; tauto.
Qed.

Lemma div_zn x y : SFzn (Prim2SF x) -> SFzn (Prim2SF y) -> (x / y) = nan.
Proof.
  intros Hx Hy. apply Prim2SF_inj. rewrite FloatAxioms.div_spec.
  change (Prim2SF nan) with S754_nan. unfold SF64div, SFdiv.
  destruct (Prim2SF x), (Prim2SF y); cbn in *; tauto.
Qed.

End F64_facts.

(** ** The loss-tag parser and the driver *)

Lemma eqb_str_false (s t : string) : s <> t -> (s =? t)%string = false.
Proof. apply String.eqb_neq. Qed.

Lemma same_but_loss_refl k : same_but_loss k k.
Proof. repeat split. Qed.

Lemma no_enter_nil : no_enter [].
Proof. intros e H. inversion H. Qed.

Lemma no_enter_cout s : no_enter [Cout s].
Proof.
  intros e H. apply list_elem_of_singleton in H. discriminate.
Qed.

(** [setLossFn] touches [lossFn] and [lp] only, and prints at most. *)
Lemma setLossFn_frame loss w :
  same_but_loss (obj w) (obj (setLossFn loss w).2) /\
  exists l, trace (setLossFn loss w).2 = trace w ++ l /\ no_enter l.
Proof.
  unfold setLossFn.
  set (t := if regex_match_L_digits loss then substr1 loss else loss).
  clearbody t. unfold catch_invalid_argument, bind, modify, lift, throw, emit.
  destruct (t =? "manhattan")%string;
    [cbn; split; [repeat split|exists []; rewrite app_nil_r; auto using no_enter_nil]|].
  destruct (t =? "cos")%string;
    [cbn; split; [repeat split|exists []; rewrite app_nil_r; auto using no_enter_nil]|].
  destruct (t =? "inf")%string;
    [cbn; split; [repeat split|exists []; rewrite app_nil_r; auto using no_enter_nil]|].
  destruct t as [|c r]; cbn;
    [split; [repeat split|exists []; rewrite app_nil_r; auto using no_enter_nil]|].
  destruct (isdigit c); cbn.
  - unfold atoi. destruct (_ <=? INT_MAX)%Z; cbn;
      (split; [repeat split|exists []; rewrite app_nil_r; auto using no_enter_nil]).
  - split; [repeat split|eexists; split; [reflexivity|apply no_enter_cout]].
Qed.

Section Driver_facts.

Variable fit_naive fit_bpam fit_fastpam1 :
  mat -> KMedoids -> outcome unit * KMedoids.

Lemma fit_unfold data loss w :
  fit fit_naive fit_bpam fit_fastpam1 data loss w =
  match setLossFn loss w with
  | (Ok _, w') =>
      (dispatch fit_naive fit_bpam fit_fastpam1 data ;; write_log)%M w'
  | (Throw e, w') => (Throw e, w')
  | (Undefined s, w') => (Undefined s, w')
  end.
Proof. reflexivity. Qed.

Lemma dispatch_none data w :
  selected_engine (algorithm (obj w)) = None ->
  dispatch fit_naive fit_bpam fit_fastpam1 data w = (Ok tt, w).
Proof.
  unfold selected_engine, dispatch.
  destruct (_ =? "naive")%string; [discriminate|].
  destruct (_ =? "BanditPAM")%string; [discriminate|].
  destruct (_ =? "FastPAM1")%string; [discriminate|]. reflexivity.
Qed.

Lemma dispatch_some data w e :
  selected_engine (algorithm (obj w)) = Some e ->
  dispatch fit_naive fit_bpam fit_fastpam1 data w =
  run_engine fit_naive fit_bpam fit_fastpam1 e data w.
Proof.
  unfold selected_engine, dispatch.
  destruct (_ =? "naive")%string; [congruence|].
  destruct (_ =? "BanditPAM")%string; [congruence|].
  destruct (_ =? "FastPAM1")%string; [congruence|discriminate].
Qed.

Lemma write_log_trace w :
  exists l, trace (write_log w).2 = trace w ++ l /\ no_enter l /\
            obj (write_log w).2 = obj w.
Proof.
  unfold write_log. destruct (0 <? _)%nat.
  - destruct (last _); cbn.
    + eexists; repeat split. intros e H.
      apply list_elem_of_singleton in H. discriminate.
    + exists []. rewrite app_nil_r. auto using no_enter_nil.
  - exists []. rewrite app_nil_r. cbn. auto using no_enter_nil.
Qed.

Lemma run_engine_enters e data w :
  Enter e ∈ trace (run_engine fit_naive fit_bpam fit_fastpam1 e data w).2.
Proof.
  unfold run_engine, bind, emit.
  destruct e; cbn;
    [destruct (fit_naive _ _) as [o k]|destruct (fit_bpam _ _) as [o k]
    |destruct (fit_fastpam1 _ _) as [o k]];
    destruct o; cbn; apply elem_of_app; right; constructor.
Qed.

(** Once the loss tag is dealt with, [fit] enters the selected engine. *)
Lemma dispatch_then_log_enters e data w :
  selected_engine (algorithm (obj w)) = Some e ->
  Enter e ∈ trace
    ((dispatch fit_naive fit_bpam fit_fastpam1 data ;; write_log)%M w).2.
Proof.
  intros H. unfold bind. rewrite (dispatch_some _ _ _ H).
  pose proof (run_engine_enters e data w) as Hin.
  destruct (run_engine _ _ _ e data w) as [[[]|x|s] w1]; cbn in *; auto.
  destruct (write_log_trace w1) as (l & -> & _).
  apply elem_of_app. auto.
Qed.

End Driver_facts.

(** ** C1: an unrecognised loss tag *)

(** C1, as stated, fails: with the tag [foo] and the algorithm
    [BanditPAM], [fit] returns normally, the message has gone to
    [std::cout] and the engine has been entered. *)
Lemma fit_unrecognized_tag_enters_engine :
  fit idle_engine idle_engine idle_engine example_data "foo"
      (example_world "BanditPAM")
  = (Ok tt,
     mkWorld (example_object "BanditPAM")
       [Cout "error: unrecognized loss function"; Enter BanditPAM]).
Proof. vm_compute. reflexivity. Qed.

(** C1 (amended): for a non-empty tag that does not start with a digit,
    is none of [manhattan], [cos], [inf] and is not an [L] followed by
    digits only, [setLossFn] prints the error message on [std::cout] and
    returns normally with [lossFn] and [lp] as they were; [fit] then goes
    on to the dispatch, and enters the engine that [algorithm] selects. *)
Theorem setLossFn_unrecognized_is_printed
    (fit_naive fit_bpam fit_fastpam1 :
       mat -> KMedoids -> outcome unit * KMedoids)
    (loss : string) (c : ascii) (rest : string) (data : mat) (w : World) :
  loss = String c rest ->
  isdigit c = false ->
  regex_match_L_digits loss = false ->
  loss <> "manhattan"%string -> loss <> "cos"%string ->
  loss <> "inf"%string ->
  let w' :=
    mkWorld (obj w) (trace w ++ [Cout "error: unrecognized loss function"]) in
  setLossFn loss w = (Ok tt, w') /\
  fit fit_naive fit_bpam fit_fastpam1 data loss w =
    (dispatch fit_naive fit_bpam fit_fastpam1 data ;; write_log)%M w' /\
  forall e, selected_engine (algorithm (obj w)) = Some e ->
    Enter e ∈ trace (fit fit_naive fit_bpam fit_fastpam1 data loss w).2.
Proof.
  intros Hl Hc Hre Hm Hcos Hinf w'.
  assert (setLossFn loss w = (Ok tt, w')) as Hset.
  { unfold setLossFn. rewrite Hre.
    rewrite (eqb_str_false _ _ Hm), (eqb_str_false _ _ Hcos),
      (eqb_str_false _ _ Hinf).
    subst loss. unfold catch_invalid_argument, bind, lift. cbn.
    rewrite Hc. reflexivity. }
  split; [exact Hset|]. rewrite fit_unfold, Hset.
  split; [reflexivity|].
  intros e He. apply dispatch_then_log_enters. exact He.
Qed.

Lemma setLossFn_unrecognized_is_printed_witness :
  setLossFn "euclid" (example_world "naive")
  = (Ok tt,
     mkWorld (example_object "naive")
       [Cout "error: unrecognized loss function"]) /\
  Enter PAM ∈ trace
    (fit idle_engine idle_engine idle_engine example_data "euclid"
       (example_world "naive")).2.
Proof.
  pose proof (setLossFn_unrecognized_is_printed idle_engine idle_engine
    idle_engine "euclid" "e" "uclid" example_data (example_world "naive")
    eq_refl eq_refl eq_refl) as H.
  destruct H as (H1 & _ & H3); [discriminate..|].
  split; [exact H1|]. apply H3. reflexivity.
Defined.
(** Tags next to the ones above.  The empty tag, and [L] alone, make
    [at(0)] throw [std::out_of_range], which no handler catches. *)
Example setLossFn_empty_tag_throws :
  (setLossFn "" (example_world "naive")).1
    = Throw (out_of_range "basic_string::at") /\
  (setLossFn "L" (example_world "naive")).1
    = Throw (out_of_range "basic_string::at").
Proof. split; reflexivity. Qed.

(** A tag that starts with a digit is read by [atoi] up to its first
    non-digit; [L0] sets the exponent 0, which [arma::norm] refuses at
    the first call of the kernel. *)
Example setLossFn_digit_prefix_is_accepted :
  (setLossFn "2abc" (example_world "naive")).2
    = mkWorld example_l2 [] /\
  setLossFn "L0" (example_world "naive")
    = (Ok tt,
       mkWorld (with_lp 0 (with_lossFn loss_LP (example_object "naive")))
         []) /\
  call_lossFn pow_unused
    (with_lp 0 (with_lossFn loss_LP (example_object "naive")))
    example_data 0 1
    = Throw (logic_error "norm(): k must be greater than zero").
Proof. repeat split; reflexivity. Qed.

(** ** C2: the cosine kernel on a zero column *)

Lemma zero_column_zn a :
  zero_column a -> Forall (fun x => SFzn (Prim2SF x)) a.
Proof.
  intros H. eapply Forall_impl; [exact H|].
  intros x Hx. apply eqb_zero_SF in Hx as [s ->]. exact I.
Qed.

Lemma accu_zn v acc :
  SFzn (Prim2SF acc) -> Forall (fun x => SFzn (Prim2SF x)) v ->
  SFzn (Prim2SF (foldl PrimFloat.add acc v)).
Proof.
  intros Hacc Hv. revert acc Hacc.
  induction Hv as [|x v Hx _ IH]; intros acc Hacc; cbn; [exact Hacc|].
  apply IH, add_zn; assumption.
Qed.

Lemma zn_zero : SFzn (Prim2SF 0%float).
Proof. exact I. Qed.

Lemma dot_zn_l a b :
  Forall (fun x => SFzn (Prim2SF x)) a -> SFzn (Prim2SF (dot a b)).
Proof.
  intros Ha. unfold dot, accu. apply accu_zn; [exact zn_zero|].
  revert b. induction Ha as [|x a Hx _ IH]; intros [|y b]; cbn;
    constructor; auto using mul_zn_l.
Qed.

Lemma dot_zn_r a b :
  Forall (fun x => SFzn (Prim2SF x)) b -> SFzn (Prim2SF (dot a b)).
Proof.
  intros Hb. unfold dot, accu. apply accu_zn; [exact zn_zero|].
  revert a. induction Hb as [|y b Hy _ IH]; intros [|x a]; cbn;
    constructor; auto using mul_zn_r.
Qed.

Lemma sum_squares_zn a acc :
  SFzn (Prim2SF acc) -> Forall (fun x => SFzn (Prim2SF x)) a ->
  SFzn (Prim2SF (foldl (fun acc x => acc + x * x)%float acc a)).
Proof.
  intros Hacc Ha. revert acc Hacc.
  induction Ha as [|x a Hx _ IH]; intros acc Hacc; cbn; [exact Hacc|].
  apply IH, add_zn; auto using mul_zn_l.
Qed.

Lemma norm_2_ok pow v : exists n, norm pow v 2 = Ok n.
Proof. destruct v; cbn; eauto. Qed.

Lemma norm_2_zn pow a n :
  Forall (fun x => SFzn (Prim2SF x)) a -> norm pow a 2 = Ok n ->
  SFzn (Prim2SF n).
Proof.
  intros Ha. destruct a as [|x a]; cbn; intros [= <-]; [exact zn_zero|].
  inversion Ha; subst.
  apply sqrt_zn, sum_squares_zn; [apply add_zn; auto using mul_zn_l|];
    auto using zn_zero.
Qed.

(** C2, as stated, fails: the first column of the data is zero, the tag
    is [cos], and [fit] reports nothing: it returns normally after the
    engine has been entered; the kernel, asked for the dissimilarity of
    the zero column and another one, divides by zero and returns NaN. *)
Lemma fit_cos_zero_column_no_error :
  fit idle_engine idle_engine idle_engine example_data "cos"
      (example_world "BanditPAM")
  = (Ok tt,
     mkWorld (with_lossFn loss_cos (example_object "BanditPAM"))
       [Enter BanditPAM]) /\
  cos pow_unused example_data 0 1 = Ok nan.
Proof. split; vm_compute; reflexivity. Qed.

(** C2 (amended): with the tag [cos], [fit] checks no column norm:
    [setLossFn] selects the cosine kernel without reading the data, no
    error is reported and [fit] goes on to the dispatch; for a column
    whose entries are all zero the kernel evaluates the division and
    returns NaN, whichever the other column is. *)
Theorem fit_cos_performs_no_norm_check
    (fit_naive fit_bpam fit_fastpam1 :
       mat -> KMedoids -> outcome unit * KMedoids)
    (pow : double -> double -> double)
    (data : mat) (w : World) (i j : nat) (a b : list double) :
  data !! i = Some a -> data !! j = Some b -> zero_column a ->
  let w' := mkWorld (with_lossFn loss_cos (obj w)) (trace w) in
  setLossFn "cos" w = (Ok tt, w') /\
  fit fit_naive fit_bpam fit_fastpam1 data "cos" w =
    (dispatch fit_naive fit_bpam fit_fastpam1 data ;; write_log)%M w' /\
  call_lossFn pow (obj w') data i j = Ok nan /\
  call_lossFn pow (obj w') data j i = Ok nan.
Proof.
  intros Hi Hj Hz w'. apply zero_column_zn in Hz.
  split; [reflexivity|]. split; [reflexivity|].
  destruct (norm_2_ok pow a) as [na Hna], (norm_2_ok pow b) as [nb Hnb].
  pose proof (norm_2_zn pow a na Hz Hna) as Hzna.
  unfold call_lossFn, cos, col; cbn. rewrite Hi, Hj; cbn.
  rewrite Hna, Hnb; cbn. split; f_equal; apply div_zn;
    auto using dot_zn_l, dot_zn_r, mul_zn_l, mul_zn_r.
Qed.

Lemma fit_cos_performs_no_norm_check_witness :
  setLossFn "cos" (example_world "FastPAM1")
  = (Ok tt,
     mkWorld (with_lossFn loss_cos (example_object "FastPAM1")) []) /\
  call_lossFn pow_unused
    (with_lossFn loss_cos (example_object "FastPAM1")) example_data 0 3
  = Ok nan.
Proof.
  pose proof (fit_cos_performs_no_norm_check idle_engine idle_engine
    idle_engine pow_unused example_data (example_world "FastPAM1") 0 3
    [0; 0]%float [6; 8]%float eq_refl eq_refl) as H.
  destruct H as (H1 & _ & H3 & _).
  - repeat constructor.
  - split; [exact H1|exact H3].
Defined.

(** ** C8: tags that select the same kernel *)

Lemma foldl_map_fusion {A B C} (f : A -> C -> A) (g : B -> C) acc l :
  foldl f acc (map g l) = foldl (fun a x => f a (g x)) acc l.
Proof.
  revert acc. induction l as [|x l IH]; intros acc; cbn; [reflexivity|].
  apply IH.
Qed.

Lemma vec_norm_1_accu v : vec_norm_1 v = accu (vabs v).
Proof. unfold vec_norm_1, accu, vabs. symmetry. apply foldl_map_fusion. Qed.

Lemma norm_1_manhattan pow v : norm pow v 1 = Ok (accu (vabs v)).
Proof. destruct v; [reflexivity|]. cbn [norm]. now rewrite vec_norm_1_accu. Qed.

Lemma vsub_differences a b : vsub a b = differences a b.
Proof.
  revert b. induction a as [|x a IH]; intros [|y b]; cbn;
    try reflexivity; f_equal; apply IH.
Qed.

Lemma norm_2_euclidean pow a b :
  norm pow (vsub a b) 2 = Ok (euclidean a b).
Proof.
  unfold euclidean, sum_of. rewrite foldl_map_fusion.
  first [change (differences a b) with (vsub a b)
        |rewrite <- vsub_differences].
  destruct (vsub a b); reflexivity.
Qed.

Lemma accu_vabs_taxicab a b : accu (vabs (vsub a b)) = taxicab a b.
Proof.
  unfold taxicab, sum_of.
  first [change (differences a b) with (vsub a b)
        |rewrite <- vsub_differences].
  reflexivity.
Qed.

(** C8: the tags [L2] and [2] both select the LP kernel with [lp = 2] and
    change nothing else, and that kernel returns the Euclidean distance
    of the two columns; the tag [L1] selects the LP kernel with
    [lp = 1] and the tag [manhattan] the Manhattan kernel, and both
    kernels return the sum of the absolute differences of the two
    columns, the same outcome for every data matrix and every pair of
    indices. *)
Theorem loss_tag_round_trip
    (pow : double -> double -> double) (w : World) (data : mat)
    (i j : nat) :
  setLossFn "L2" w
    = (Ok tt, mkWorld (with_lp 2 (with_lossFn loss_LP (obj w))) (trace w)) /\
  setLossFn "2" w
    = (Ok tt, mkWorld (with_lp 2 (with_lossFn loss_LP (obj w))) (trace w)) /\
  setLossFn "L1" w
    = (Ok tt, mkWorld (with_lp 1 (with_lossFn loss_LP (obj w))) (trace w)) /\
  setLossFn "manhattan" w
    = (Ok tt, mkWorld (with_lossFn loss_manhattan (obj w)) (trace w)) /\
  call_lossFn pow (obj (setLossFn "L2" w).2) data i j =
    (let? a := col data i in let? b := col data j in Ok (euclidean a b)) /\
  call_lossFn pow (obj (setLossFn "2" w).2) data i j =
    (let? a := col data i in let? b := col data j in Ok (euclidean a b)) /\
  call_lossFn pow (obj (setLossFn "L1" w).2) data i j =
    (let? a := col data i in let? b := col data j in Ok (taxicab a b)) /\
  call_lossFn pow (obj (setLossFn "manhattan" w).2) data i j =
    (let? a := col data i in let? b := col data j in Ok (taxicab a b)) /\
  call_lossFn pow (obj (setLossFn "L1" w).2) data i j =
    call_lossFn pow (obj (setLossFn "manhattan" w).2) data i j.
Proof.
  assert (forall self : KMedoids, lossFn self = Some loss_LP ->
            lp self = Some 2%nat ->
            call_lossFn pow self data i j =
            (let? a := col data i in let? b := col data j in
             Ok (euclidean a b))) as H2.
  { intros self Hl Hp. unfold call_lossFn, LP. rewrite Hl, Hp.
    destruct (col data i) as [a| |]; cbn [obind]; try reflexivity;
      destruct (col data j) as [b| |]; cbn [obind]; try reflexivity;
      apply norm_2_euclidean. }
  assert (forall self : KMedoids, lossFn self = Some loss_LP ->
            lp self = Some 1%nat ->
            call_lossFn pow self data i j =
            (let? a := col data i in let? b := col data j in
             Ok (taxicab a b))) as H1.
  { intros self Hl Hp. unfold call_lossFn, LP. rewrite Hl, Hp.
    destruct (col data i) as [a| |]; cbn [obind]; try reflexivity;
      destruct (col data j) as [b| |]; cbn [obind]; try reflexivity;
      rewrite norm_1_manhattan, accu_vabs_taxicab; reflexivity. }
  assert (forall self : KMedoids, lossFn self = Some loss_manhattan ->
            call_lossFn pow self data i j =
            (let? a := col data i in let? b := col data j in
             Ok (taxicab a b))) as Hm.
  { intros self Hl. unfold call_lossFn, manhattan. rewrite Hl.
    destruct (col data i) as [a| |]; cbn [obind]; try reflexivity;
      destruct (col data j) as [b| |]; cbn [obind]; try reflexivity;
      rewrite accu_vabs_taxicab; reflexivity. }
  split; [reflexivity|]. split; [reflexivity|]. split; [reflexivity|].
  split; [reflexivity|]. split; [|split; [|split; [|split]]].
  - apply H2; reflexivity.
  - apply H2; reflexivity.
  - apply H1; reflexivity.
  - apply Hm; reflexivity.
  - rewrite H1, Hm; reflexivity.
Qed.

(** ** C10: [setAlgorithm] with an unknown name *)

Lemma checkAlgorithm_invalid a :
  a <> "BanditPAM"%string -> a <> "naive"%string ->
  a <> "FastPAM1"%string ->
  checkAlgorithm a = Throw (c_string "unrecognized algorithm") /\
  selected_engine a = None.
Proof.
  intros H1 H2 H3. unfold checkAlgorithm, selected_engine.
  rewrite (eqb_str_false _ _ H1), (eqb_str_false _ _ H2),
    (eqb_str_false _ _ H3). split; reflexivity.
Qed.

(** C10: called with a name outside the three, [setAlgorithm] throws
    after it has stored the name.  A later [fit] on that object sets the
    loss, enters no engine and writes the log if asked to: with verbosity
    0 its outcome is that of [setLossFn], and the medoids, the labels and
    the step count are what they were. *)
Theorem setAlgorithm_invalid_is_stored
    (fit_naive fit_bpam fit_fastpam1 :
       mat -> KMedoids -> outcome unit * KMedoids)
    (new_alg : string) (w : World) :
  new_alg <> "BanditPAM"%string -> new_alg <> "naive"%string ->
  new_alg <> "FastPAM1"%string ->
  let w1 := mkWorld (with_algorithm new_alg (obj w)) (trace w) in
  setAlgorithm new_alg w = (Throw (c_string "unrecognized algorithm"), w1) /\
  algorithm (obj w1) = new_alg /\
  forall (data : mat) (loss : string),
    let r := fit fit_naive fit_bpam fit_fastpam1 data loss w1 in
    r = (setLossFn loss ;; write_log)%M w1 /\
    (exists l, trace r.2 = trace w ++ l /\ no_enter l) /\
    (verbosity (obj w) = 0%nat -> r = setLossFn loss w1) /\
    medoid_indices_build (obj r.2) = medoid_indices_build (obj w) /\
    medoid_indices_final (obj r.2) = medoid_indices_final (obj w) /\
    labels (obj r.2) = labels (obj w) /\
    steps (obj r.2) = steps (obj w).
Proof.
  intros H1 H2 H3 w1.
  destruct (checkAlgorithm_invalid _ H1 H2 H3) as [Hc Hs].
  split.
  { unfold setAlgorithm, bind, modify, lift; cbn. rewrite Hc. reflexivity. }
  split; [reflexivity|]. intros data loss r.
  assert (r = (setLossFn loss ;; write_log)%M w1) as Hr.
  { subst r. rewrite fit_unfold. unfold bind at 2.
    destruct (setLossFn_frame loss w1) as [(_ & Ha & _) _].
    destruct (setLossFn loss w1) as [[[]|e|s] w2]; cbn in *; try reflexivity.
    unfold bind. rewrite dispatch_none; [reflexivity|].
    rewrite Ha. exact Hs. }
  split; [exact Hr|]. clearbody r. subst r. unfold bind.
  destruct (setLossFn_frame loss w1)
    as [(_ & _ & _ & _ & _ & Hv & _ & Hb & Hf & Hl & Hst & Hlog)
        (l & Hl1 & Hl2)].
  destruct (setLossFn loss w1) as [o w2] eqn:E; cbn in *.
  assert (forall o', (o', w2) = (o', w2) ->
    (exists l, trace w2 = trace w ++ l /\ no_enter l) /\
    medoid_indices_build (obj w2) = medoid_indices_build (obj w) /\
    medoid_indices_final (obj w2) = medoid_indices_final (obj w) /\
    labels (obj w2) = labels (obj w) /\ steps (obj w2) = steps (obj w))
    as Hsame by (intros; repeat split; eauto).
  destruct o as [[]|e|s].
  - destruct (write_log_trace w2) as (l' & Hl' & Hn' & Ho').
    split; [|split].
    + exists (l ++ l'). rewrite Hl', Hl1, app_assoc. split; [reflexivity|].
      intros e He. apply elem_of_app in He as [He|He];
        [exact (Hl2 e He)|exact (Hn' e He)].
    + intros Hv0. unfold write_log. rewrite Hv, Hv0. reflexivity.
    + rewrite Ho'. auto.
  - cbn. split; [eauto|]. split; [reflexivity|auto].
  - cbn. split; [eauto|]. split; [reflexivity|auto].
Qed.

Lemma setAlgorithm_invalid_is_stored_witness :
  setAlgorithm "kmeans" (example_world "naive")
  = (Throw (c_string "unrecognized algorithm"), example_world "kmeans") /\
  fit idle_engine idle_engine idle_engine example_data "L2"
    (example_world "kmeans")
  = setLossFn "L2" (example_world "kmeans").
Proof.
  pose proof (setAlgorithm_invalid_is_stored idle_engine idle_engine
    idle_engine "kmeans" (example_world "naive")) as H.
  destruct H as (H1 & _ & H3); [discriminate..|].
  split; [exact H1|].
  destruct (H3 example_data "L2"%string) as (_ & _ & H4 & _).
  apply H4. reflexivity.
Defined.

(** ** C3: the sign of the dissimilarities *)

Lemma vsub_num a b :
  Forall finite a -> Forall finite b -> Forall num (vsub a b).
Proof.
  intros Ha. revert b. induction Ha as [|x a Hx _ IH]; intros b Hb; cbn;
    [constructor|].
  destruct Hb as [|y b Hy Hb]; constructor; auto using sub_finite_num.
Qed.

Lemma vsub_nonempty a b :
  length a = length b -> a <> [] -> vsub a b <> [].
Proof. destruct a, b; cbn; congruence. Qed.

Lemma foldl_add_nonneg {A} (f : A -> double) l acc :
  nonneg acc -> Forall (fun x => nonneg (f x)) l ->
  nonneg (foldl (fun acc x => acc + f x)%float acc l).
Proof.
  intros Hacc Hl. revert acc Hacc.
  induction Hl as [|x l Hx _ IH]; intros acc Hacc; cbn; [exact Hacc|].
  apply IH, add_nonneg; assumption.
Qed.

Lemma accu_vabs_nonneg v : Forall num v -> nonneg (accu (vabs v)).
Proof.
  intros Hv. rewrite <- vec_norm_1_accu. unfold vec_norm_1.
  apply foldl_add_nonneg; [exact nonneg_zero|].
  eapply Forall_impl; [exact Hv|]. intros x Hx. exact (abs_nonneg x Hx).
Qed.

Lemma running_max_nonneg l m :
  nonneg m -> Forall nonneg l ->
  nonneg (foldl (fun m x => if (m <? x)%float then x else m) m l).
Proof.
  intros Hm Hl. revert m Hm.
  induction Hl as [|x l Hx _ IH]; intros m Hm; cbn; [exact Hm|].
  apply IH. destruct (m <? x)%float; assumption.
Qed.

Lemma arma_max_nonneg v :
  v <> [] -> Forall nonneg v -> exists d, arma_max v = Ok d /\ nonneg d.
Proof.
  destruct v as [|x v]; [congruence|]. intros _ Hv.
  inversion Hv as [|? ? Hx Hv']; subst.
  eexists; split; [reflexivity|]. cbn [foldl].
  rewrite (neg_infinity_ltb_nonneg x Hx). apply running_max_nonneg; assumption.
Qed.

Lemma vabs_nonneg v : Forall num v -> Forall nonneg (vabs v).
Proof.
  intros Hv. unfold vabs. apply Forall_map.
  eapply Forall_impl; [exact Hv|]. intros x Hx. exact (abs_nonneg x Hx).
Qed.

Lemma norm_nonneg pow v p :
  (forall x k, (3 <= k)%nat -> nonneg x ->
     nonneg (pow x (of_size k)) /\ nonneg (pow x (1 / of_size k)%float)) ->
  (1 <= p)%nat -> Forall num v ->
  exists d, norm pow v p = Ok d /\ nonneg d.
Proof.
  intros Hpow Hp Hv. destruct v as [|x0 v0].
  { eexists; split; [reflexivity|exact nonneg_zero]. }
  remember (x0 :: v0) as v eqn:Ev.
  assert (norm pow v p =
          match p with
          | 1%nat => Ok (vec_norm_1 v)
          | 2%nat => Ok (vec_norm_2 v)
          | 0%nat => Throw (logic_error
                       "norm(): k must be greater than zero")
          | _ => Ok (vec_norm_k pow v p)
          end) as -> by (subst v; reflexivity).
  clear Ev. destruct p as [|[|[|p]]]; [lia| | |];
    (eexists; split; [reflexivity|]).
  - rewrite vec_norm_1_accu. apply accu_vabs_nonneg, Hv.
  - unfold vec_norm_2.
    apply sqrt_nonneg, foldl_add_nonneg; [exact nonneg_zero|].
    eapply Forall_impl; [exact Hv|]. intros x Hx.
    exact (mul_self_nonneg x Hx).
  - unfold vec_norm_k. apply Hpow; [lia|].
    apply foldl_add_nonneg; [exact nonneg_zero|].
    eapply Forall_impl; [exact Hv|]. intros x Hx.
    apply Hpow; [lia|]. exact (abs_nonneg x Hx).
Qed.

(** C3, as stated, fails for the cosine kernel: the second and the third
    column of the data point in opposite directions, and their
    dissimilarity is [-1]. *)
Lemma cos_opposite_columns_negative :
  call_lossFn pow_unused (with_lossFn loss_cos (example_object "naive"))
    example_data 1 2 = Ok (-1)%float /\
  (-1 <? 0)%float = true.
Proof. split; vm_compute; reflexivity. Qed.

(** C3 (amended): for the Manhattan, the L-infinity and the Lp kernel
    ([p >= 1]), on a data matrix with at least one row and finite
    entries, the dissimilarity of two columns is a number that is at least
    zero.  ([std::pow], used for [p >= 3], is taken to map a non-negative
    base to a non-negative value at the two exponents the norm uses.)  The
    cosine kernel is left out: it returns the raw similarity. *)
Theorem dissimilarity_nonneg
    (pow : double -> double -> double) (self : KMedoids) (data : mat)
    (i j : nat) (a b : list double) :
  (forall x k, (3 <= k)%nat -> nonneg x ->
     nonneg (pow x (of_size k)) /\ nonneg (pow x (1 / of_size k)%float)) ->
  lossFn self = Some loss_manhattan \/
  lossFn self = Some loss_LINF \/
  (lossFn self = Some loss_LP /\ exists p, lp self = Some p /\ (1 <= p)%nat) ->
  data !! i = Some a -> data !! j = Some b ->
  length a = length b -> a <> [] ->
  Forall finite a -> Forall finite b ->
  exists d, call_lossFn pow self data i j = Ok d /\
            (0 <=? d)%float = true /\ num d.
Proof.
  intros Hpow Hk Hi Hj Hlen Hne Ha Hb.
  pose proof (vsub_num a b Ha Hb) as Hv.
  pose proof (vsub_nonempty a b Hlen Hne) as Hvne.
  assert (exists d, call_lossFn pow self data i j = Ok d /\ nonneg d)
    as (d & Hd & Hn).
  { unfold call_lossFn.
    destruct Hk as [->|[->|(-> & p & Hp & Hp1)]].
    - unfold manhattan, col. rewrite Hi, Hj; cbn.
      eexists; split; [reflexivity|]. apply accu_vabs_nonneg, Hv.
    - unfold LINF, col. rewrite Hi, Hj; cbn.
      apply arma_max_nonneg; [|apply vabs_nonneg, Hv].
      unfold vabs. destruct (vsub a b); cbn; congruence.
    - unfold LP, col. rewrite Hi, Hj, Hp; cbn.
      apply norm_nonneg; assumption. }
  exists d. split; [exact Hd|]. split; [exact Hn|exact (nonneg_num d Hn)].
Qed.

Lemma dissimilarity_nonneg_witness :
  exists d,
    call_lossFn (fun x _ => x)
      (with_lp 2 (with_lossFn loss_LP (example_object "naive")))
      example_data 1 3 = Ok d /\
    (0 <=? d)%float = true /\ num d.
Proof.
  apply (dissimilarity_nonneg (fun x _ => x)
    (with_lp 2 (with_lossFn loss_LP (example_object "naive")))
    example_data 1 3 [3; 4]%float [6; 8]%float).
  - intros x k _ Hx. split; exact Hx.
  - right; right. split; [reflexivity|]. exists 2%nat.
    split; [reflexivity|lia].
  - reflexivity.
  - reflexivity.
  - reflexivity.
  - discriminate.
  - repeat constructor.
  - repeat constructor.
Defined.

(** ** C9: what the assignment engine writes *)

Lemma agree_outside_refl X s : agree_outside X s s.
Proof. intros r _. reflexivity. Qed.

Lemma agree_outside_trans X s1 s2 s3 :
  agree_outside X s1 s2 -> agree_outside X s2 s3 -> agree_outside X s1 s3.
Proof. intros H12 H23 r Hr. rewrite (H23 r Hr). exact (H12 r Hr). Qed.

Lemma writes_only_ret {A} X (a : A) : writes_only X (ret a).
Proof. intros s. apply agree_outside_refl. Qed.

Lemma writes_only_lift {A} X (o : outcome A) : writes_only X (lift o).
Proof. intros s. apply agree_outside_refl. Qed.

Lemma writes_only_bind {A B} X (m : ST store A) (f : A -> ST store B) :
  writes_only X m -> (forall a, writes_only X (f a)) ->
  writes_only X (bind m f).
Proof.
  intros Hm Hf s. unfold bind. specialize (Hm s).
  destruct (m s) as [[a|e|u] s1]; cbn in *; try exact Hm.
  eapply agree_outside_trans; [exact Hm|]. apply Hf.
Qed.

Lemma writes_only_load X r : writes_only X (load r).
Proof.
  intros s. unfold load. destruct (s !! r); apply agree_outside_refl.
Qed.

Lemma writes_only_read X r i : writes_only X (read r i).
Proof.
  apply writes_only_bind; [apply writes_only_load|].
  intros v. apply writes_only_lift.
Qed.

Lemma writes_only_write X r i x : r ∈ X -> writes_only X (write r i x).
Proof.
  intros Hr. apply writes_only_bind; [apply writes_only_load|]. intros v.
  apply writes_only_bind; [apply writes_only_lift|]. intros v'.
  intros s q Hq. cbn. apply lookup_insert_ne. intros ->. exact (Hq Hr).
Qed.

Lemma writes_only_scan_medoids pow self data rm ra X i k count best second :
  ra ∈ X ->
  writes_only X (scan_medoids pow self data rm ra i k count best second).
Proof.
  intros Hra. revert k best second.
  induction count as [|count IH]; intros k best second; cbn [scan_medoids].
  { apply writes_only_ret. }
  apply writes_only_bind; [apply writes_only_read|]. intros m.
  apply writes_only_bind; [apply writes_only_lift|]. intros idx.
  apply writes_only_bind; [apply writes_only_lift|]. intros cost.
  destruct (cost <? best)%float.
  - apply writes_only_bind; [apply writes_only_write, Hra|]. intros _.
    apply IH.
  - destruct (cost <? second)%float; apply IH.
Qed.

Lemma writes_only_each_point pow self data rm rb rs ra i count :
  writes_only [rb; rs; ra] (each_point pow self data rm rb rs ra i count).
Proof.
  revert i. induction count as [|count IH]; intros i; cbn [each_point].
  { apply writes_only_ret. }
  apply writes_only_bind; [apply writes_only_load|]. intros ms.
  apply writes_only_bind.
  { apply writes_only_scan_medoids. do 2 right. left. }
  intros bs.
  apply writes_only_bind; [apply writes_only_write; left|]. intros _.
  apply writes_only_bind; [apply writes_only_write; right; left|]. intros _.
  apply IH.
Qed.

(** C9: whatever its outcome, [calc_best_distances_swap] leaves every
    row vector other than the three it is given for the best distances,
    the second distances and the assignments as it was; so the medoid
    indices are unchanged when their vector is none of these three.  The
    data matrix is a [const] parameter and the object is only read:
    neither is part of the state the function returns. *)
Theorem calc_best_distances_swap_frame
    (pow : double -> double -> double) (self : KMedoids) (data : mat)
    (medoid_indices best_distances second_distances assignments : ref)
    (s : store) (ms : rowvec) :
  medoid_indices <> best_distances ->
  medoid_indices <> second_distances ->
  medoid_indices <> assignments ->
  s !! medoid_indices = Some ms ->
  let s' := (calc_best_distances_swap pow self data medoid_indices
               best_distances second_distances assignments s).2 in
  s' !! medoid_indices = Some ms /\
  forall r, r <> best_distances -> r <> second_distances ->
            r <> assignments -> s' !! r = s !! r.
Proof.
  intros H1 H2 H3 Hms s'.
  assert (forall r, r <> best_distances -> r <> second_distances ->
                    r <> assignments -> s' !! r = s !! r) as H.
  { intros r Hb Hs Ha.
    apply (writes_only_each_point pow self data medoid_indices
             best_distances second_distances assignments 0 (n_cols data) s).
    rewrite !not_elem_of_cons. repeat split; auto. apply not_elem_of_nil. }
  split; [|exact H]. rewrite H; assumption.
Qed.

Lemma calc_best_distances_swap_frame_witness :
  (calc_best_distances_swap pow_unused example_l2 example_data 0 1 2 3
     example_store).2 !! 0%nat = Some [0; 3]%float.
Proof.
  refine (proj1 (calc_best_distances_swap_frame pow_unused example_l2
    example_data 0 1 2 3 example_store [0; 3]%float _ _ _ _));
    [lia|lia|lia|reflexivity].
Defined.

(** ** C4: the assignment engine *)

Lemma below_inf_num x : below_inf x -> num x.
Proof. apply ltb_num_l. Qed.

Lemma scan_costs_init cs k b s a :
  scan_costs cs k b s a =
  let r := scan_costs cs k b s None in
  (r.1, match r.2 with Some p => Some p | None => a end).
Proof.
  revert k b s a. induction cs as [|c cs IH]; intros k b s a; cbn.
  { reflexivity. }
  destruct (c <? b)%float.
  - rewrite (IH (S k) c b (Some k)). cbn.
    destruct (scan_costs cs (S k) c b None) as [[b' s'] [p|]]; reflexivity.
  - destruct (c <? s)%float; apply IH.
Qed.

Lemma scan_inv_first c : below_inf c -> scan_inv [c] c infinity 0.
Proof.
  intros Hc. repeat split.
  - intros [|q] x; cbn; [intros [= <-]; apply ltb_irrefl|discriminate].
  - intros q x Hq. lia.
  - cbn. lia.
  - intros [|q] x Hq; [congruence|discriminate].
  - apply ltb_asym, Hc.
Qed.

Lemma lookup_snoc_inv (xs : list double) c q x :
  (xs ++ [c]) !! q = Some x ->
  ((q < length xs)%nat /\ xs !! q = Some x) \/ (q = length xs /\ x = c).
Proof.
  intros H. destruct (decide (q < length xs)%nat) as [Hq|Hq].
  - left. split; [exact Hq|]. rewrite lookup_app_l in H; assumption.
  - right. rewrite lookup_app_r in H by lia.
    destruct (q - length xs)%nat as [|d] eqn:E; cbn in H; [|discriminate].
    split; [lia|congruence].
Qed.

Lemma scan_inv_step xs c b s p :
  xs <> [] -> Forall below_inf (xs ++ [c]) -> scan_inv xs b s p ->
  if (c <? b)%float then scan_inv (xs ++ [c]) c b (length xs)
  else if (c <? s)%float then scan_inv (xs ++ [c]) b c p
  else scan_inv (xs ++ [c]) b s p.
Proof.
  intros Hne Hall (I1 & I2 & I3 & I4 & I5 & I6 & I7).
  assert (p < length xs)%nat as Hp by (apply lookup_lt_is_Some; eauto).
  assert (1 <= length xs)%nat as Hn by (destruct xs; cbn; [congruence|lia]).
  assert (forall q x, xs !! q = Some x -> num x) as Hnum.
  { intros q x Hq. apply below_inf_num.
    apply Forall_app in Hall as [Hall _].
    rewrite Forall_lookup in Hall. eauto. }
  assert (below_inf c) as Hc.
  { apply Forall_app in Hall as [_ Hall]. inversion Hall; assumption. }
  destruct (c <? b)%float eqn:Ecb; [|destruct (c <? s)%float eqn:Ecs].
  - repeat split.
    + rewrite lookup_app_r, Nat.sub_diag by lia. reflexivity.
    + intros q x Hq. apply lookup_snoc_inv in Hq as [[_ Hq]|[_ ->]].
      * destruct (x <? c)%float eqn:E; [|reflexivity].
        rewrite <- (I2 q x Hq). symmetry. eapply ltb_trans; eassumption.
      * apply ltb_irrefl.
    + intros q x Hq Hx. rewrite lookup_app_l in Hx by lia.
      destruct (ltb_cotrans c x b (Hnum q x Hx) Ecb) as [H|H]; [exact H|].
      rewrite (I2 q x Hx) in H. discriminate.
    + intros Hlen. rewrite length_app in Hlen. cbn in Hlen. lia.
    + intros _. exists p. split; [lia|]. rewrite lookup_app_l; assumption.
    + intros q x Hq Hx. apply lookup_snoc_inv in Hx as [[_ Hx]|[-> _]].
      * eapply I2; eassumption.
      * congruence.
    + apply ltb_asym, Ecb.
  - repeat split.
    + rewrite lookup_app_l; assumption.
    + intros q x Hq. apply lookup_snoc_inv in Hq as [[_ Hq]|[_ ->]].
      * eapply I2; eassumption.
      * exact Ecb.
    + intros q x Hq Hx. rewrite lookup_app_l in Hx by lia.
      eapply I3; eassumption.
    + intros Hlen. rewrite length_app in Hlen. cbn in Hlen. lia.
    + intros _. exists (length xs). split; [lia|].
      rewrite lookup_app_r, Nat.sub_diag by lia. reflexivity.
    + intros q x Hq Hx. apply lookup_snoc_inv in Hx as [[_ Hx]|[_ ->]].
      * destruct (x <? c)%float eqn:E; [|reflexivity].
        rewrite <- (I6 q x Hq Hx). symmetry. eapply ltb_trans; eassumption.
      * apply ltb_irrefl.
    + exact Ecb.
  - repeat split.
    + rewrite lookup_app_l; assumption.
    + intros q x Hq. apply lookup_snoc_inv in Hq as [[_ Hq]|[_ ->]].
      * eapply I2; eassumption.
      * exact Ecb.
    + intros q x Hq Hx. rewrite lookup_app_l in Hx by lia.
      eapply I3; eassumption.
    + intros Hlen. rewrite length_app in Hlen. cbn in Hlen. lia.
    + intros _. destruct (decide (length xs = 1)%nat) as [H1|H1].
      * rewrite (I4 H1) in Ecs. unfold below_inf in Hc. congruence.
      * destruct I5 as (q & Hq & Hx); [lia|]. exists q. split; [exact Hq|].
        rewrite lookup_app_l; [exact Hx|].
        apply lookup_lt_is_Some; eauto.
    + intros q x Hq Hx. apply lookup_snoc_inv in Hx as [[_ Hx]|[_ ->]].
      * eapply I6; eassumption.
      * exact Ecs.
    + exact I7.
Qed.

Lemma scan_costs_inv cs xs b s p :
  xs <> [] -> Forall below_inf (xs ++ cs) -> scan_inv xs b s p ->
  exists b' s' p',
    scan_costs cs (length xs) b s (Some p) = (b', s', Some p') /\
    scan_inv (xs ++ cs) b' s' p'.
Proof.
  revert xs b s p. induction cs as [|c cs IH]; intros xs b s p Hne Hall Hinv.
  { rewrite app_nil_r. cbn. eauto. }
  assert (Forall below_inf (xs ++ [c])) as Hall1.
  { apply Forall_app in Hall as [H1 H2]. apply Forall_app. split; [exact H1|].
    inversion H2; subst. repeat constructor. assumption. }
  pose proof (scan_inv_step xs c b s p Hne Hall1 Hinv) as Hstep.
  assert (xs ++ [c] <> []) as Hne1 by (destruct xs; discriminate).
  assert (length (xs ++ [c]) = S (length xs)) as Hlen
    by (rewrite length_app; cbn; lia).
  replace (xs ++ c :: cs) with ((xs ++ [c]) ++ cs) in *
    by (rewrite <- app_assoc; reflexivity).
  cbn [scan_costs].
  destruct (c <? b)%float; [|destruct (c <? s)%float];
    rewrite <- Hlen; apply IH; assumption.
Qed.

(** From the start of the loop: all the costs are below [+infinity]. *)
Lemma scan_costs_spec cs :
  cs <> [] -> Forall below_inf cs ->
  exists b s p,
    scan_costs cs 0 infinity infinity None = (b, s, Some p) /\
    scan_inv cs b s p.
Proof.
  destruct cs as [|c cs]; [congruence|]. intros _ Hall.
  assert (below_inf c) as Hc by (inversion Hall; assumption).
  cbn [scan_costs]. unfold below_inf in Hc. rewrite Hc.
  apply (scan_costs_inv cs [c] c infinity 0); [discriminate|exact Hall|].
  apply scan_inv_first, Hc.
Qed.

(** The invariant in the words of the claim. *)
Lemma scan_inv_meaning xs b s p :
  Forall below_inf xs -> scan_inv xs b s p ->
  is_min_of xs b /\ first_argmin xs p b /\
  (length xs = 1%nat -> s = infinity) /\
  ((2 <= length xs)%nat ->
     min_of_others xs p s /\ (b <=? s)%float = true).
Proof.
  intros Hall (I1 & I2 & I3 & I4 & I5 & I6 & I7).
  assert (forall q x, xs !! q = Some x -> num x) as Hnum.
  { intros q x Hq. apply below_inf_num. rewrite Forall_lookup in Hall. eauto. }
  assert (num b) as Hb by eauto.
  split; [|split; [|split]].
  - split; [apply list_elem_of_lookup; eauto|].
    apply Forall_lookup. intros q x Hq. apply not_ltb_leb; eauto.
  - split; assumption.
  - exact I4.
  - intros H2. destruct (I5 H2) as (q & Hq & Hs).
    assert (num s) as Hns by eauto.
    split; [split; [eauto|]|].
    + intros q' x Hq' Hx. apply not_ltb_leb; eauto.
    + apply not_ltb_leb; assumption.
Qed.

Lemma bind_ok {St A B} (m : ST St A) (f : A -> ST St B) s a s' :
  m s = (Ok a, s') -> bind m f s = f a s'.
Proof. intros H. unfold bind. rewrite H. reflexivity. Qed.

Lemma load_run (s : store) r v : s !! r = Some v -> load r s = (Ok v, s).
Proof. intros H. unfold load. rewrite H. reflexivity. Qed.

Lemma read_run (s : store) r v i x :
  s !! r = Some v -> v !! i = Some x -> read r i s = (Ok x, s).
Proof.
  intros Hr Hi. unfold read. rewrite (bind_ok _ _ _ _ _ (load_run s r v Hr)).
  unfold lift, elem. rewrite Hi. reflexivity.
Qed.

Lemma write_run (s : store) r v i x :
  s !! r = Some v -> (i < length v)%nat ->
  write r i x s = (Ok tt, <[r := <[i := x]> v]> s).
Proof.
  intros Hr Hi. unfold write.
  rewrite (bind_ok _ _ _ _ _ (load_run s r v Hr)).
  unfold bind, lift, set_elem. rewrite decide_True by exact Hi. reflexivity.
Qed.

Section Assign_facts.

Variable pow : double -> double -> double.
Variable self : KMedoids.
Variable data : mat.
Variables rm rb rs ra : ref.

Lemma scan_medoids_run i suf :
  forall cs pre best second (s : store) A,
  rm <> ra -> s !! rm = Some (pre ++ suf) -> s !! ra = Some A ->
  (i < length A)%nat ->
  Forall2 (cost_is pow self data i) suf cs ->
  scan_medoids pow self data rm ra i (length pre) (length suf) best second s
  = (Ok (scan_costs cs (length pre) best second None).1,
     match (scan_costs cs (length pre) best second None).2 with
     | Some p => <[ra := <[i := of_size p]> A]> s
     | None => s
     end).
Proof.
  induction suf as [|m suf IH]; intros cs pre best second s A Hne Hm HA Hi HF.
  { inversion HF; subst. reflexivity. }
  inversion HF as [|? c ? cs' (idx & Hidx & Hcost) HF']; subst.
  cbn [scan_medoids length scan_costs].
  rewrite (bind_ok _ _ _ _ _
    (read_run s rm _ (length pre) m Hm (list_lookup_middle _ _ _ _ eq_refl))).
  rewrite (bind_ok (lift (to_size m)) _ s idx s)
    by (unfold lift; rewrite Hidx; reflexivity).
  rewrite (bind_ok (lift _) _ s c s)
    by (unfold lift; rewrite Hcost; reflexivity).
  assert (length (pre ++ [m]) = S (length pre)) as Hlen
    by (rewrite length_app; cbn; lia).
  assert (pre ++ m :: suf = (pre ++ [m]) ++ suf) as Happ
    by (rewrite <- app_assoc; reflexivity).
  destruct (c <? best)%float; [|destruct (c <? second)%float].
  - rewrite (bind_ok _ _ _ _ _ (write_run s ra A i _ HA Hi)).
    set (A1 := <[i := of_size (length pre)]> A).
    set (s1 := <[ra := A1]> s).
    assert (s1 !! rm = Some ((pre ++ [m]) ++ suf)) as Hm1.
    { subst s1. rewrite lookup_insert_ne by congruence.
      rewrite <- Happ. exact Hm. }
    assert (s1 !! ra = Some A1) as HA1 by apply lookup_insert_eq.
    assert (i < length A1)%nat as Hi1
      by (subst A1; rewrite length_insert; exact Hi).
    rewrite <- Hlen.
    rewrite (IH cs' (pre ++ [m]) c best s1 A1 Hne Hm1 HA1 Hi1 HF').
    rewrite (scan_costs_init cs' _ c best (Some (length pre))). cbn.
    destruct (scan_costs cs' (length (pre ++ [m])) c best None)
      as [[b' s'] [p|]]; cbn; [|reflexivity].
    subst s1 A1. rewrite insert_insert_eq, list_insert_insert_eq.
    reflexivity.
  - rewrite <- Hlen. apply IH; try assumption. rewrite <- Happ. exact Hm.
  - rewrite <- Hlen. apply IH; try assumption. rewrite <- Happ. exact Hm.
Qed.

End Assign_facts.

Section Each_point_facts.

Variable pow : double -> double -> double.
Variable self : KMedoids.
Variable data : mat.
Variables rm rb rs ra : ref.
Variable ms : rowvec.
Variable cost : nat -> nat -> double.

Lemma each_point_run count :
  forall i (s : store) (B S A : rowvec),
  NoDup [rm; rb; rs; ra] ->
  s !! rm = Some ms -> s !! rb = Some B -> s !! rs = Some S ->
  s !! ra = Some A ->
  (i + count <= length B)%nat -> (i + count <= length S)%nat ->
  (i + count <= length A)%nat ->
  ms <> [] ->
  (forall j, (i <= j < i + count)%nat ->
     Forall2 (cost_is pow self data j) ms (point_costs cost (length ms) j) /\
     Forall below_inf (point_costs cost (length ms) j)) ->
  exists (s' : store) (B' S' A' : rowvec),
    each_point pow self data rm rb rs ra i count s = (Ok tt, s') /\
    s' !! rm = Some ms /\ s' !! rb = Some B' /\ s' !! rs = Some S' /\
    s' !! ra = Some A' /\
    length B' = length B /\ length S' = length S /\ length A' = length A /\
    (forall j, (j < i)%nat ->
       B' !! j = B !! j /\ S' !! j = S !! j /\ A' !! j = A !! j) /\
    (forall j, (i <= j < i + count)%nat ->
       exists b sd p,
         scan_costs (point_costs cost (length ms) j) 0 infinity infinity None
           = (b, sd, Some p) /\
         B' !! j = Some b /\ S' !! j = Some sd /\
         A' !! j = Some (of_size p)).
Proof.
  induction count as [|count IH];
    intros i s B S A Hnd Hm HB HS HA HlB HlS HlA Hne Hcost.
  { exists s, B, S, A. cbn. repeat split; auto. intros j Hj. lia. }
  assert (rm <> rb /\ rm <> rs /\ rm <> ra /\ rb <> rs /\ rb <> ra /\ rs <> ra)
    as (Hmb & Hms & Hma & Hbs & Hba & Hsa).
  { apply NoDup_cons in Hnd as [H1 Hnd]. apply NoDup_cons in Hnd as [H2 Hnd].
    apply NoDup_cons in Hnd as [H3 _].
    rewrite !not_elem_of_cons in H1. rewrite !not_elem_of_cons in H2.
    rewrite !not_elem_of_cons in H3.
    destruct H1 as (? & ? & ? & _), H2 as (? & ? & _), H3 as (? & _).
    repeat split; assumption. }
  destruct (Hcost i) as [HF Hall]; [lia|].
  assert (point_costs cost (length ms) i <> []) as Hcne.
  { unfold point_costs. destruct ms; [congruence|discriminate]. }
  destruct (scan_costs_spec _ Hcne Hall) as (b & sd & p & Hscan & _).
  cbn [each_point].
  rewrite (bind_ok _ _ _ _ _ (load_run s rm ms Hm)).
  pose proof (scan_medoids_run pow self data rm ra i ms
    (point_costs cost (length ms) i) [] infinity infinity s A Hma) as Hrun.
  cbn [length app] in Hrun. rewrite Hscan in Hrun. cbn in Hrun.
  rewrite (bind_ok _ _ _ _ _ (Hrun Hm HA ltac:(lia) HF)). clear Hrun.
  cbn [fst snd].
  set (A1 := <[i := of_size p]> A).
  set (s1 := <[ra := A1]> s).
  assert (s1 !! rb = Some B) as HB1
    by (subst s1; rewrite lookup_insert_ne by congruence; exact HB).
  rewrite (bind_ok _ _ _ _ _ (write_run s1 rb B i b HB1 ltac:(lia))).
  set (B1 := <[i := b]> B).
  set (s2 := <[rb := B1]> s1).
  assert (s2 !! rs = Some S) as HS2.
  { subst s2 s1. rewrite !lookup_insert_ne by congruence. exact HS. }
  rewrite (bind_ok _ _ _ _ _ (write_run s2 rs S i sd HS2 ltac:(lia))).
  set (S1 := <[i := sd]> S).
  set (s3 := <[rs := S1]> s2).
  destruct (IH (Datatypes.S i) s3 B1 S1 A1 Hnd)
    as (s' & B' & S' & A' & Hrun & Hm' & HB' & HS' & HA' & HlB' & HlS'
        & HlA' & Hlow & Hhigh).
  - subst s3 s2 s1. rewrite !lookup_insert_ne by congruence. exact Hm.
  - subst s3 s2. rewrite lookup_insert_ne by congruence.
    apply lookup_insert_eq.
  - subst s3. apply lookup_insert_eq.
  - subst s3 s2 s1. rewrite !lookup_insert_ne by congruence.
    apply lookup_insert_eq.
  - subst B1. rewrite length_insert. lia.
  - subst S1. rewrite length_insert. lia.
  - subst A1. rewrite length_insert. lia.
  - exact Hne.
  - intros j Hj. apply Hcost. lia.
  - exists s', B', S', A'. split; [exact Hrun|].
    subst A1 B1 S1. rewrite !length_insert in *.
    repeat split; try assumption.
    + destruct (Hlow j ltac:(lia)) as (-> & _ & _).
      apply list_lookup_insert_ne. lia.
    + destruct (Hlow j ltac:(lia)) as (_ & -> & _).
      apply list_lookup_insert_ne. lia.
    + destruct (Hlow j ltac:(lia)) as (_ & _ & ->).
      apply list_lookup_insert_ne. lia.
    + intros j Hj. destruct (decide (j = i)) as [->|Hji].
      * exists b, sd, p. destruct (Hlow i ltac:(lia)) as (-> & -> & ->).
        rewrite !list_lookup_insert_eq by lia. auto.
      * apply Hhigh. lia.
Qed.

End Each_point_facts.

Lemma point_costs_lookup cost len i k :
  (k < len)%nat -> point_costs cost len i !! k = Some (cost k i).
Proof.
  intros Hk. unfold point_costs. rewrite list_lookup_fmap.
  rewrite lookup_seq_lt by exact Hk. reflexivity.
Qed.

Lemma point_costs_length cost len i : length (point_costs cost len i) = len.
Proof. unfold point_costs. rewrite length_map, length_seq. reflexivity. Qed.

(** C4: on a store whose four row vectors are distinct, with at least
    one medoid, output vectors of at least [N] entries, and every cost
    [d(D, m, i)] defined and below [+infinity], the assignment engine
    returns normally and, for every point [i]: [best(i)] is the minimum
    of the costs of [i] to the medoids; [assignments(i)] is the first
    position of the medoid sequence that attains it; [second(i)] is the
    smallest cost of [i] to the other medoids ([+infinity] when there is
    one medoid only), so that [best(i) <= second(i)]. *)
Theorem calc_best_distances_swap_spec
    (pow : double -> double -> double) (self : KMedoids) (data : mat)
    (medoid_indices best_distances second_distances assignments : ref)
    (s : store) (ms B S A : rowvec) (cost : nat -> nat -> double) :
  NoDup [medoid_indices; best_distances; second_distances; assignments] ->
  s !! medoid_indices = Some ms -> s !! best_distances = Some B ->
  s !! second_distances = Some S -> s !! assignments = Some A ->
  ms <> [] ->
  (n_cols data <= length B)%nat -> (n_cols data <= length S)%nat ->
  (n_cols data <= length A)%nat ->
  (forall k m i, ms !! k = Some m -> (i < n_cols data)%nat ->
     cost_is pow self data i m (cost k i) /\ below_inf (cost k i)) ->
  exists (s' : store) (B' S' A' : rowvec),
    calc_best_distances_swap pow self data medoid_indices best_distances
      second_distances assignments s = (Ok tt, s') /\
    s' !! best_distances = Some B' /\ s' !! second_distances = Some S' /\
    s' !! assignments = Some A' /\
    forall i, (i < n_cols data)%nat ->
      exists best second p,
        B' !! i = Some best /\ S' !! i = Some second /\
        A' !! i = Some (of_size p) /\
        is_min_of (point_costs cost (length ms) i) best /\
        first_argmin (point_costs cost (length ms) i) p best /\
        (length ms = 1%nat -> second = infinity) /\
        ((2 <= length ms)%nat ->
           min_of_others (point_costs cost (length ms) i) p second /\
           (best <=? second)%float = true).
Proof.
  intros Hnd Hm HB HS HA Hne HlB HlS HlA Hcost.
  assert (forall j, (0 <= j < 0 + n_cols data)%nat ->
    Forall2 (cost_is pow self data j) ms (point_costs cost (length ms) j) /\
    Forall below_inf (point_costs cost (length ms) j)) as Hc.
  { intros j Hj. split.
    - apply Forall2_same_length_lookup_2.
      { rewrite point_costs_length. reflexivity. }
      intros k m c Hk Hc.
      rewrite point_costs_lookup in Hc
        by (apply lookup_lt_is_Some; eauto).
      injection Hc as <-. apply (Hcost k m j Hk). lia.
    - apply Forall_lookup. intros k c Hc.
      assert (k < length ms)%nat as Hk.
      { rewrite <- (point_costs_length cost (length ms) j).
        apply lookup_lt_is_Some; eauto. }
      rewrite point_costs_lookup in Hc by exact Hk. injection Hc as <-.
      destruct (lookup_lt_is_Some_2 ms k Hk) as [m Hmk].
      apply (Hcost k m j Hmk). lia. }
  destruct (each_point_run pow self data medoid_indices best_distances
    second_distances assignments ms cost (n_cols data) 0 s B S A
    Hnd Hm HB HS HA HlB HlS HlA Hne Hc)
    as (s' & B' & S' & A' & Hrun & _ & HB' & HS' & HA' & _ & _ & _ & _
        & Hres).
  exists s', B', S', A'. repeat split; try assumption.
  intros i Hi.
  destruct (Hres i ltac:(lia)) as (b & sd & p & Hscan & Eb & Es & Ea).
  destruct (Hc i ltac:(lia)) as [_ Hall].
  assert (point_costs cost (length ms) i <> []) as Hcne.
  { unfold point_costs. destruct ms; [congruence|discriminate]. }
  destruct (scan_costs_spec _ Hcne Hall) as (b' & sd' & p' & Hscan' & Hinv).
  rewrite Hscan in Hscan'. injection Hscan' as <- <- <-.
  destruct (scan_inv_meaning _ b sd p Hall Hinv) as (H1 & H2 & H3 & H4).
  rewrite point_costs_length in H3, H4.
  exists b, sd, p.
  exact (conj Eb (conj Es (conj Ea (conj H1 (conj H2 (conj H3 H4)))))).
Qed.

Lemma calc_best_distances_swap_spec_witness :
  exists (s' : store) (B' S' A' : rowvec),
    calc_best_distances_swap pow_unused example_l2 example_data 0 1 2 3
      example_store = (Ok tt, s') /\
    s' !! 1%nat = Some B' /\ s' !! 2%nat = Some S' /\
    s' !! 3%nat = Some A' /\
    forall i, (i < n_cols example_data)%nat ->
      exists best second p,
        B' !! i = Some best /\ S' !! i = Some second /\
        A' !! i = Some (of_size p) /\
        is_min_of (point_costs example_cost 2 i) best /\
        first_argmin (point_costs example_cost 2 i) p best /\
        (2 = 1%nat -> second = infinity) /\
        ((2 <= 2)%nat ->
           min_of_others (point_costs example_cost 2 i) p second /\
           (best <=? second)%float = true).
Proof.
  apply (calc_best_distances_swap_spec pow_unused example_l2 example_data
    0 1 2 3 example_store [0; 3]%float [9; 9; 9; 9]%float
    [9; 9; 9; 9]%float [9; 9; 9; 9]%float example_cost).
  - repeat constructor; rewrite ?not_elem_of_cons; repeat split;
      try lia; apply not_elem_of_nil.
  - reflexivity.
  - reflexivity.
  - reflexivity.
  - reflexivity.
  - discriminate.
  - cbn. lia.
  - cbn. lia.
  - cbn. lia.
  - intros k m i Hk Hi. cbn in Hi.
    destruct k as [|[|k]]; cbn in Hk; try discriminate;
      injection Hk as <-;
      destruct i as [|[|[|[|i]]]]; try lia;
      (split; [eexists; split; vm_compute; reflexivity
              |vm_compute; reflexivity]).
Defined.

(** ** C7: the loss *)

Lemma running_min_scan cs k b s a :
  running_min cs b = (scan_costs cs k b s a).1.1.
Proof.
  revert k b s a. induction cs as [|c cs IH]; intros k b s a; cbn.
  { reflexivity. }
  destruct (c <? b)%float; [apply IH|].
  destruct (c <? s)%float; apply IH.
Qed.

Lemma running_min_is_min cs :
  cs <> [] -> Forall below_inf cs -> is_min_of cs (running_min cs infinity).
Proof.
  intros Hne Hall.
  destruct (scan_costs_spec cs Hne Hall) as (b & s & p & Hscan & Hinv).
  rewrite (running_min_scan cs 0 infinity infinity None), Hscan. cbn.
  apply (scan_inv_meaning cs b s p Hall Hinv).
Qed.

Section Loss_facts.

Variable pow : double -> double -> double.
Variable self : KMedoids.
Variable data : mat.

Lemma nearest_run i suf :
  forall cs pre c0,
  Forall2 (cost_is pow self data i) suf cs ->
  nearest pow self data (pre ++ suf) i (length pre) (length suf) c0
  = Ok (running_min cs c0).
Proof.
  induction suf as [|m suf IH]; intros cs pre c0 HF.
  { inversion HF; subst. reflexivity. }
  inversion HF as [|? c ? cs' (idx & Hidx & Hcost) HF']; subst.
  cbn [nearest length]. unfold elem.
  rewrite (list_lookup_middle pre suf m (length pre) eq_refl). cbn [obind].
  rewrite Hidx. cbn [obind]. rewrite Hcost. cbn [obind].
  replace (pre ++ m :: suf) with ((pre ++ [m]) ++ suf)
    by (rewrite <- app_assoc; reflexivity).
  replace (S (length pre)) with (length (pre ++ [m]))
    by (rewrite length_app; cbn; lia).
  rewrite (IH cs' (pre ++ [m]) _ HF'). reflexivity.
Qed.

Lemma sum_nearest_run ms (cost : nat -> nat -> double) count :
  forall i total,
  length ms = n_medoids self ->
  (forall j, (i <= j < i + count)%nat ->
     Forall2 (cost_is pow self data j) ms (point_costs cost (length ms) j)) ->
  sum_nearest pow self data ms i count total
  = Ok (foldl PrimFloat.add total
          (map (fun j => running_min (point_costs cost (length ms) j) infinity)
               (seq i count))).
Proof.
  induction count as [|count IH]; intros i total Hlen Hcost.
  { reflexivity. }
  cbn [sum_nearest seq map foldl]. rewrite <- Hlen.
  pose proof (nearest_run i ms _ [] infinity (Hcost i ltac:(lia))) as Hn.
  cbn [app length] in Hn. rewrite Hn. cbn [obind]. apply IH; [exact Hlen|]. intros j Hj. apply Hcost. lia.
Qed.

End Loss_facts.

(** C7: for a medoid sequence of [n_medoids] entries, at least one, with
    every cost [d(D, m, i)] defined and below [+infinity], [calc_loss]
    returns the sum, taken in the order of the points, of the minimum
    over the medoids of the cost of each point. *)
Theorem calc_loss_spec
    (pow : double -> double -> double) (self : KMedoids) (data : mat)
    (medoid_indices : rowvec) (cost : nat -> nat -> double) :
  length medoid_indices = n_medoids self ->
  medoid_indices <> [] ->
  (forall k m i, medoid_indices !! k = Some m -> (i < n_cols data)%nat ->
     cost_is pow self data i m (cost k i) /\ below_inf (cost k i)) ->
  exists mins : list double,
    calc_loss pow self data medoid_indices = Ok (sum_of mins) /\
    length mins = n_cols data /\
    forall i, (i < n_cols data)%nat ->
      exists m, mins !! i = Some m /\
        is_min_of (point_costs cost (length medoid_indices) i) m.
Proof.
  intros Hlen Hne Hcost.
  set (ms := medoid_indices) in *.
  exists (map (fun j => running_min (point_costs cost (length ms) j) infinity)
              (seq 0 (n_cols data))).
  split; [|split].
  - unfold calc_loss, sum_of. apply sum_nearest_run; [exact Hlen|].
    intros j Hj. apply Forall2_same_length_lookup_2.
    { rewrite point_costs_length. reflexivity. }
    intros k m c Hk Hc.
    rewrite point_costs_lookup in Hc by (apply lookup_lt_is_Some; eauto).
    injection Hc as <-. apply (Hcost k m j Hk). lia.
  - rewrite length_map, length_seq. reflexivity.
  - intros i Hi. eexists. split.
    { rewrite list_lookup_fmap, lookup_seq_lt by exact Hi. reflexivity. }
    apply running_min_is_min.
    + unfold point_costs. destruct ms; [congruence|discriminate].
    + apply Forall_lookup. intros k c Hc.
      assert (k < length ms)%nat as Hk.
      { rewrite <- (point_costs_length cost (length ms) i).
        apply lookup_lt_is_Some; eauto. }
      rewrite point_costs_lookup in Hc by exact Hk. injection Hc as <-.
      destruct (lookup_lt_is_Some_2 ms k Hk) as [m Hmk].
      apply (Hcost k m i Hmk). exact Hi.
Qed.

Lemma calc_loss_spec_witness :
  exists mins : list double,
    calc_loss pow_unused example_l2 example_data [0; 3]%float
      = Ok (sum_of mins) /\
    length mins = n_cols example_data /\
    forall i, (i < n_cols example_data)%nat ->
      exists m, mins !! i = Some m /\
        is_min_of (point_costs example_cost 2 i) m.
Proof.
  apply (calc_loss_spec pow_unused example_l2 example_data [0; 3]%float
    example_cost).
  - reflexivity.
  - discriminate.
  - intros k m i Hk Hi. cbn in Hi.
    destruct k as [|[|k]]; cbn in Hk; try discriminate;
      injection Hk as <-;
      destruct i as [|[|[|[|i]]]]; try lia;
      (split; [eexists; split; vm_compute; reflexivity
              |vm_compute; reflexivity]).
Defined.

(** ** C6: the sigma of BUILD *)

Lemma min_pair_code c b :
  num c -> num b -> is_min_of [c; b] (if (c <? b)%float then c else b).
Proof.
  intros Hc Hb. destruct (c <? b)%float eqn:E.
  - split; [left|]. repeat constructor; auto using leb_refl, ltb_leb.
  - split; [right; left|].
    repeat constructor; auto using leb_refl, not_ltb_leb.
Qed.

Lemma first_indices_contract : randperm_contract first_indices.
Proof.
  intros N M H. exists (seq 0 M). unfold first_indices.
  rewrite (proj2 (Nat.leb_le M N) H). repeat split.
  - apply NoDup_seq.
  - apply length_seq.
  - apply Forall_forall. intros r Hr. apply elem_of_seq in Hr. lia.
Qed.

Lemma Ok_inj {A} (a b : A) : Ok a = Ok b -> a = b.
Proof. intros H. injection H. auto. Qed.

Lemma Some_inj {A} (a b : A) : Some a = Some b -> a = b.
Proof. intros H. injection H. auto. Qed.

(** *** Loops under the schedule of one thread *)

Lemma oks_map_Ok {A} (l : list A) : oks (map Ok l) = l.
Proof. induction l as [|a l IH]; cbn; [reflexivity|]. f_equal. exact IH. Qed.

Lemma perform_all_app {Mem Act} (perform : Act -> Mem -> outcome Mem)
    a1 a2 m :
  perform_all perform (a1 ++ a2) m
  = let? m' := perform_all perform a1 m in perform_all perform a2 m'.
Proof.
  revert m. induction a1 as [|a a1 IH]; intros m; cbn; [reflexivity|].
  destruct (perform a m) as [m1| |]; cbn; [apply IH|reflexivity..].
Qed.

Section Parallel_for_facts.

Variables Mem Act : Type.
Variable perform : Act -> Mem -> outcome Mem.
Variable body : nat -> list (outcome Act).

Lemma interleave_app s1 s2 :
  forall pcs m,
  interleave perform body (s1 ++ s2) pcs m
  = let? r := interleave perform body s1 pcs m in
    interleave perform body s2 r.1 r.2.
Proof.
  induction s1 as [|i s1 IH]; intros pcs m; [reflexivity|].
  cbn [app interleave].
  destruct (pcs !! i) as [pc|]; [|reflexivity].
  destruct (body i !! pc) as [[a| |]|]; try reflexivity. cbn [obind].
  destruct (perform a m) as [m1| |]; try reflexivity. cbn [obind].
  apply IH.
Qed.

(** The next [n] statements of the iteration [i], run in a row. *)
Lemma interleave_iteration i acts n :
  forall pc pcs m m',
  body i = map Ok acts -> pcs !! i = Some pc ->
  perform_all perform (take n (drop pc acts)) m = Ok m' ->
  (pc + n <= length acts)%nat ->
  interleave perform body (replicate n i) pcs m
  = Ok (<[i := (pc + n)%nat]> pcs, m').
Proof.
  induction n as [|n IH]; intros pc pcs m m' Hb Hpc Hrun Hlen.
  { cbn in *. injection Hrun as <-. rewrite Nat.add_0_r.
    rewrite list_insert_id by exact Hpc. reflexivity. }
  destruct (lookup_lt_is_Some_2 acts pc ltac:(lia)) as [a Ha].
  cbn [replicate interleave]. rewrite Hpc, Hb, list_lookup_fmap, Ha.
  cbn [fmap option_fmap option_map obind].
  rewrite (drop_S _ _ _ Ha) in Hrun. cbn [take perform_all] in Hrun.
  destruct (perform a m) as [m1| |]; try discriminate. cbn [obind] in *.
  rewrite (IH (S pc) (<[i := S pc]> pcs) m1 m' Hb).
  - rewrite list_insert_insert_eq.
    replace (S pc + n)%nat with (pc + S n)%nat by lia. reflexivity.
  - apply list_lookup_insert_eq. apply lookup_lt_is_Some. eauto.
  - exact Hrun.
  - lia.
Qed.

Lemma one_thread_from n count :
  forall i m m',
  (i + count <= n)%nat ->
  (forall j, (i <= j < i + count)%nat -> body j = map Ok (oks (body j))) ->
  run_in_order perform body i count m = Ok m' ->
  interleave perform body
    (flat_map (fun j => replicate (length (body j)) j) (seq i count))
    (map (fun j => length (body j)) (seq 0 i) ++ replicate (n - i) 0%nat) m
  = Ok (map (fun j => length (body j)) (seq 0 (i + count))
          ++ replicate (n - (i + count)) 0%nat, m').
Proof.
  induction count as [|count IH]; intros i m m' Hn Hok Hrun.
  { cbn in *. injection Hrun as <-. rewrite Nat.add_0_r. reflexivity. }
  cbn [seq flat_map run_in_order] in *.
  destruct (perform_all perform (oks (body i)) m) as [m1| |] eqn:E1;
    try discriminate.
  cbn [obind] in Hrun. rewrite interleave_app.
  pose proof (Hok i ltac:(lia)) as Hb.
  assert (length (body i) = length (oks (body i))) as Hl
    by (rewrite Hb at 1; apply length_map).
  set (pcs := map (fun j => length (body j)) (seq 0 i)
              ++ replicate (n - i) 0%nat).
  assert (pcs !! i = Some 0%nat) as Hpc.
  { subst pcs. rewrite lookup_app_r; rewrite length_map, length_seq; [|lia].
    rewrite Nat.sub_diag. apply lookup_replicate_2. lia. }
  rewrite (interleave_iteration i (oks (body i)) (length (body i)) 0 pcs m m1
             Hb Hpc).
  - cbn [obind fst snd Nat.add].
    replace (<[i := length (body i)]> pcs)
      with (map (fun j => length (body j)) (seq 0 (S i))
            ++ replicate (n - S i) 0%nat).
    + rewrite (IH (S i) m1 m'); [|lia| |exact Hrun].
      * replace (S i + count)%nat with (i + S count)%nat by lia.
        reflexivity.
      * intros j Hj. apply Hok. lia.
    + subst pcs. rewrite seq_S, map_app, <- app_assoc. cbn [map app Nat.add].
      replace (n - i)%nat with (S (n - S i)) by lia. cbn [replicate].
      rewrite insert_app_r_alt; rewrite length_map, length_seq; [|lia].
      rewrite Nat.sub_diag. reflexivity.
  - cbn [drop]. rewrite Hl, firstn_all. exact E1.
  - lia.
Qed.

(** A team of one thread runs the iterations in order, each to its
    end. *)
Lemma one_thread_in_order n m m' :
  (forall j, (j < n)%nat -> body j = map Ok (oks (body j))) ->
  run_in_order perform body 0 n m = Ok m' ->
  parallel_for perform body n (one_thread body n) m = Ok m'.
Proof.
  intros Hok Hrun. unfold parallel_for, one_thread.
  pose proof (one_thread_from n n 0 m m' ltac:(lia)
                (fun j Hj => Hok j (proj2 Hj)) Hrun) as H.
  cbn [seq map app Nat.add] in H. rewrite Nat.sub_0_r, Nat.sub_diag in H.
  rewrite H. cbn [obind fst snd replicate]. rewrite app_nil_r.
  rewrite decide_True by reflexivity. reflexivity.
Qed.

End Parallel_for_facts.

Section Build_facts.

Variable pow : double -> double -> double.
Variable arma_stddev : list double -> nat -> double.
Variable self : KMedoids.
Variable data : mat.
Variable best_distances : rowvec.
Variable use_absolute : bool.

(** The statements of the slots of [suf], run in a row. *)
Lemma build_statements_run i suf :
  forall xs pre sample (sigma : rowvec),
  Forall2 (build_slot pow self data best_distances use_absolute i) suf xs ->
  length sample = length (pre ++ suf) ->
  exists acts,
    flat_map (build_statements pow self data best_distances use_absolute
                (pre ++ suf) i) (seq (length pre) (length suf))
    = map Ok acts /\
    perform_all (perform arma_stddev put_candidate) acts (sample, sigma)
    = Ok (take (length pre) sample ++ xs, sigma).
Proof.
  induction suf as [|r suf IH]; intros xs pre sample sigma HF Hlen.
  { inversion HF; subst. exists []. split; [reflexivity|]. cbn.
    rewrite app_nil_r in *. rewrite take_ge by lia. reflexivity. }
  inversion HF as [|? x ? xs' (c & Hc & Hx) HF']; subst.
  rewrite length_app in Hlen. cbn [length] in Hlen.
  assert (pre ++ r :: suf = (pre ++ [r]) ++ suf) as Happ
    by (rewrite <- app_assoc; reflexivity).
  assert (length (pre ++ [r]) = S (length pre)) as Hpre
    by (rewrite length_app; cbn; lia).
  destruct (IH xs' (pre ++ [r]) (<[length pre := x]> sample) sigma HF')
    as (acts & Hacts & Hrun).
  { rewrite length_insert, !length_app. cbn. lia. }
  rewrite <- Happ, Hpre in Hacts.
  assert (take (length (pre ++ [r])) (<[length pre := x]> sample) ++ xs'
          = take (length pre) sample ++ x :: xs') as Hfill.
  { rewrite Hpre.
    rewrite (take_S_r _ _ x) by (apply list_lookup_insert_eq; lia).
    rewrite take_insert_ge by lia. rewrite <- app_assoc. reflexivity. }
  rewrite Hfill in Hrun. clear Hfill.
  assert (uelem (pre ++ r :: suf) (length pre) = Ok r) as Hr.
  { unfold uelem. rewrite (list_lookup_middle pre suf r _ eq_refl).
    reflexivity. }
  cbn [length seq flat_map]. unfold build_statements at 1.
  rewrite Hr. cbn [obind]. rewrite Hc. cbn [obind].
  destruct use_absolute.
  - subst x. exists (Assign (length pre) c :: acts).
    split; [cbn; rewrite Hacts; reflexivity|].
    cbn [perform_all perform fst snd]. unfold set_elem.
    rewrite decide_True by lia. cbn [obind]. exact Hrun.
  - destruct Hx as (b & Hb & ->). unfold elem. rewrite Hb. cbn [obind].
    eexists (Assign (length pre) _ :: Subtract (length pre) b :: acts).
    split; [cbn; rewrite Hacts; reflexivity|].
    cbn [perform_all perform fst snd]. unfold set_elem, elem.
    rewrite decide_True by lia. cbn [obind fst snd].
    rewrite list_lookup_insert_eq by lia. cbn [obind].
    rewrite length_insert, decide_True by lia. cbn [obind].
    rewrite list_insert_insert_eq. exact Hrun.
Qed.

(** One iteration run to its end: it leaves its own sample and the
    stddev of it. *)
Lemma build_iteration_run tmp_refs i xs sample (sigma : rowvec) :
  Forall2 (build_slot pow self data best_distances use_absolute i)
    tmp_refs xs ->
  length sample = length tmp_refs -> (i < length sigma)%nat ->
  let body :=
    build_body pow self data best_distances use_absolute tmp_refs
      (length tmp_refs) i in
  body = map Ok (oks body) /\
  perform_all (perform arma_stddev put_candidate) (oks body) (sample, sigma)
  = Ok (xs, <[i := arma_stddev xs 0]> sigma).
Proof.
  intros HF Hlen Hi body. subst body. unfold build_body.
  destruct (build_statements_run i tmp_refs xs [] sample sigma HF Hlen)
    as (acts & Hacts & Hrun).
  cbn [app length take] in Hacts, Hrun. rewrite Hacts.
  change [Ok (Stddev i)] with (map (@Ok (action nat)) [Stddev i]).
  rewrite <- map_app, oks_map_Ok. split; [reflexivity|].
  rewrite perform_all_app, Hrun. cbn [obind perform_all perform fst snd].
  unfold put_candidate, set_elem. rewrite decide_True by lia. reflexivity.
Qed.

Lemma build_in_order tmp_refs count :
  forall i sample (sigma : rowvec),
  length sample = length tmp_refs ->
  (i + count <= length sigma)%nat ->
  (forall j, (i <= j < i + count)%nat ->
     exists xs,
       Forall2 (build_slot pow self data best_distances use_absolute j)
         tmp_refs xs) ->
  exists sample' sigma',
    run_in_order (perform arma_stddev put_candidate)
      (build_body pow self data best_distances use_absolute tmp_refs
         (length tmp_refs)) i count (sample, sigma)
    = Ok (sample', sigma') /\
    length sigma' = length sigma /\
    (forall j, (j < i)%nat -> sigma' !! j = sigma !! j) /\
    (forall j, (i <= j < i + count)%nat ->
       exists xs,
         Forall2 (build_slot pow self data best_distances use_absolute j)
           tmp_refs xs /\
         sigma' !! j = Some (arma_stddev xs 0)).
Proof.
  induction count as [|count IH]; intros i sample sigma Hs Hlen Hslots.
  { exists sample, sigma. cbn. repeat split; auto. intros j Hj. lia. }
  destruct (Hslots i ltac:(lia)) as [xs Hxs].
  destruct (build_iteration_run tmp_refs i xs sample sigma Hxs Hs
              ltac:(lia)) as [_ Hrun].
  cbn [run_in_order]. rewrite Hrun. cbn [obind].
  destruct (IH (S i) xs (<[i := arma_stddev xs 0]> sigma))
    as (sample' & sigma' & Hrun' & Hl' & Hlow & Hhigh).
  - symmetry. exact (Forall2_length _ _ _ Hxs).
  - rewrite length_insert. lia.
  - intros j Hj. apply Hslots. lia.
  - exists sample', sigma'. split; [exact Hrun'|].
    rewrite length_insert in Hl'. split; [exact Hl'|]. split.
    + intros j Hj. rewrite (Hlow j ltac:(lia)).
      apply list_lookup_insert_ne. lia.
    + intros j Hj. destruct (decide (j = i)) as [->|Hji].
      * exists xs. split; [exact Hxs|]. rewrite (Hlow i ltac:(lia)).
        apply list_lookup_insert_eq. lia.
      * apply Hhigh. lia.
Qed.

(** The loop of [build_sigma] run by one thread. *)
Lemma build_loop_one_thread tmp_refs N :
  (forall j, (j < N)%nat ->
     exists xs,
       Forall2 (build_slot pow self data best_distances use_absolute j)
         tmp_refs xs) ->
  let body :=
    build_body pow self data best_distances use_absolute tmp_refs
      (length tmp_refs) in
  exists sample' sigma',
    parallel_for (perform arma_stddev put_candidate) body N (one_thread body N)
      (replicate (length tmp_refs) 0%float, replicate N 0%float)
    = Ok (sample', sigma') /\
    length sigma' = N /\
    (forall j, (j < N)%nat ->
       exists xs,
         Forall2 (build_slot pow self data best_distances use_absolute j)
           tmp_refs xs /\
         sigma' !! j = Some (arma_stddev xs 0)).
Proof.
  intros Hslots body.
  destruct (build_in_order tmp_refs N 0
              (replicate (length tmp_refs) 0%float) (replicate N 0%float))
    as (sample' & sigma' & Hrun & Hl & _ & Hres).
  - apply length_replicate.
  - rewrite length_replicate. lia.
  - intros j Hj. apply Hslots. lia.
  - exists sample', sigma'. split; [|split].
    + apply one_thread_in_order; [|exact Hrun].
      intros j Hj. destruct (Hslots j Hj) as [xs Hxs].
      apply (build_iteration_run tmp_refs j xs
               (replicate (length tmp_refs) 0%float) (replicate N 0%float)
               Hxs).
      * apply length_replicate.
      * rewrite length_replicate. exact Hj.
    + rewrite Hl. apply length_replicate.
    + intros j Hj. apply Hres. lia.
Qed.

End Build_facts.

Section Build_spec.

Variable pow : double -> double -> double.
Variable self : KMedoids.
Variable data : mat.
Variable best_distances : rowvec.
Variable use_absolute : bool.

Hypothesis costs_defined :
  forall i r, (i < n_cols data)%nat -> (r < n_cols data)%nat ->
    exists c, call_lossFn pow self data i r = Ok c /\ num c.
Hypothesis best_defined :
  use_absolute = false ->
  (n_cols data <= length best_distances)%nat /\ Forall num best_distances.

Lemma build_slots_exist i R :
  (i < n_cols data)%nat -> Forall (fun r => (r < n_cols data)%nat) R ->
  exists xs,
    Forall2 (build_slot pow self data best_distances use_absolute i) R xs.
Proof.
  intros Hi HR. induction HR as [|r R Hr _ [xs IH]].
  { exists []. constructor. }
  destruct (costs_defined i r Hi Hr) as (c & Hc & _).
  destruct use_absolute eqn:E.
  - exists (c :: xs). constructor; [|exact IH]. exists c. split; [exact Hc|].
    reflexivity.
  - destruct (best_defined eq_refl) as [Hlen _].
    destruct (lookup_lt_is_Some_2 best_distances r ltac:(lia)) as [b Hb].
    eexists (_ :: xs). constructor; [|exact IH].
    exists c. split; [exact Hc|]. exists b. split; [exact Hb|reflexivity].
Qed.

Lemma build_slot_delta i R xs :
  (i < n_cols data)%nat -> Forall (fun r => (r < n_cols data)%nat) R ->
  Forall2 (build_slot pow self data best_distances use_absolute i) R xs ->
  Forall2 (build_delta pow self data best_distances use_absolute i) R xs.
Proof.
  intros Hi HR HF. induction HF as [|r x R xs (c & Hc & Hx) _ IH].
  { constructor. }
  inversion HR as [|? ? Hr HR']; subst. constructor; [|exact (IH HR')].
  exists c. split; [exact Hc|]. destruct use_absolute eqn:E; [exact Hx|].
  destruct Hx as (b & Hb & ->). exists b. eexists. split; [exact Hb|].
  split; [|reflexivity].
  destruct (costs_defined i r Hi Hr) as (c' & Hc' & Hnum).
  rewrite Hc in Hc'. injection Hc' as <-.
  destruct (best_defined eq_refl) as [_ Hall].
  rewrite Forall_lookup in Hall. apply min_pair_code; eauto.
Qed.

End Build_spec.

Lemma example_costs_defined i r :
  (i < n_cols example_data)%nat -> (r < n_cols example_data)%nat ->
  exists c, call_lossFn pow_unused example_l2 example_data i r = Ok c /\
            num c.
Proof.
  intros Hi Hr. cbn in Hi, Hr.
  destruct i as [|[|[|[|i]]]]; try lia;
    destruct r as [|[|[|[|r]]]]; try lia;
    (eexists; split; vm_compute; reflexivity).
Qed.

(** Run by one thread, [build_sigma] does what C6 says: when the draw
    has [batch_size <= N] distinct indices, there is at least one point,
    every cost is a number and, unless [use_absolute], the best distances
    are [N] numbers, it returns one sigma per candidate; with [R] the one
    draw of the call, the sigma of the candidate [i] is [arma::stddev]
    (default [norm_type] 0, the [N-1] normalisation) of the sample that
    holds, for each [r] of [R] in turn, [min(d(D,i,r), b(r)) - b(r)], or
    the raw [d(D,i,r)], with no subtraction, when [use_absolute] is
    set. *)
Lemma build_sigma_one_thread
    (pow : double -> double -> double)
    (arma_stddev : list double -> nat -> double)
    (randperm : nat -> nat -> outcome (list nat))
    (sigma_summary : rowvec -> outcome string)
    (self : KMedoids) (data : mat) (best_distances : rowvec)
    (batch_size : nat) (use_absolute : bool) :
  randperm_contract randperm ->
  (batch_size <= n_cols data)%nat -> data <> [] ->
  (forall v, v <> [] -> is_ok (sigma_summary v)) ->
  (forall i r, (i < n_cols data)%nat -> (r < n_cols data)%nat ->
     exists c, call_lossFn pow self data i r = Ok c /\ num c) ->
  (use_absolute = false ->
     (n_cols data <= length best_distances)%nat /\
     Forall num best_distances) ->
  exists (R : list nat) (sigma : rowvec) (self' : KMedoids),
    randperm (n_cols data) batch_size = Ok R /\
    NoDup R /\ length R = batch_size /\
    Forall (fun r => (r < n_cols data)%nat) R /\
    build_sigma pow arma_stddev randperm sigma_summary self data
      (one_thread
         (build_body pow self data best_distances use_absolute R batch_size)
         (n_cols data))
      best_distances batch_size use_absolute = Ok (sigma, self') /\
    length sigma = n_cols data /\
    forall i, (i < n_cols data)%nat ->
      exists sample,
        Forall2 (build_delta pow self data best_distances use_absolute i)
          R sample /\
        sigma !! i = Some (arma_stddev sample 0).
Proof.
  intros Hperm Hbatch Hne Hsum Hcost Hbest.
  destruct (Hperm (n_cols data) batch_size Hbatch)
    as (R & HR & Hnd & HlR & Hlt).
  destruct (build_loop_one_thread pow arma_stddev self data best_distances
              use_absolute R (n_cols data))
    as (sample' & sigma & Hrun & Hlen & Hres).
  { intros j Hj. apply build_slots_exist; auto. }
  rewrite HlR in Hrun.
  destruct (Hsum sigma) as [line Hline].
  { intros ->. destruct data; [congruence|discriminate]. }
  exists R, sigma. eexists. split; [exact HR|].
  split; [exact Hnd|]. split; [exact HlR|]. split; [exact Hlt|].
  split; [|split].
  - unfold build_sigma. rewrite HR. cbn [obind]. rewrite Hrun.
    cbn [obind snd]. rewrite Hline. reflexivity.
  - exact Hlen.
  - intros i Hi. destruct (Hres i Hi) as (xs & Hxs & Hs).
    exists xs. split; [|exact Hs].
    apply build_slot_delta; auto.
Qed.

(** C6 fails on the code as soon as two threads run the loop: [sample]
    is declared before the [#pragma omp parallel for] (line 332) and
    shared by the threads.  On the four example points, with the draw
    [0, 1, 2] and the best distances [0, 5, 5, 0], a schedule of two
    threads lets the candidate 2 fill the slots after the candidate 0
    has filled them and before it takes the stddev: the sigma of the
    candidate 0 is then the stddev of the sample of the candidate 2, and
    of no sample that holds [min(d(D,0,r), b(r)) - b(r)] for each drawn
    [r]. *)
Theorem build_sigma_shared_sample_race :
  exists (sigma : rowvec) (self' : KMedoids),
    first_indices (n_cols example_data) 3 = Ok [0; 1; 2]%nat /\
    build_sigma pow_unused textbook_stddev first_indices plain_summary
      example_l2 example_data example_race_build [0; 5; 5; 0]%float 3 false
    = Ok (sigma, self') /\
    sigma !! 0%nat = Some (textbook_stddev [0; 0; -5]%float 0) /\
    ~ exists sample,
        Forall2 (build_delta pow_unused example_l2 example_data
                   [0; 5; 5; 0]%float false 0) [0; 1; 2]%nat sample /\
        sigma !! 0%nat = Some (textbook_stddev sample 0).
Proof.
  eexists. eexists. split; [reflexivity|].
  split; [vm_compute; reflexivity|]. split; [vm_compute; reflexivity|].
  intros (sample & HF & Hs).
  inversion HF as [|r0 x0 R0 s0 H0 HF0]; subst.
  inversion HF0 as [|r1 x1 R1 s1 H1 HF1]; subst.
  inversion HF1 as [|r2 x2 R2 s2 H2 HF2]; subst.
  inversion HF2; subst.
  destruct H0 as (c0 & Hc0 & b0 & m0 & Hb0 & [Hin0 _] & ->).
  destruct H1 as (c1 & Hc1 & b1 & m1 & Hb1 & [Hin1 _] & ->).
  destruct H2 as (c2 & Hc2 & b2 & m2 & Hb2 & [Hin2 _] & ->).
  vm_compute in Hc0, Hc1, Hc2, Hb0, Hb1, Hb2.
  apply Ok_inj in Hc0, Hc1, Hc2. apply Some_inj in Hb0, Hb1, Hb2.
  subst c0 c1 c2 b0 b1 b2.
  assert (forall m : float, m ∈ [5; 5]%float -> m = 5%float) as H5.
  { intros m Hm. rewrite !elem_of_cons in Hm.
    destruct Hm as [->|[->|Hm]]; [reflexivity..|inversion Hm]. }
  assert (m0 = 0%float) as ->.
  { rewrite !elem_of_cons in Hin0.
    destruct Hin0 as [->|[->|Hm]]; [reflexivity..|inversion Hm]. }
  rewrite (H5 m1 Hin1), (H5 m2 Hin2) in Hs.
  vm_compute in Hs. apply Some_inj in Hs.
  apply (f_equal Prim2SF) in Hs. vm_compute in Hs. discriminate.
Qed.

(** ** C5: the sigma of SWAP *)

Lemma mat_at_set_at us K N k n v :
  mat_shape us K N -> (k < K)%nat -> (n < N)%nat ->
  exists us',
    set_at us k n v = Ok us' /\ mat_shape us' K N /\
    mat_at us' k n = Some v /\
    forall k' n', (k' <> k \/ n' <> n) -> mat_at us' k' n' = mat_at us k' n'.
Proof.
  intros [Hlen Hcols] Hk Hn.
  destruct (lookup_lt_is_Some_2 us n ltac:(lia)) as [c Hc].
  assert (length c = K) as HcK by (rewrite Forall_lookup in Hcols; eauto).
  exists (<[n := <[k := v]> c]> us). unfold set_at. rewrite Hc.
  rewrite decide_True by lia. split; [reflexivity|]. split; [|split].
  - split; [rewrite length_insert; exact Hlen|].
    apply Forall_insert; [exact Hcols|]. rewrite length_insert. exact HcK.
  - unfold mat_at. rewrite list_lookup_insert_eq by lia.
    apply list_lookup_insert_eq. lia.
  - intros k' n' Hne. unfold mat_at.
    destruct (decide (n' = n)) as [->|Hn'].
    + rewrite list_lookup_insert_eq by lia. rewrite Hc.
      apply list_lookup_insert_ne. destruct Hne; congruence.
    + rewrite list_lookup_insert_ne by congruence. reflexivity.
Qed.

Lemma arm_index_unique K k n k' n' :
  (k < K)%nat -> (k' < K)%nat -> (n * K + k = n' * K + k')%nat ->
  k = k' /\ n = n'.
Proof.
  intros Hk Hk' H.
  pose proof (Nat.div_unique (n * K + k) K n k Hk ltac:(lia)) as E1.
  pose proof (Nat.div_unique (n * K + k) K n' k' Hk' ltac:(lia)) as E2.
  assert (n = n') as -> by congruence. split; [lia|reflexivity].
Qed.

Lemma arm_index_split K i :
  (0 < K)%nat ->
  (i = (i / K) * K + i mod K)%nat /\ (i mod K < K)%nat.
Proof.
  intros HK. split; [|apply Nat.mod_upper_bound; lia].
  rewrite (Nat.mul_comm (i / K) K). apply Nat.div_mod_eq.
Qed.

Section Swap_facts.

Variable pow : double -> double -> double.
Variable arma_stddev : list double -> nat -> double.
Variable self : KMedoids.
Variable data : mat.
Variables best_distances second_best_distances assignments : rowvec.

(** The statements of the slots of [suf], run in a row. *)
Lemma swap_statements_run k n suf :
  forall xs pre sample (sigma : mat),
  Forall2 (swap_slot pow self data best_distances second_best_distances
             assignments k n) suf xs ->
  length sample = length (pre ++ suf) ->
  exists acts,
    flat_map (swap_statements pow self data best_distances
                second_best_distances assignments (pre ++ suf) k n)
      (seq (length pre) (length suf))
    = map Ok acts /\
    perform_all (perform arma_stddev put_arm) acts (sample, sigma)
    = Ok (take (length pre) sample ++ xs, sigma).
Proof.
  induction suf as [|r suf IH]; intros xs pre sample sigma HF Hlen.
  { inversion HF; subst. exists []. split; [reflexivity|]. cbn.
    rewrite app_nil_r in *. rewrite take_ge by lia. reflexivity. }
  inversion HF as [|? x ? xs' (c & a & b & Hc & Ha & Hb & Hx) HF']; subst.
  rewrite length_app in Hlen. cbn [length] in Hlen.
  assert (pre ++ r :: suf = (pre ++ [r]) ++ suf) as Happ
    by (rewrite <- app_assoc; reflexivity).
  assert (length (pre ++ [r]) = S (length pre)) as Hpre
    by (rewrite length_app; cbn; lia).
  destruct (IH xs' (pre ++ [r]) (<[length pre := x]> sample) sigma HF')
    as (acts & Hacts & Hrun).
  { rewrite length_insert, !length_app. cbn. lia. }
  rewrite <- Happ, Hpre in Hacts.
  assert (take (length (pre ++ [r])) (<[length pre := x]> sample) ++ xs'
          = take (length pre) sample ++ x :: xs') as Hfill.
  { rewrite Hpre.
    rewrite (take_S_r _ _ x) by (apply list_lookup_insert_eq; lia).
    rewrite take_insert_ge by lia. rewrite <- app_assoc. reflexivity. }
  rewrite Hfill in Hrun. clear Hfill.
  assert (uelem (pre ++ r :: suf) (length pre) = Ok r) as Hr.
  { unfold uelem. rewrite (list_lookup_middle pre suf r _ eq_refl).
    reflexivity. }
  cbn [length seq flat_map]. unfold swap_statements at 1.
  rewrite Hr. cbn [obind]. rewrite Hc. cbn [obind].
  unfold elem. rewrite Ha, Hb. cbn [obind].
  destruct (of_size k =? a)%float.
  - destruct Hx as (s & Hs & ->). rewrite Hs. cbn [obind].
    eexists (Assign (length pre) _ :: Subtract (length pre) b :: acts).
    split; [cbn; rewrite Hacts; reflexivity|].
    cbn [perform_all perform fst snd]. unfold set_elem, elem.
    rewrite decide_True by lia. cbn [obind fst snd].
    rewrite list_lookup_insert_eq by lia. cbn [obind].
    rewrite length_insert, decide_True by lia. cbn [obind].
    rewrite list_insert_insert_eq. exact Hrun.
  - subst x.
    eexists (Assign (length pre) _ :: Subtract (length pre) b :: acts).
    split; [cbn; rewrite Hacts; reflexivity|].
    cbn [perform_all perform fst snd]. unfold set_elem, elem.
    rewrite decide_True by lia. cbn [obind fst snd].
    rewrite list_lookup_insert_eq by lia. cbn [obind].
    rewrite length_insert, decide_True by lia. cbn [obind].
    rewrite list_insert_insert_eq. exact Hrun.
Qed.

(** One arm run to its end: it leaves its own sample and the stddev of
    it. *)
Lemma swap_iteration_run tmp_refs K N i xs sample (sigma : mat) :
  Forall2 (swap_slot pow self data best_distances second_best_distances
             assignments (i mod K) (i / K)) tmp_refs xs ->
  length sample = length tmp_refs ->
  mat_shape sigma K N -> (i mod K < K)%nat -> (i / K < N)%nat ->
  let body :=
    swap_body pow self data best_distances second_best_distances
      assignments tmp_refs (length tmp_refs) K i in
  body = map Ok (oks body) /\
  exists sigma',
    perform_all (perform arma_stddev put_arm) (oks body) (sample, sigma)
    = Ok (xs, sigma') /\
    mat_shape sigma' K N /\
    mat_at sigma' (i mod K) (i / K) = Some (arma_stddev xs 0) /\
    forall k' n', (k' <> i mod K \/ n' <> i / K) ->
      mat_at sigma' k' n' = mat_at sigma k' n'.
Proof.
  intros HF Hlen Hshape Hmod Hdiv body. subst body. unfold swap_body.
  cbv zeta.
  destruct (swap_statements_run (i mod K) (i / K) tmp_refs xs [] sample
              sigma HF Hlen) as (acts & Hacts & Hrun).
  cbn [app length take] in Hacts, Hrun. rewrite Hacts.
  change [Ok (Stddev (i mod K, i / K))]
    with (map (@Ok (action (nat * nat))) [Stddev (i mod K, i / K)]).
  rewrite <- map_app, oks_map_Ok. split; [reflexivity|].
  destruct (mat_at_set_at sigma K N (i mod K) (i / K) (arma_stddev xs 0)
              Hshape Hmod Hdiv) as (sigma' & Hset & Hshape' & Hat & Hother).
  exists sigma'. split; [|auto].
  rewrite perform_all_app, Hrun. cbn [obind perform_all perform fst snd].
  unfold put_arm. cbn [fst snd]. change (take 0 sample ++ xs) with xs.
  rewrite Hset. reflexivity.
Qed.

Lemma swap_in_order tmp_refs K N count :
  forall i sample (us : mat),
  length sample = length tmp_refs ->
  mat_shape us K N -> (i + count <= K * N)%nat ->
  (forall k n, (k < K)%nat -> (n < N)%nat ->
     exists xs,
       Forall2 (swap_slot pow self data best_distances
                  second_best_distances assignments k n) tmp_refs xs) ->
  exists sample' sigma,
    run_in_order (perform arma_stddev put_arm)
      (swap_body pow self data best_distances second_best_distances
         assignments tmp_refs (length tmp_refs) K) i count (sample, us)
    = Ok (sample', sigma) /\
    mat_shape sigma K N /\
    (forall k n, (k < K)%nat ->
       (n * K + k < i \/ i + count <= n * K + k)%nat ->
       mat_at sigma k n = mat_at us k n) /\
    (forall k n, (k < K)%nat -> (i <= n * K + k < i + count)%nat ->
       exists xs,
         Forall2 (swap_slot pow self data best_distances
                    second_best_distances assignments k n) tmp_refs xs /\
         mat_at sigma k n = Some (arma_stddev xs 0)).
Proof.
  induction count as [|count IH]; intros i sample us Hs Hshape Hle Hslots.
  { exists sample, us. cbn. repeat split; try apply Hshape; auto.
    intros k n Hk Hi. lia. }
  assert (0 < K)%nat as HK by nia.
  destruct (arm_index_split K i HK) as [Hi Hmod].
  assert (i / K < N)%nat as Hdiv by nia.
  destruct (Hslots (i mod K) (i / K) Hmod Hdiv) as [xs Hxs].
  destruct (swap_iteration_run tmp_refs K N i xs sample us Hxs Hs Hshape
              Hmod Hdiv) as (_ & us1 & Hrun & Hshape1 & Hat & Hother).
  cbn [run_in_order]. rewrite Hrun. cbn [obind].
  destruct (IH (S i) xs us1) as (sample' & sigma & Hrun' & Hsh & Hout & Hin).
  - symmetry. exact (Forall2_length _ _ _ Hxs).
  - exact Hshape1.
  - lia.
  - exact Hslots.
  - exists sample', sigma. split; [exact Hrun'|]. split; [exact Hsh|]. split.
    + intros k n Hk Hrange. rewrite (Hout k n Hk ltac:(lia)).
      apply Hother.
      destruct (decide (k = i mod K)) as [->|]; [right|left; assumption].
      intros ->. lia.
    + intros k n Hk Hrange.
      destruct (decide (n * K + k = i)) as [Heq|Hneq].
      * destruct (arm_index_unique K k n (i mod K) (i / K) Hk Hmod
          ltac:(lia)) as [-> ->].
        exists xs. split; [exact Hxs|].
        rewrite (Hout (i mod K) (i / K) Hmod ltac:(lia)). exact Hat.
      * apply Hin; [exact Hk|lia].
Qed.

(** The loop of [swap_sigma] run by one thread. *)
Lemma swap_loop_one_thread tmp_refs K N :
  (forall k n, (k < K)%nat -> (n < N)%nat ->
     exists xs,
       Forall2 (swap_slot pow self data best_distances
                  second_best_distances assignments k n) tmp_refs xs) ->
  let body :=
    swap_body pow self data best_distances second_best_distances
      assignments tmp_refs (length tmp_refs) K in
  exists sample' sigma,
    parallel_for (perform arma_stddev put_arm) body (K * N)
      (one_thread body (K * N))
      (replicate (length tmp_refs) 0%float,
       replicate N (replicate K 0%float))
    = Ok (sample', sigma) /\
    mat_shape sigma K N /\
    (forall k n, (k < K)%nat -> (n < N)%nat ->
       exists xs,
         Forall2 (swap_slot pow self data best_distances
                    second_best_distances assignments k n) tmp_refs xs /\
         mat_at sigma k n = Some (arma_stddev xs 0)).
Proof.
  intros Hslots body.
  assert (mat_shape (replicate N (replicate K 0%float)) K N) as Hshape.
  { split; [apply length_replicate|].
    apply Forall_replicate, length_replicate. }
  destruct (swap_in_order tmp_refs K N (K * N) 0
              (replicate (length tmp_refs) 0%float)
              (replicate N (replicate K 0%float)))
    as (sample' & sigma & Hrun & Hsh & _ & Hres).
  - apply length_replicate.
  - exact Hshape.
  - lia.
  - exact Hslots.
  - exists sample', sigma. split; [|split].
    + apply one_thread_in_order; [|exact Hrun].
      intros j Hj.
      assert (0 < K)%nat as HK by nia.
      destruct (arm_index_split K j HK) as [Hi Hmod].
      assert (j / K < N)%nat as Hdiv by nia.
      destruct (Hslots (j mod K) (j / K) Hmod Hdiv) as [xs Hxs].
      apply (swap_iteration_run tmp_refs K N j xs
               (replicate (length tmp_refs) 0%float)
               (replicate N (replicate K 0%float)) Hxs); auto.
      apply length_replicate.
    + exact Hsh.
    + intros k n Hk Hn. apply Hres; [exact Hk|nia].
Qed.

End Swap_facts.

Section Swap_spec.

Variable pow : double -> double -> double.
Variable self : KMedoids.
Variable data : mat.
Variables best_distances second_best_distances assignments : rowvec.

Hypothesis costs_defined :
  forall n r, (n < n_cols data)%nat -> (r < n_cols data)%nat ->
    exists c, call_lossFn pow self data n r = Ok c /\ num c.
Hypothesis best_defined :
  (n_cols data <= length best_distances)%nat /\ Forall num best_distances.
Hypothesis second_defined :
  (n_cols data <= length second_best_distances)%nat /\
  Forall num second_best_distances.
Hypothesis assignments_defined : (n_cols data <= length assignments)%nat.

Lemma swap_slots_exist k n R :
  (n < n_cols data)%nat -> Forall (fun r => (r < n_cols data)%nat) R ->
  exists xs,
    Forall2 (swap_slot pow self data best_distances second_best_distances
               assignments k n) R xs.
Proof.
  intros Hn HR. induction HR as [|r R Hr _ [xs IH]].
  { exists []. constructor. }
  destruct (costs_defined n r Hn Hr) as (c & Hc & _).
  destruct best_defined as [Hlb _], second_defined as [Hls _].
  destruct (lookup_lt_is_Some_2 best_distances r ltac:(lia)) as [b Hb].
  destruct (lookup_lt_is_Some_2 second_best_distances r ltac:(lia))
    as [s Hs].
  destruct (lookup_lt_is_Some_2 assignments r ltac:(lia)) as [a Ha].
  destruct (of_size k =? a)%float eqn:E.
  - eexists (_ :: xs). constructor; [|exact IH].
    exists c, a, b. split; [exact Hc|]. split; [exact Ha|].
    split; [exact Hb|]. rewrite E. exists s. split; [exact Hs|reflexivity].
  - eexists (_ :: xs). constructor; [|exact IH].
    exists c, a, b. split; [exact Hc|]. split; [exact Ha|].
    split; [exact Hb|]. rewrite E. reflexivity.
Qed.

Lemma swap_slot_delta k n R xs :
  (n < n_cols data)%nat -> Forall (fun r => (r < n_cols data)%nat) R ->
  Forall2 (swap_slot pow self data best_distances second_best_distances
             assignments k n) R xs ->
  Forall2 (swap_delta pow self data best_distances second_best_distances
             assignments k n) R xs.
Proof.
  intros Hn HR HF.
  induction HF as [|r x R xs (c & a & b & Hc & Ha & Hb & Hx) _ IH].
  { constructor. }
  inversion HR as [|? ? Hr HR']; subst. constructor; [|exact (IH HR')].
  destruct (costs_defined n r Hn Hr) as (c' & Hc' & Hnum).
  rewrite Hc in Hc'. injection Hc' as <-.
  destruct best_defined as [_ Hab], second_defined as [_ Has].
  rewrite Forall_lookup in Hab. rewrite Forall_lookup in Has.
  destruct (of_size k =? a)%float eqn:E.
  - destruct Hx as (s & Hs & ->). exists c, a, b. eexists.
    split; [exact Hc|]. split; [exact Ha|]. split; [exact Hb|]. rewrite E.
    split; [|reflexivity]. exists s. split; [exact Hs|].
    apply min_pair_code; eauto.
  - subst x. exists c, a, b. eexists. split; [exact Hc|].
    split; [exact Ha|]. split; [exact Hb|]. rewrite E.
    split; [|reflexivity]. apply min_pair_code; eauto.
Qed.

End Swap_spec.

(** Run by one thread, [swap_sigma] does what C5 says: when the draw has
    [batch_size <= N] distinct indices, every cost is a number, and the
    best distances, the second distances and the assignments have [N]
    entries, numbers for the distances, it returns a value for every arm
    [(k, n)] with [k < K] and [n < N]; with [R] the one draw of the call,
    the value is [arma::stddev] (default [norm_type] 0) of the sample
    that holds, for each [r] of [R] in turn, [reward - best(r)], where
    the reward is [min(d(D,n,r), second(r))] when the assignment of [r]
    equals [k] and [min(d(D,n,r), best(r))] otherwise. *)
Lemma swap_sigma_one_thread
    (pow : double -> double -> double)
    (arma_stddev : list double -> nat -> double)
    (randperm : nat -> nat -> outcome (list nat))
    (self : KMedoids) (data : mat) (batch_size : nat)
    (best_distances second_best_distances assignments : rowvec) :
  randperm_contract randperm ->
  (batch_size <= n_cols data)%nat ->
  (forall n r, (n < n_cols data)%nat -> (r < n_cols data)%nat ->
     exists c, call_lossFn pow self data n r = Ok c /\ num c) ->
  (n_cols data <= length best_distances)%nat /\
    Forall num best_distances ->
  (n_cols data <= length second_best_distances)%nat /\
    Forall num second_best_distances ->
  (n_cols data <= length assignments)%nat ->
  exists (R : list nat) (sigma : mat),
    randperm (n_cols data) batch_size = Ok R /\
    NoDup R /\ length R = batch_size /\
    Forall (fun r => (r < n_cols data)%nat) R /\
    swap_sigma pow arma_stddev randperm self data
      (one_thread
         (swap_body pow self data best_distances second_best_distances
            assignments R batch_size (n_medoids self))
         (n_medoids self * n_cols data))
      batch_size best_distances second_best_distances assignments
    = Ok sigma /\
    forall k n, (k < n_medoids self)%nat -> (n < n_cols data)%nat ->
      exists sample,
        Forall2 (swap_delta pow self data best_distances
                   second_best_distances assignments k n) R sample /\
        mat_at sigma k n = Some (arma_stddev sample 0).
Proof.
  intros Hperm Hbatch Hcost Hbest Hsecond Hassign.
  destruct (Hperm (n_cols data) batch_size Hbatch)
    as (R & HR & Hnd & HlR & Hlt).
  destruct (swap_loop_one_thread pow arma_stddev self data best_distances
              second_best_distances assignments R (n_medoids self)
              (n_cols data))
    as (sample' & sigma & Hrun & _ & Hres).
  { intros k n Hk Hn. apply swap_slots_exist; auto. }
  rewrite HlR in Hrun.
  exists R, sigma. split; [exact HR|].
  split; [exact Hnd|]. split; [exact HlR|]. split; [exact Hlt|]. split.
  - unfold swap_sigma. rewrite HR. cbn [obind]. rewrite Hrun. reflexivity.
  - intros k n Hk Hn. destruct (Hres k n Hk Hn) as (xs & Hxs & Hs).
    exists xs. split; [|exact Hs]. apply swap_slot_delta; auto.
Qed.

(** C5 fails on the code as soon as two threads run the loop: [sample]
    is declared before the [#pragma omp parallel for] (line 431) and
    shared by the threads.  On the four example points with two medoids,
    the draw [0, 1, 2], the best distances [0, 5, 5, 0], the second
    distances [10, 5, 15, 10] and the assignments [0, 0, 0, 1], a
    schedule of two threads lets the arm [(0, 2)] fill the slots after
    the arm [(0, 0)] has filled them and before it takes the stddev: the
    entry [(0, 0)] is then the stddev of the sample of the arm [(0, 2)],
    and of no sample that holds [reward - best(r)] of the arm [(0, 0)]
    for each drawn [r]. *)
Theorem swap_sigma_shared_sample_race :
  exists sigma : mat,
    first_indices (n_cols example_data) 3 = Ok [0; 1; 2]%nat /\
    swap_sigma pow_unused textbook_stddev first_indices example_l2
      example_data example_race_swap 3 [0; 5; 5; 0]%float
      [10; 5; 15; 10]%float [0; 0; 0; 1]%float = Ok sigma /\
    mat_at sigma 0 0 = Some (textbook_stddev [5; 0; -5]%float 0) /\
    ~ exists sample,
        Forall2 (swap_delta pow_unused example_l2 example_data
                   [0; 5; 5; 0]%float [10; 5; 15; 10]%float
                   [0; 0; 0; 1]%float 0 0) [0; 1; 2]%nat sample /\
        mat_at sigma 0 0 = Some (textbook_stddev sample 0).
Proof.
  eexists. split; [reflexivity|].
  split; [vm_compute; reflexivity|]. split; [vm_compute; reflexivity|].
  intros (sample & HF & Hs).
  inversion HF as [|r0 x0 R0 s0 H0 HF0]; subst.
  inversion HF0 as [|r1 x1 R1 s1 H1 HF1]; subst.
  inversion HF1 as [|r2 x2 R2 s2 H2 HF2]; subst.
  inversion HF2; subst.
  destruct H0 as (c0 & a0 & b0 & m0 & Hc0 & Ha0 & Hb0 & Hm0 & ->).
  destruct H1 as (c1 & a1 & b1 & m1 & Hc1 & Ha1 & Hb1 & Hm1 & ->).
  destruct H2 as (c2 & a2 & b2 & m2 & Hc2 & Ha2 & Hb2 & Hm2 & ->).
  vm_compute in Hc0, Hc1, Hc2, Ha0, Ha1, Ha2, Hb0, Hb1, Hb2.
  apply Ok_inj in Hc0, Hc1, Hc2.
  apply Some_inj in Ha0, Ha1, Ha2, Hb0, Hb1, Hb2.
  subst c0 c1 c2 a0 a1 a2 b0 b1 b2.
  change (of_size 0 =? 0)%float with true in Hm0, Hm1, Hm2.
  destruct Hm0 as (t0 & Ht0 & [Hin0 Hle0]).
  destruct Hm1 as (t1 & Ht1 & [Hin1 Hle1]).
  destruct Hm2 as (t2 & Ht2 & [Hin2 Hle2]).
  vm_compute in Ht0, Ht1, Ht2. apply Some_inj in Ht0, Ht1, Ht2.
  subst t0 t1 t2.
  assert (m0 = 0%float) as ->.
  { rewrite !elem_of_cons in Hin0.
    destruct Hin0 as [->|[->|Hm]]; [reflexivity| |inversion Hm].
    inversion Hle0 as [|? ? Hle _]. vm_compute in Hle. discriminate. }
  assert (m1 = 5%float) as ->.
  { rewrite !elem_of_cons in Hin1.
    destruct Hin1 as [->|[->|Hm]]; [reflexivity..|inversion Hm]. }
  assert (m2 = 5%float) as ->.
  { rewrite !elem_of_cons in Hin2.
    destruct Hin2 as [->|[->|Hm]]; [reflexivity| |inversion Hm].
    inversion Hle2 as [|? ? Hle _]. vm_compute in Hle. discriminate. }
  vm_compute in Hs. apply Some_inj in Hs.
  apply (f_equal Prim2SF) in Hs. vm_compute in Hs. discriminate.
Qed.

(** * Further properties of the code *)

(** ** The kernels are symmetric *)

Lemma SFabs_binary_round_aux s s' m e l :
  SFabs (binary_round_aux prec emax s m e l)
  = SFabs (binary_round_aux prec emax s' m e l).
Proof.
  unfold binary_round_aux.
  destruct (shr_fexp prec emax m e l) as [mrs' e'].
  destruct (shr_fexp prec emax _ e' loc_Exact) as [mrs'' e''].
  destruct (shr_m mrs''); try reflexivity.
  destruct (e'' <=? emax - prec)%Z; reflexivity.
Qed.

Lemma SFabs_binary_normalize_opp m e :
  SFabs (binary_normalize prec emax (- m) e false)
  = SFabs (binary_normalize prec emax m e false).
Proof.
  destruct m as [|p|p]; try reflexivity;
    change (- Z.pos p)%Z with (Z.neg p); change (- Z.neg p)%Z with (Z.pos p);
    cbn [binary_normalize]; unfold binary_round;
    destruct (shl_align p e _); apply SFabs_binary_round_aux.
Qed.

Lemma SFabs_sub_comm a b :
  SFabs (SFsub prec emax a b) = SFabs (SFsub prec emax b a).
Proof.
  destruct a as [sa|sa| |sa ma ea], b as [sb|sb| |sb mb eb];
    try reflexivity;
    try (destruct sa, sb; reflexivity);
    try (destruct sa; reflexivity); try (destruct sb; reflexivity).
  cbn [SFsub]. rewrite (Z.min_comm eb ea).
  rewrite <- SFabs_binary_normalize_opp. f_equal. f_equal. lia.
Qed.

Lemma abs_sub_comm x y : (abs (x - y) = abs (y - x))%float.
Proof.
  apply Prim2SF_inj. rewrite !abs_spec, !sub_spec. apply SFabs_sub_comm.
Qed.

Lemma fmul_comm x y : (x * y = y * x)%float.
Proof.
  apply Prim2SF_inj. rewrite !mul_spec.
  destruct (Prim2SF x) as [sa|sa| |sa ma ea], (Prim2SF y) as [sb|sb| |sb mb eb];
    cbn [SF64mul SFmul]; unfold SF64mul, SFmul; try reflexivity;
    rewrite ?(xorb_comm sb sa); try reflexivity.
  rewrite (Pos.mul_comm mb ma), (Z.add_comm eb ea). reflexivity.
Qed.

Lemma mul_self_abs x y : abs x = abs y -> (x * x = y * y)%float.
Proof.
  intros H. apply Prim2SF_inj. rewrite !mul_spec.
  apply (f_equal Prim2SF) in H. rewrite !abs_spec in H.
  destruct (Prim2SF x) as [sa|sa| |sa ma ea], (Prim2SF y) as [sb|sb| |sb mb eb];
    try discriminate H; unfold SF64mul, SFmul; rewrite ?xorb_nilpotent;
    try reflexivity.
  cbn in H. injection H as -> ->. reflexivity.
Qed.

(** A fold over the differences of two columns that looks at each
    difference through its absolute value only does not depend on the
    order of the columns. *)
Lemma foldl_vsub_comm {A} (f : A -> float -> A) :
  (forall acc x y, abs x = abs y -> f acc x = f acc y) ->
  forall a b acc, foldl f acc (vsub a b) = foldl f acc (vsub b a).
Proof.
  intros Hf. induction a as [|x a IH]; intros [|y b] acc; try reflexivity.
  cbn. rewrite (Hf acc (x - y)%float (y - x)%float) by apply abs_sub_comm.
  apply IH.
Qed.

Lemma vabs_vsub_comm a b : vabs (vsub a b) = vabs (vsub b a).
Proof.
  revert b. induction a as [|x a IH]; intros [|y b]; try reflexivity.
  cbn. rewrite abs_sub_comm. f_equal. apply IH.
Qed.

Lemma norm_vsub_comm pow a b p :
  norm pow (vsub a b) p = norm pow (vsub b a) p.
Proof.
  destruct a as [|x a], b as [|y b]; try reflexivity.
  assert (forall k,
    vec_norm_k pow (vsub (x :: a) (y :: b)) k
    = vec_norm_k pow (vsub (y :: b) (x :: a)) k) as Hk.
  { intros k. unfold vec_norm_k. f_equal. apply foldl_vsub_comm.
    intros acc u v Huv. rewrite Huv. reflexivity. }
  assert (vec_norm_1 (vsub (x :: a) (y :: b))
          = vec_norm_1 (vsub (y :: b) (x :: a))) as H1.
  { unfold vec_norm_1. apply foldl_vsub_comm.
    intros acc u v Huv. rewrite Huv. reflexivity. }
  assert (vec_norm_2 (vsub (x :: a) (y :: b))
          = vec_norm_2 (vsub (y :: b) (x :: a))) as H2.
  { unfold vec_norm_2. f_equal. apply foldl_vsub_comm.
    intros acc u v Huv. rewrite (mul_self_abs u v Huv). reflexivity. }
  change (vsub (x :: a) (y :: b))
    with ((x - y)%float :: vsub a b) in *.
  change (vsub (y :: b) (x :: a))
    with ((y - x)%float :: vsub b a) in *.
  unfold norm. destruct p as [|[|[|p]]]; try reflexivity.
  - rewrite H1. reflexivity.
  - rewrite H2. reflexivity.
  - rewrite Hk. reflexivity.
Qed.

Lemma dot_comm a b : dot a b = dot b a.
Proof.
  unfold dot, accu. generalize 0%float.
  revert b. induction a as [|x a IH]; intros [|y b] acc; try reflexivity.
  cbn. rewrite (fmul_comm y x). apply IH.
Qed.

(** X1: every kernel is symmetric in its two column indices, bit for bit
    and errors included: the call with [i] and [j] exchanged returns the
    same value, throws the same exception or is undefined in the same
    way, whatever the matrix, the indices and the configured loss. *)
Theorem kernel_symmetric (pow : float -> float -> float) (self : KMedoids)
    (data : mat) (i j : nat) :
  call_lossFn pow self data i j = call_lossFn pow self data j i.
Proof.
  unfold call_lossFn.
  destruct (lossFn self) as [[| | |]|]; try reflexivity.
  - unfold manhattan, col.
    destruct (data !! i) as [a|], (data !! j) as [b|]; cbn; try reflexivity.
    rewrite vabs_vsub_comm. reflexivity.
  - unfold cos, col.
    destruct (data !! i) as [a|], (data !! j) as [b|]; cbn; try reflexivity.
    destruct (norm_2_ok pow a) as [na ->], (norm_2_ok pow b) as [nb ->].
    cbn. rewrite dot_comm, (fmul_comm nb na). reflexivity.
  - unfold LINF, col.
    destruct (data !! i) as [a|], (data !! j) as [b|]; cbn; try reflexivity.
    rewrite vabs_vsub_comm. reflexivity.
  - unfold LP, col.
    destruct (data !! i) as [a|], (data !! j) as [b|]; cbn; try reflexivity.
    destruct (lp self); [apply norm_vsub_comm | reflexivity].
Qed.

(** ** The distance of a column to itself *)

Lemma fsub_diag x : finite x -> (x - x = 0)%float.
Proof.
  rewrite finite_SF. intros H. apply Prim2SF_inj. rewrite sub_spec.
  change (Prim2SF 0) with (S754_zero false).
  destruct (Prim2SF x) as [s|s| |s m e]; try contradiction.
  - destruct s; reflexivity.
  - unfold SF64sub, SFsub. rewrite Z.sub_diag. reflexivity.
Qed.

Lemma vsub_diag a :
  Forall finite a -> vsub a a = replicate (length a) 0%float.
Proof.
  induction 1 as [|x a Hx _ IH]; [reflexivity|].
  cbn. rewrite (fsub_diag x Hx). f_equal. exact IH.
Qed.

Lemma foldl_zeros (f : float -> float -> float) n :
  f 0%float 0%float = 0%float ->
  foldl f 0%float (replicate n 0%float) = 0%float.
Proof.
  intros Hf. induction n as [|n IH]; [reflexivity|].
  cbn. rewrite Hf. exact IH.
Qed.

Lemma vabs_zeros n : vabs (replicate n 0%float) = replicate n 0%float.
Proof. induction n as [|n IH]; [reflexivity|]. cbn. f_equal. exact IH. Qed.

Lemma vsub_diag_cons a :
  a <> [] -> Forall finite a ->
  vsub a a = 0%float :: replicate (length a - 1) 0%float.
Proof.
  intros Hne Ha. rewrite (vsub_diag a Ha). destruct a as [|x a]; [congruence|].
  cbn. rewrite Nat.sub_0_r. reflexivity.
Qed.

Lemma manhattan_diag (data : mat) i a :
  data !! i = Some a -> Forall finite a -> manhattan data i i = Ok 0%float.
Proof.
  intros Hi Ha. unfold manhattan, col. rewrite Hi. cbn.
  rewrite (vsub_diag a Ha), vabs_zeros. unfold accu.
  rewrite foldl_zeros; reflexivity.
Qed.

Lemma LINF_diag (data : mat) i a :
  data !! i = Some a -> a <> [] -> Forall finite a ->
  LINF data i i = Ok 0%float.
Proof.
  intros Hi Hne Ha. unfold LINF, col. rewrite Hi. cbn.
  rewrite (vsub_diag_cons a Hne Ha).
  change (vabs (0%float :: ?l)) with (0%float :: vabs l).
  rewrite vabs_zeros. cbn [arma_max foldl].
  change (neg_infinity <? 0)%float with true. cbv iota.
  f_equal. apply foldl_zeros. reflexivity.
Qed.

Lemma LP_diag pow self (data : mat) i a :
  lp self = Some 1%nat \/ lp self = Some 2%nat ->
  data !! i = Some a -> a <> [] -> Forall finite a ->
  LP pow self data i i = Ok 0%float.
Proof.
  intros [Hp | Hp] Hi Hne Ha; unfold LP, col; rewrite Hi, Hp; cbn.
  - rewrite norm_1_manhattan, (vsub_diag a Ha), vabs_zeros. unfold accu.
    rewrite foldl_zeros; reflexivity.
  - rewrite (vsub_diag_cons a Hne Ha). cbn [norm]. unfold vec_norm_2. f_equal.
    change (foldl ?f 0%float (0%float :: ?l))
      with (foldl f (0 + 0 * 0)%float l).
    change (0 + 0 * 0)%float with 0%float.
    rewrite (foldl_zeros (fun acc x => acc + x * x)%float) by reflexivity.
    reflexivity.
Qed.

(** X2: under the Manhattan, L-infinity, L1 and L2 kernels a column of
    finite entries (not empty) is at distance exactly [+0] from itself. *)
Theorem self_distance_zero (pow : float -> float -> float) (self : KMedoids)
    (data : mat) (i : nat) (a : list float) :
  elementary_kernel self ->
  data !! i = Some a -> a <> [] -> Forall finite a ->
  call_lossFn pow self data i i = Ok 0%float.
Proof.
  intros Hk Hi Hne Ha. unfold call_lossFn.
  destruct Hk as [-> | [-> | [-> Hp]]].
  - exact (manhattan_diag data i a Hi Ha).
  - exact (LINF_diag data i a Hi Hne Ha).
  - exact (LP_diag pow self data i a Hp Hi Hne Ha).
Qed.

Lemma self_distance_zero_witness :
  call_lossFn pow_unused example_l2 example_data 1 1 = Ok 0%float.
Proof.
  apply (self_distance_zero pow_unused example_l2 example_data 1 [3; 4]%float).
  - right; right. split; [reflexivity|right; reflexivity].
  - reflexivity.
  - discriminate.
  - repeat constructor.
Defined.

(** ** Numeric loss tags and the exception that leaves [setLossFn] *)

Lemma digit_first_not (c d : ascii) :
  isdigit c = true -> isdigit d = false -> Ascii.eqb c d = false.
Proof.
  intros Hc Hd. destruct (Ascii.eqb_spec c d) as [->|]; congruence.
Qed.

(** A tag that starts with a digit is none of the three names and does
    not match [L\d*]. *)
Lemma digit_tag_plain c r :
  isdigit c = true ->
  regex_match_L_digits (String c r) = false /\
  (String c r =? "manhattan")%string = false /\
  (String c r =? "cos")%string = false /\
  (String c r =? "inf")%string = false.
Proof.
  intros Hc. cbn.
  rewrite (digit_first_not c "L"), (digit_first_not c "m"),
    (digit_first_not c "c"), (digit_first_not c "i") by (exact Hc || reflexivity).
  auto.
Qed.

Lemma setLossFn_digit_tag c r w :
  isdigit c = true ->
  setLossFn (String c r) w =
  match atoi (String c r) with
  | Ok v =>
      (Ok tt, mkWorld (with_lp (Z.to_nat v) (with_lossFn loss_LP (obj w)))
                (trace w))
  | Throw e => (Throw e, mkWorld (with_lossFn loss_LP (obj w)) (trace w))
  | Undefined u =>
      (Undefined u, mkWorld (with_lossFn loss_LP (obj w)) (trace w))
  end.
Proof.
  intros Hc. destruct (digit_tag_plain c r Hc) as (Hr & Hm & Hco & Hi).
  unfold setLossFn. rewrite Hr, Hm, Hco, Hi.
  unfold catch_invalid_argument, bind, lift, at0, modify. rewrite Hc.
  unfold atoi. destruct (_ <=? INT_MAX)%Z; reflexivity.
Qed.

Lemma setLossFn_L_prefix s w :
  all_digits s = true -> s <> EmptyString ->
  setLossFn (String "L" s) w = setLossFn s w.
Proof.
  intros Hs Hne. destruct s as [|c r]; [congruence|].
  cbn in Hs. apply andb_prop in Hs as [Hc Hr].
  destruct (digit_tag_plain c r Hc) as (Hx & _).
  unfold setLossFn. rewrite Hx.
  replace (regex_match_L_digits (String "L" (String c r))) with true
    by (cbn; rewrite Hc, Hr; reflexivity).
  reflexivity.
Qed.

(** X3: a loss tag that starts with a decimal digit selects the LP
    kernel with the exponent that its leading digits spell, whatever
    follows them, as long as that number fits an [int]; and the tag [L]
    followed by digits only does exactly what the digits alone do. *)
Theorem setLossFn_numeric_tag (c : ascii) (r : string) (w : World) :
  isdigit c = true ->
  (digits_prefix 0 (String c r) <= INT_MAX)%Z ->
  setLossFn (String c r) w
  = (Ok tt,
     mkWorld (with_lp (Z.to_nat (digits_prefix 0 (String c r)))
                (with_lossFn loss_LP (obj w))) (trace w)) /\
  (all_digits r = true ->
   setLossFn (String "L" (String c r)) w = setLossFn (String c r) w).
Proof.
  intros Hc Hv. split.
  - rewrite (setLossFn_digit_tag c r w Hc). unfold atoi.
    apply Z.leb_le in Hv. rewrite Hv. reflexivity.
  - intros Hr. apply setLossFn_L_prefix; [|discriminate].
    cbn. rewrite Hc, Hr. reflexivity.
Qed.

Lemma setLossFn_numeric_tag_witness :
  setLossFn "3rd" (example_world "naive")
  = (Ok tt,
     mkWorld (with_lp 3 (with_lossFn loss_LP (example_object "naive"))) []).
Proof.
  exact (proj1 (setLossFn_numeric_tag "3" "rd" (example_world "naive")
                  eq_refl ltac:(vm_compute; discriminate))).
Defined.

(** X4: the only exception that leaves [setLossFn] is the
    [std::out_of_range] of [loss.at(0)], and it does so exactly for the
    tags [""] and ["L"]; the object and the output are then as before,
    and [fit] ends with the same exception before any engine is
    entered. *)
Theorem setLossFn_escaping_exception
    (fit_naive fit_bpam fit_fastpam1 :
       mat -> KMedoids -> outcome unit * KMedoids)
    (loss : string) (w : World) (data : mat) :
  (forall e, (setLossFn loss w).1 = Throw e ->
     loss = ""%string \/ loss = "L"%string) /\
  (loss = ""%string \/ loss = "L"%string ->
   setLossFn loss w = (Throw (out_of_range "basic_string::at"), w) /\
   fit fit_naive fit_bpam fit_fastpam1 data loss w
   = (Throw (out_of_range "basic_string::at"), w)).
Proof.
  split.
  - intros e. unfold setLossFn.
    destruct loss as [|c r]; [auto|].
    assert ((if regex_match_L_digits (String c r)
             then substr1 (String c r) else String c r) = EmptyString
            -> String c r = "L"%string) as Hempty.
    { cbn. destruct (Ascii.eqb_spec c "L") as [->|]; cbn; [|discriminate].
      destruct (all_digits r); cbn; [|discriminate]. now intros ->. }
    destruct (if regex_match_L_digits (String c r)
              then substr1 (String c r) else String c r) as [|d t] eqn:Ht.
    { auto. }
    unfold catch_invalid_argument, bind, modify, lift, throw, emit, at0.
    destruct (_ =? "manhattan")%string; [discriminate|].
    destruct (_ =? "cos")%string; [discriminate|].
    destruct (_ =? "inf")%string; [discriminate|].
    destruct (isdigit d); cbn.
    + unfold atoi. destruct (_ <=? INT_MAX)%Z; discriminate.
    + discriminate.
  - intros [-> | ->]; split; reflexivity.
Qed.

Lemma setLossFn_escaping_exception_witness :
  fit idle_engine idle_engine idle_engine example_data "L"
    (example_world "naive")
  = (Throw (out_of_range "basic_string::at"), example_world "naive").
Proof.
  exact (proj2 (proj2 (setLossFn_escaping_exception idle_engine idle_engine
                         idle_engine "L" (example_world "naive")
                         example_data) (or_intror eq_refl))).
Defined.

(** ** The constructor, [setAlgorithm] and the edges of the kernels *)

Lemma checkAlgorithm_selected a :
  checkAlgorithm a
  = match selected_engine a with
    | Some _ => Ok tt
    | None => Throw (c_string "unrecognized algorithm")
    end.
Proof.
  unfold checkAlgorithm, selected_engine.
  destruct (a =? "naive")%string, (a =? "BanditPAM")%string,
    (a =? "FastPAM1")%string; reflexivity.
Qed.

(** X5: the constructor accepts exactly the algorithm names that [fit]
    dispatches on, compared character by character, and validates
    nothing else: for such a name it returns an object whose getters
    give back the seven arguments as passed (whatever the numbers), and
    [fit] on that object hands over to the engine the name selects; for
    any other name it throws the C string [unrecognized algorithm]. *)
Theorem KMedoids_new_accepts_dispatched_names
    (n_medoids : nat) (algorithm : string)
    (verbosity max_iter buildConfidence swapConfidence : nat)
    (logFilename : string) :
  match selected_engine algorithm with
  | Some e =>
      exists k,
        KMedoids_new n_medoids algorithm verbosity max_iter buildConfidence
          swapConfidence logFilename = Ok k /\
        getNMedoids k = n_medoids /\ getAlgorithm k = algorithm /\
        getVerbosity k = verbosity /\ getMaxIter k = max_iter /\
        getbuildConfidence k = buildConfidence /\
        getswapConfidence k = swapConfidence /\
        getLogfileName k = logFilename /\
        forall fit_naive fit_bpam fit_fastpam1 data t,
          dispatch fit_naive fit_bpam fit_fastpam1 data (mkWorld k t)
          = run_engine fit_naive fit_bpam fit_fastpam1 e data (mkWorld k t)
  | None =>
      KMedoids_new n_medoids algorithm verbosity max_iter buildConfidence
        swapConfidence logFilename
      = Throw (c_string "unrecognized algorithm")
  end.
Proof.
  unfold KMedoids_new. rewrite checkAlgorithm_selected.
  destruct (selected_engine algorithm) as [e|] eqn:He; [|reflexivity].
  eexists. split; [reflexivity|]. repeat split.
  intros f1 f2 f3 data t. apply dispatch_some. exact He.
Qed.

(** X6: [setAlgorithm] stores the new name before it checks it: in
    every case the name is what [getAlgorithm] returns afterwards, no
    other field changes and nothing is printed; the call returns
    normally exactly when the name is one [fit] dispatches on, and
    throws the C string [unrecognized algorithm] otherwise. *)
Theorem setAlgorithm_stores_then_checks (new_alg : string) (w : World) :
  getAlgorithm (obj (setAlgorithm new_alg w).2) = new_alg /\
  same_but_algorithm (obj w) (obj (setAlgorithm new_alg w).2) /\
  trace (setAlgorithm new_alg w).2 = trace w /\
  (setAlgorithm new_alg w).1
  = match selected_engine new_alg with
    | Some _ => Ok tt
    | None => Throw (c_string "unrecognized algorithm")
    end.
Proof.
  unfold setAlgorithm, bind, modify, lift. cbn.
  rewrite checkAlgorithm_selected.
  destruct (selected_engine new_alg); cbn; repeat split.
Qed.

(** X7: a numeric tag whose leading digits spell zero ([L0], [0],
    [00x], ...) is accepted by [setLossFn] without complaint, and from
    then on every dissimilarity of two columns that are not empty throws
    the [std::logic_error] of [arma::norm]. *)
Theorem zero_exponent_tag_breaks_kernel (pow : float -> float -> float)
    (c : ascii) (r : string) (w : World) (data : mat)
    (i j : nat) (a b : list float) :
  isdigit c = true -> digits_prefix 0 (String c r) = 0%Z ->
  data !! i = Some a -> data !! j = Some b -> a <> [] -> b <> [] ->
  (setLossFn (String c r) w).1 = Ok tt /\
  call_lossFn pow (obj (setLossFn (String c r) w).2) data i j
  = Throw (logic_error "norm(): k must be greater than zero").
Proof.
  intros Hc H0 Hi Hj Ha Hb.
  rewrite (setLossFn_digit_tag c r w Hc). unfold atoi. rewrite H0. cbn.
  split; [reflexivity|].
  unfold call_lossFn, LP, col. cbn. rewrite Hi, Hj. cbn.
  destruct a as [|x a]; [congruence|]. destruct b as [|y b]; [congruence|].
  reflexivity.
Qed.

Lemma zero_exponent_tag_breaks_kernel_witness :
  (setLossFn "0" (example_world "naive")).1 = Ok tt /\
  call_lossFn pow_unused (obj (setLossFn "0" (example_world "naive")).2)
    example_data 1 3
  = Throw (logic_error "norm(): k must be greater than zero").
Proof.
  apply (zero_exponent_tag_breaks_kernel pow_unused "0" ""
           (example_world "naive") example_data 1 3 [3; 4]%float
           [6; 8]%float); reflexivity || discriminate.
Defined.

(** X8: a column index that is not below the number of columns makes
    every kernel throw Armadillo's [std::out_of_range], whichever of the
    two indices it is and whatever the other one holds. *)
Theorem kernel_index_out_of_range (pow : float -> float -> float)
    (self : KMedoids) (data : mat) (i j : nat) :
  lossFn self <> None ->
  (n_cols data <= i)%nat \/ (n_cols data <= j)%nat ->
  call_lossFn pow self data i j
  = Throw (out_of_range "Mat::col(): index out of bounds").
Proof.
  intros Hl Hij. unfold call_lossFn, n_cols in *.
  assert (data !! i = None \/ data !! j = None) as Hnone.
  { destruct Hij; [left|right]; apply lookup_ge_None_2; assumption. }
  destruct (lossFn self) as [[| | |]|]; [| | | |congruence];
    unfold manhattan, cos, LINF, LP, col;
    destruct Hnone as [-> | ->]; try reflexivity;
    destruct (data !! i); reflexivity.
Qed.

Lemma kernel_index_out_of_range_witness :
  call_lossFn pow_unused example_l2 example_data 1 4
  = Throw (out_of_range "Mat::col(): index out of bounds").
Proof.
  apply (kernel_index_out_of_range pow_unused example_l2 example_data 1 4).
  - discriminate.
  - right. cbn. lia.
Defined.

(** ** The edges of [calc_loss] *)

Section Loss_edges.

Variable pow : float -> float -> float.
Variable self : KMedoids.
Variable data : mat.

Lemma nearest_take ms i n count :
  forall k c0, (k + count <= n)%nat ->
  nearest pow self data ms i k count c0
  = nearest pow self data (take n ms) i k count c0.
Proof.
  induction count as [|count IH]; intros k c0 Hk; [reflexivity|].
  cbn [nearest]. unfold elem.
  rewrite lookup_take_lt by lia.
  destruct (ms !! k) as [m|]; [|reflexivity]. cbn.
  destruct (to_size m) as [idx| |]; try reflexivity. cbn.
  destruct (call_lossFn pow self data idx i) as [c| |]; try reflexivity. cbn.
  apply IH. lia.
Qed.

Lemma sum_nearest_take ms count :
  forall i total,
  sum_nearest pow self data ms i count total
  = sum_nearest pow self data (take (n_medoids self) ms) i count total.
Proof.
  induction count as [|count IH]; intros i total; [reflexivity|].
  cbn [sum_nearest].
  rewrite <- (nearest_take ms i (n_medoids self)) by lia.
  destruct (nearest pow self data ms i 0 (n_medoids self) infinity);
    try reflexivity.
  cbn. apply IH.
Qed.

Lemma nearest_split ms i c1 :
  forall c2 k c0,
  nearest pow self data ms i k (c1 + c2) c0
  = let? c := nearest pow self data ms i k c1 c0 in
    nearest pow self data ms i (k + c1) c2 c.
Proof.
  induction c1 as [|c1 IH]; intros c2 k c0.
  { cbn. rewrite Nat.add_0_r. reflexivity. }
  cbn [Nat.add nearest].
  destruct (elem ms k) as [m| |]; try reflexivity. cbn.
  destruct (to_size m) as [idx| |]; try reflexivity. cbn.
  destruct (call_lossFn pow self data idx i) as [c| |]; try reflexivity. cbn.
  rewrite IH. replace (k + S c1)%nat with (S k + c1)%nat by lia. reflexivity.
Qed.

Lemma sum_infinities count :
  forall total, (total + infinity = infinity)%float ->
  foldl PrimFloat.add total (replicate count infinity)
  = match count with O => total | _ => infinity end.
Proof.
  induction count as [|count IH]; intros total Ht; [reflexivity|].
  cbn. rewrite Ht, IH by reflexivity. destruct count; reflexivity.
Qed.

Lemma sum_nearest_no_medoids ms count :
  forall i total, n_medoids self = 0%nat ->
  sum_nearest pow self data ms i count total
  = Ok (foldl PrimFloat.add total (replicate count infinity)).
Proof.
  induction count as [|count IH]; intros i total H0; [reflexivity|].
  cbn [sum_nearest]. rewrite H0. cbn. apply IH. exact H0.
Qed.

End Loss_edges.

(** X9: [calc_loss] reads the first [n_medoids] entries of the medoid
    vector and nothing beyond them: cutting the vector to that length
    changes neither the loss nor the exception. *)
Theorem calc_loss_reads_first_n_medoids (pow : float -> float -> float)
    (self : KMedoids) (data : mat)
    (medoid_indices : list float) :
  calc_loss pow self data medoid_indices
  = calc_loss pow self data (take (n_medoids self) medoid_indices).
Proof. apply sum_nearest_take. Qed.

(** X10: with [n_medoids] at 0 no kernel is called and no medoid index is
    read: the loss is [+infinity] as soon as there is one point, and 0
    for a matrix without columns. *)
Theorem calc_loss_without_medoids (pow : float -> float -> float)
    (self : KMedoids) (data : mat)
    (medoid_indices : list float) :
  n_medoids self = 0%nat ->
  calc_loss pow self data medoid_indices
  = Ok (if decide (n_cols data = 0%nat) then 0%float else infinity).
Proof.
  intros H0. unfold calc_loss.
  rewrite (sum_nearest_no_medoids pow self data _ _ _ _ H0).
  rewrite sum_infinities by reflexivity.
  destruct (n_cols data); reflexivity.
Qed.

Lemma calc_loss_without_medoids_witness :
  calc_loss pow_unused (with_n_medoids 0 (example_object "naive"))
    example_data [0; 3]%float = Ok infinity.
Proof.
  exact (calc_loss_without_medoids pow_unused
           (with_n_medoids 0 (example_object "naive")) example_data
           [0; 3]%float eq_refl).
Defined.

(** X11: when the medoid vector holds fewer than [n_medoids] entries and
    there is a point to evaluate, [calc_loss] runs off the end of the
    vector: once the costs of the first point to the entries that exist
    have been computed, Armadillo's bounds check throws
    [std::out_of_range]. *)
Theorem calc_loss_too_few_medoids (pow : float -> float -> float)
    (self : KMedoids) (data : mat)
    (medoid_indices cs : list float) :
  (length medoid_indices < n_medoids self)%nat -> data <> [] ->
  Forall2 (cost_is pow self data 0) medoid_indices cs ->
  calc_loss pow self data medoid_indices
  = Throw (out_of_range "Mat::operator(): index out of bounds").
Proof.
  intros Hlen Hne Hcs. unfold calc_loss, n_cols.
  destruct data as [|c0 d]; [congruence|]. cbn [length sum_nearest].
  replace (n_medoids self)
    with (length medoid_indices
          + S (n_medoids self - S (length medoid_indices)))%nat by lia.
  rewrite nearest_split.
  pose proof (nearest_run pow self (c0 :: d) 0 medoid_indices cs []
                infinity Hcs) as Hn.
  cbn [app length] in Hn. rewrite Hn. cbn [obind nearest Nat.add].
  unfold elem. rewrite lookup_ge_None_2 by lia. reflexivity.
Qed.

Lemma calc_loss_too_few_medoids_witness :
  calc_loss pow_unused example_l2 example_data [3]%float
  = Throw (out_of_range "Mat::operator(): index out of bounds").
Proof.
  apply (calc_loss_too_few_medoids pow_unused example_l2 example_data
           [3]%float [10]%float).
  - cbn. lia.
  - discriminate.
  - repeat constructor. exists 3%nat. split; vm_compute; reflexivity.
Defined.

(** ** The shape of the store and the empty medoid vector *)

Lemma same_shape_refl (s : store) : same_shape s s.
Proof. intros r. reflexivity. Qed.

Lemma same_shape_trans (s1 s2 s3 : store) :
  same_shape s1 s2 -> same_shape s2 s3 -> same_shape s1 s3.
Proof. intros H12 H23 r. rewrite H23. apply H12. Qed.

Lemma keeps_shape_ret {A} (a : A) : keeps_shape (ret a).
Proof. intros s. apply same_shape_refl. Qed.

Lemma keeps_shape_lift {A} (o : outcome A) : keeps_shape (lift o).
Proof. intros s. apply same_shape_refl. Qed.

Lemma keeps_shape_bind {A B} (m : ST (store) A)
    (f : A -> ST (store) B) :
  keeps_shape m -> (forall a, keeps_shape (f a)) -> keeps_shape (bind m f).
Proof.
  intros Hm Hf s. unfold bind. specialize (Hm s).
  destruct (m s) as [[a|e|u] s1]; cbn in *; try exact Hm.
  eapply same_shape_trans; [exact Hm|apply Hf].
Qed.

Lemma keeps_shape_load r : keeps_shape (load r).
Proof.
  intros s. unfold load. destruct (s !! r); apply same_shape_refl.
Qed.

Lemma keeps_shape_read r i : keeps_shape (read r i).
Proof.
  unfold read. apply keeps_shape_bind; [apply keeps_shape_load|].
  intros v. apply keeps_shape_lift.
Qed.

Lemma keeps_shape_write r i x : keeps_shape (write r i x).
Proof.
  intros s. unfold write, bind, load, lift, set_elem.
  destruct (s !! r) as [v|] eqn:Hr; cbn; [|apply same_shape_refl].
  destruct (decide (i < length v)%nat); cbn; [|apply same_shape_refl].
  intros r'. destruct (decide (r' = r)) as [->|Hne].
  - rewrite lookup_insert_eq, Hr. cbn. rewrite length_insert. reflexivity.
  - rewrite lookup_insert_ne by congruence. reflexivity.
Qed.

Lemma keeps_shape_scan_medoids pow self data rm ra i count :
  forall k best second,
  keeps_shape (scan_medoids pow self data rm ra i k count best second).
Proof.
  induction count as [|count IH]; intros k best second;
    [apply keeps_shape_ret|].
  cbn [scan_medoids].
  apply keeps_shape_bind; [apply keeps_shape_read|]. intros m.
  apply keeps_shape_bind; [apply keeps_shape_lift|]. intros idx.
  apply keeps_shape_bind; [apply keeps_shape_lift|]. intros c.
  destruct (c <? best)%float; [|destruct (c <? second)%float]; try apply IH.
  apply keeps_shape_bind; [apply keeps_shape_write|]. intros _. apply IH.
Qed.

Lemma keeps_shape_each_point pow self data rm rb rs ra count :
  forall i, keeps_shape (each_point pow self data rm rb rs ra i count).
Proof.
  induction count as [|count IH]; intros i; [apply keeps_shape_ret|].
  cbn [each_point].
  apply keeps_shape_bind; [apply keeps_shape_load|]. intros ms.
  apply keeps_shape_bind; [apply keeps_shape_scan_medoids|]. intros bs.
  apply keeps_shape_bind; [apply keeps_shape_write|]. intros _.
  apply keeps_shape_bind; [apply keeps_shape_write|]. intros _.
  apply IH.
Qed.

(** X12: the assignment engine never resizes, creates or removes a row
    vector: whatever the four references name, aliased or not, and
    whether the call returns, throws or is undefined, every reference
    names afterwards a vector of the length it had before, and a
    reference that named nothing still names nothing. *)
Theorem calc_best_distances_swap_keeps_shape
    (pow : float -> float -> float) (self : KMedoids)
    (data : mat)
    (medoid_indices best_distances second_distances assignments : nat)
    (s : store) (r : nat) :
  length <$>
    ((calc_best_distances_swap pow self data medoid_indices best_distances
        second_distances assignments s).2 !! r)
  = length <$> (s !! r).
Proof. apply keeps_shape_each_point. Qed.

Section No_medoids.

Variable pow : float -> float -> float.
Variable self : KMedoids.
Variable data : mat.
Variables rm rb rs ra : nat.

Lemma each_point_no_medoids count :
  forall i (s : store) B S,
  rm <> rb -> rm <> rs -> rb <> rs ->
  s !! rm = Some [] -> s !! rb = Some B -> s !! rs = Some S ->
  (i + count <= length B)%nat -> (i + count <= length S)%nat ->
  each_point pow self data rm rb rs ra i count s
  = (Ok tt,
     <[rs := take i S ++ replicate count infinity ++ drop (i + count) S]>
       (<[rb := take i B ++ replicate count infinity ++ drop (i + count) B]>
          s)).
Proof.
  induction count as [|count IH]; intros i s B S Hmb Hms Hbs Hm HB HS HlB HlS.
  { cbn. rewrite Nat.add_0_r, !take_drop.
    rewrite (insert_id s rb B HB), (insert_id s rs S HS). reflexivity. }
  cbn [each_point].
  rewrite (bind_ok _ _ _ _ _ (load_run s rm [] Hm)). cbn [length scan_medoids].
  unfold ret at 1. unfold bind at 1. cbn [fst snd].
  rewrite (bind_ok _ _ _ _ _ (write_run s rb B i infinity HB ltac:(lia))).
  set (B1 := <[i := infinity]> B). set (s1 := <[rb := B1]> s).
  assert (s1 !! rs = Some S) as HS1
    by (subst s1; rewrite lookup_insert_ne by congruence; exact HS).
  rewrite (bind_ok _ _ _ _ _ (write_run s1 rs S i infinity HS1 ltac:(lia))).
  set (S1 := <[i := infinity]> S). set (s2 := <[rs := S1]> s1).
  assert (s2 !! rm = Some []) as Hm2.
  { subst s2 s1. rewrite !lookup_insert_ne by congruence. exact Hm. }
  assert (s2 !! rb = Some B1) as HB2.
  { subst s2 s1. rewrite lookup_insert_ne by congruence.
    apply lookup_insert_eq. }
  assert (s2 !! rs = Some S1) as HS2 by (subst s2; apply lookup_insert_eq).
  rewrite (IH (Datatypes.S i) s2 B1 S1 Hmb Hms Hbs Hm2 HB2 HS2)
    by (subst B1 S1; rewrite length_insert; lia).
  assert (forall V : list float, (i + Datatypes.S count <= length V)%nat ->
    take (Datatypes.S i) (<[i := infinity]> V)
      ++ replicate count infinity
      ++ drop (Datatypes.S i + count) (<[i := infinity]> V)
    = take i V ++ replicate (Datatypes.S count) infinity
      ++ drop (i + Datatypes.S count) V) as Hfill.
  { intros V HV.
    rewrite drop_insert_lt by lia.
    rewrite (take_S_r _ i infinity)
      by (apply list_lookup_insert_eq; lia).
    rewrite take_insert_ge by lia. rewrite <- app_assoc. cbn.
    replace (i + Datatypes.S count)%nat with (Datatypes.S (i + count)) by lia.
    reflexivity. }
  subst B1 S1. rewrite !Hfill by assumption.
  f_equal. subst s2 s1.
  rewrite (insert_insert_ne _ rb rs) by congruence.
  rewrite !insert_insert_eq. reflexivity.
Qed.

End No_medoids.

(** X13: with an empty medoid vector the assignment engine calls no
    kernel and never touches [assignments] (which need not even exist):
    it returns normally with the first [N] entries of [best_distances]
    and of [second_distances] set to [+infinity] and the rest of the
    store as it was. *)
Theorem calc_best_distances_swap_no_medoids
    (pow : float -> float -> float) (self : KMedoids)
    (data : mat)
    (medoid_indices best_distances second_distances assignments : nat)
    (s : store) (B S : list float) :
  medoid_indices <> best_distances -> medoid_indices <> second_distances ->
  best_distances <> second_distances ->
  s !! medoid_indices = Some [] ->
  s !! best_distances = Some B -> s !! second_distances = Some S ->
  (n_cols data <= length B)%nat -> (n_cols data <= length S)%nat ->
  calc_best_distances_swap pow self data medoid_indices best_distances
    second_distances assignments s
  = (Ok tt,
     <[second_distances :=
         replicate (n_cols data) infinity ++ drop (n_cols data) S]>
       (<[best_distances :=
            replicate (n_cols data) infinity ++ drop (n_cols data) B]> s)).
Proof.
  intros Hmb Hms Hbs Hm HB HS HlB HlS. unfold calc_best_distances_swap.
  rewrite (each_point_no_medoids pow self data medoid_indices
             best_distances second_distances assignments (n_cols data) 0 s
             B S Hmb Hms Hbs Hm HB HS) by (cbn; lia).
  reflexivity.
Qed.

Lemma calc_best_distances_swap_no_medoids_witness :
  calc_best_distances_swap pow_unused example_l2 example_data 0 1 2 3
    (<[0%nat := []]> example_store)
  = (Ok tt,
     <[2%nat := replicate 4 infinity]>
       (<[1%nat := replicate 4 infinity]> (<[0%nat := []]> example_store))).
Proof.
  exact (calc_best_distances_swap_no_medoids pow_unused example_l2
           example_data 0 1 2 3 (<[0%nat := []]> example_store)
           [9; 9; 9; 9]%float [9; 9; 9; 9]%float
           ltac:(discriminate) ltac:(discriminate) ltac:(discriminate)
           eq_refl eq_refl eq_refl ltac:(cbn; lia) ltac:(cbn; lia)).
Defined.

(** ** The loss against the best distances *)

(** The rows of a table of costs, point by point. *)
Lemma cost_table_rows pow self data (ms : list float)
    (cost : nat -> nat -> float) N :
  (forall k m i, ms !! k = Some m -> (i < N)%nat ->
     cost_is pow self data i m (cost k i) /\ below_inf (cost k i)) ->
  forall j, (j < N)%nat ->
    Forall2 (cost_is pow self data j) ms (point_costs cost (length ms) j) /\
    Forall below_inf (point_costs cost (length ms) j).
Proof.
  intros Hcost j Hj. split.
  - apply Forall2_same_length_lookup_2.
    { rewrite point_costs_length. reflexivity. }
    intros k m c Hk Hc.
    rewrite point_costs_lookup in Hc by (apply lookup_lt_is_Some; eauto).
    injection Hc as <-. apply (Hcost k m j Hk Hj).
  - apply Forall_lookup. intros k c Hc.
    assert (k < length ms)%nat as Hk.
    { rewrite <- (point_costs_length cost (length ms) j).
      apply lookup_lt_is_Some; eauto. }
    rewrite point_costs_lookup in Hc by exact Hk. injection Hc as <-.
    destruct (lookup_lt_is_Some_2 ms k Hk) as [m Hmk].
    apply (Hcost k m j Hmk Hj).
Qed.

(** X14: the loss is the sum of the best distances.  On the inputs on
    which the assignment engine is specified, with as many medoids as
    [n_medoids] says, [calc_loss] returns bit for bit the sum, taken
    from the left, of the first [N] entries that
    [calc_best_distances_swap] leaves in [best_distances]. *)
Theorem calc_loss_sums_best_distances
    (pow : float -> float -> float) (self : KMedoids)
    (data : mat)
    (medoid_indices best_distances second_distances assignments : nat)
    (s : store) (ms B S A : list float)
    (cost : nat -> nat -> float) :
  NoDup [medoid_indices; best_distances; second_distances; assignments] ->
  s !! medoid_indices = Some ms -> s !! best_distances = Some B ->
  s !! second_distances = Some S -> s !! assignments = Some A ->
  ms <> [] -> length ms = n_medoids self ->
  (n_cols data <= length B)%nat -> (n_cols data <= length S)%nat ->
  (n_cols data <= length A)%nat ->
  (forall k m i, ms !! k = Some m -> (i < n_cols data)%nat ->
     cost_is pow self data i m (cost k i) /\ below_inf (cost k i)) ->
  exists (s' : store) (B' : list float),
    calc_best_distances_swap pow self data medoid_indices best_distances
      second_distances assignments s = (Ok tt, s') /\
    s' !! best_distances = Some B' /\
    calc_loss pow self data ms = Ok (sum_of (take (n_cols data) B')).
Proof.
  intros Hnd Hm HB HS HA Hne Hlen HlB HlS HlA Hcost.
  pose proof (cost_table_rows pow self data ms cost (n_cols data) Hcost)
    as Hrows.
  destruct (each_point_run pow self data medoid_indices best_distances
    second_distances assignments ms cost (n_cols data) 0 s B S A
    Hnd Hm HB HS HA HlB HlS HlA Hne
    (fun j Hj => Hrows j (proj2 Hj)))
    as (s' & B' & S' & A' & Hrun & _ & HB' & _ & _ & HlB' & _ & _ & _
        & Hres).
  exists s', B'. split; [exact Hrun|]. split; [exact HB'|].
  unfold calc_loss.
  rewrite (sum_nearest_run pow self data ms cost (n_cols data) 0 0%float
             Hlen (fun j Hj => proj1 (Hrows j (proj2 Hj)))).
  unfold sum_of. f_equal. f_equal.
  apply list_eq_same_length with (n_cols data).
  - rewrite length_take. lia.
  - rewrite length_map, length_seq. reflexivity.
  - intros j x y Hj Hx Hy.
    rewrite list_lookup_fmap, lookup_seq_lt in Hx by exact Hj.
    injection Hx as <-.
    rewrite lookup_take_lt in Hy by exact Hj.
    destruct (Hres j ltac:(lia)) as (b & sd & p & Hscan & Eb & _).
    rewrite Eb in Hy. injection Hy as <-.
    rewrite (running_min_scan _ 0 infinity infinity None), Hscan.
    reflexivity.
Qed.

Lemma calc_loss_sums_best_distances_witness :
  exists (s' : store) (B' : list float),
    calc_best_distances_swap pow_unused example_l2 example_data 0 1 2 3
      example_store = (Ok tt, s') /\
    s' !! 1%nat = Some B' /\
    calc_loss pow_unused example_l2 example_data [0; 3]%float
    = Ok (sum_of (take (n_cols example_data) B')).
Proof.
  apply (calc_loss_sums_best_distances pow_unused example_l2 example_data
    0 1 2 3 example_store [0; 3]%float [9; 9; 9; 9]%float
    [9; 9; 9; 9]%float [9; 9; 9; 9]%float example_cost).
  - repeat constructor; rewrite ?not_elem_of_cons; repeat split;
      try lia; apply not_elem_of_nil.
  - reflexivity.
  - reflexivity.
  - reflexivity.
  - reflexivity.
  - discriminate.
  - reflexivity.
  - cbn. lia.
  - cbn. lia.
  - cbn. lia.
  - intros k m i Hk Hi. cbn in Hi.
    destruct k as [|[|k]]; cbn in Hk; try discriminate;
      injection Hk as <-;
      destruct i as [|[|[|[|i]]]]; try lia;
      (split; [eexists; split; vm_compute; reflexivity
              |vm_compute; reflexivity]).
Defined.

(** ** Output vectors that are too short *)

Section Short_output.

Variable pow : float -> float -> float.
Variable self : KMedoids.
Variable data : mat.
Variables rm rb rs ra : nat.

Lemma each_point_split c1 :
  forall c2 i (s : store),
  each_point pow self data rm rb rs ra i (c1 + c2) s
  = bind (each_point pow self data rm rb rs ra i c1)
      (fun _ => each_point pow self data rm rb rs ra (i + c1) c2) s.
Proof.
  induction c1 as [|c1 IH]; intros c2 i s.
  { cbn. rewrite Nat.add_0_r. reflexivity. }
  cbn [Nat.add each_point]. unfold bind.
  destruct (load rm s) as [[ms|e|u] s1]; try reflexivity.
  destruct (scan_medoids pow self data rm ra i 0 (length ms) infinity
              infinity s1) as [[bs|e|u] s2]; try reflexivity.
  destruct (write rb i bs.1 s2) as [[[]|e|u] s3]; try reflexivity.
  destruct (write rs i bs.2 s3) as [[[]|e|u] s4]; try reflexivity.
  rewrite IH. unfold bind.
  replace (i + S c1)%nat with (S i + c1)%nat by lia. reflexivity.
Qed.

Lemma write_overrun (s : store) r v i x :
  s !! r = Some v -> (length v <= i)%nat ->
  write r i x s
  = (Throw (out_of_range "Mat::operator(): index out of bounds"), s).
Proof.
  intros Hr Hi. unfold write.
  rewrite (bind_ok _ _ _ _ _ (load_run s r v Hr)).
  unfold bind, lift, set_elem. rewrite decide_False by lia. reflexivity.
Qed.

(** The step of the loop over the points at which an output vector
    ends. *)
Lemma each_point_overrun (s : store) ms B S A cs i count :
  NoDup [rm; rb; rs; ra] ->
  s !! rm = Some ms -> s !! rb = Some B -> s !! rs = Some S ->
  s !! ra = Some A ->
  ms <> [] ->
  Forall2 (cost_is pow self data i) ms cs -> Forall below_inf cs ->
  (length B <= i \/ length S <= i \/ length A <= i)%nat ->
  (each_point pow self data rm rb rs ra i (Datatypes.S count) s).1
  = Throw (out_of_range "Mat::operator(): index out of bounds").
Proof.
  intros Hnd Hm HB HS HA Hne Hcs Hinf Hshort.
  apply NoDup_cons in Hnd as [H1 Hnd]. apply NoDup_cons in Hnd as [H2 Hnd].
  apply NoDup_cons in Hnd as [H3 _].
  rewrite !not_elem_of_cons in H1. rewrite !not_elem_of_cons in H2.
  rewrite !not_elem_of_cons in H3.
  destruct H1 as (Hmb & Hms & Hma & _). destruct H2 as (Hbs & Hba & _).
  destruct H3 as (Hsa & _).
  cbn [each_point].
  rewrite (bind_ok _ _ _ _ _ (load_run s rm ms Hm)).
  destruct (decide (i < length A)%nat) as [HiA|HiA].
  - pose proof (scan_medoids_run pow self data rm ra i ms cs [] infinity
                  infinity s A Hma Hm HA HiA Hcs) as Hscan.
    cbn [length] in Hscan.
    rewrite (bind_ok _ _ _ _ _ Hscan).
    set (bs := (scan_costs cs 0 infinity infinity None).1).
    set (s1 := match (scan_costs cs 0 infinity infinity None).2 with
               | Some p => <[ra := <[i := of_size p]> A]> s
               | None => s
               end).
    assert (s1 !! rb = Some B) as HB1.
    { subst s1. destruct (scan_costs _ _ _ _ _).2;
        rewrite ?lookup_insert_ne by congruence; exact HB. }
    assert (s1 !! rs = Some S) as HS1.
    { subst s1. destruct (scan_costs _ _ _ _ _).2;
        rewrite ?lookup_insert_ne by congruence; exact HS. }
    destruct (decide (i < length B)%nat) as [HiB|HiB].
    + rewrite (bind_ok _ _ _ _ _ (write_run s1 rb B i _ HB1 HiB)).
      assert (<[rb := <[i := bs.1]> B]> s1 !! rs = Some S) as HS2
        by (rewrite lookup_insert_ne by congruence; exact HS1).
      unfold bind at 1.
      rewrite (write_overrun _ rs S i _ HS2) by lia. reflexivity.
    + unfold bind at 1.
      rewrite (write_overrun _ rb B i _ HB1) by lia. reflexivity.
  - destruct Hcs as [|m c ms' cs' (idx & Hidx & Hc) Hcs']; [congruence|].
    apply Forall_cons in Hinf as [Hcinf _].
    cbn [length scan_medoids]. unfold bind.
    rewrite (read_run s rm (m :: ms') 0 m Hm eq_refl). cbv beta iota.
    unfold lift. rewrite Hidx. cbv beta iota. rewrite Hc. cbv beta iota.
    unfold below_inf in Hcinf. rewrite Hcinf.
    rewrite (write_overrun s ra A i _ HA) by lia. reflexivity.
Qed.

End Short_output.

(** X15: an output vector with fewer than [N] entries is not grown, and
    the call does not return normally: on inputs that otherwise meet the
    conditions of the assignment engine (distinct vectors, at least one
    medoid, every cost defined and below [+infinity]), Armadillo's
    bounds check fires as soon as the loop reaches the first index that
    one of [best_distances], [second_distances] and [assignments]
    lacks. *)
Theorem calc_best_distances_swap_short_output
    (pow : float -> float -> float) (self : KMedoids)
    (data : mat)
    (medoid_indices best_distances second_distances assignments : nat)
    (s : store) (ms B S A : list float)
    (cost : nat -> nat -> float) :
  NoDup [medoid_indices; best_distances; second_distances; assignments] ->
  s !! medoid_indices = Some ms -> s !! best_distances = Some B ->
  s !! second_distances = Some S -> s !! assignments = Some A ->
  ms <> [] ->
  (length B < n_cols data \/ length S < n_cols data \/
   length A < n_cols data)%nat ->
  (forall k m i, ms !! k = Some m -> (i < n_cols data)%nat ->
     cost_is pow self data i m (cost k i) /\ below_inf (cost k i)) ->
  ~ is_ok (calc_best_distances_swap pow self data medoid_indices
             best_distances second_distances assignments s).1.
Proof.
  intros Hnd Hm HB HS HA Hne Hshort Hcost.
  enough ((calc_best_distances_swap pow self data medoid_indices
             best_distances second_distances assignments s).1
          = Throw (out_of_range "Mat::operator(): index out of bounds"))
    as -> by (intros [a Ha]; discriminate).
  pose proof (cost_table_rows pow self data ms cost (n_cols data) Hcost)
    as Hrows.
  set (L := (length B `min` (length S `min` length A))%nat).
  assert (L < n_cols data)%nat as HL by lia.
  unfold calc_best_distances_swap.
  remember (n_cols data - Datatypes.S L)%nat as d eqn:Hd.
  replace (n_cols data) with (L + Datatypes.S d)%nat by lia.
  rewrite each_point_split.
  destruct (each_point_run pow self data medoid_indices best_distances
    second_distances assignments ms cost L 0 s B S A
    Hnd Hm HB HS HA ltac:(lia) ltac:(lia) ltac:(lia) Hne
    (fun j Hj => Hrows j ltac:(lia)))
    as (s1 & B1 & S1 & A1 & Hrun & Hm1 & HB1 & HS1 & HA1 & HlB & HlS & HlA
        & _).
  rewrite (bind_ok _ _ _ _ _ Hrun). cbn [Nat.add].
  destruct (Hrows L HL) as [Hcs Hinf].
  apply (each_point_overrun pow self data medoid_indices best_distances
           second_distances assignments s1 ms B1 S1 A1 _ L _
           Hnd Hm1 HB1 HS1 HA1 Hne Hcs Hinf).
  lia.
Qed.

Lemma calc_best_distances_swap_short_output_witness :
  ~ is_ok (calc_best_distances_swap pow_unused example_l2 example_data
             0 1 2 3 (<[2%nat := [9; 9]%float]> example_store)).1.
Proof.
  apply (calc_best_distances_swap_short_output pow_unused example_l2
    example_data 0 1 2 3 (<[2%nat := [9; 9]%float]> example_store)
    [0; 3]%float [9; 9; 9; 9]%float [9; 9]%float [9; 9; 9; 9]%float
    example_cost).
  - repeat constructor; rewrite ?not_elem_of_cons; repeat split;
      try lia; apply not_elem_of_nil.
  - reflexivity.
  - reflexivity.
  - reflexivity.
  - reflexivity.
  - discriminate.
  - right; left. cbn. lia.
  - intros k m i Hk Hi. cbn in Hi.
    destruct k as [|[|k]]; cbn in Hk; try discriminate;
      injection Hk as <-;
      destruct i as [|[|[|[|i]]]]; try lia;
      (split; [eexists; split; vm_compute; reflexivity
              |vm_compute; reflexivity]).
Defined.

(** ** The medoids themselves *)

Lemma elementary_kernel_nonneg pow self (data : mat) i j a b c :
  elementary_kernel self ->
  data !! i = Some a -> data !! j = Some b ->
  length a = length b -> a <> [] -> Forall finite a -> Forall finite b ->
  call_lossFn pow self data i j = Ok c -> nonneg c.
Proof.
  intros Hk Hi Hj Hlen Hne Ha Hb.
  pose proof (vsub_num a b Ha Hb) as Hv.
  pose proof (vsub_nonempty a b Hlen Hne) as Hvne.
  unfold call_lossFn.
  destruct Hk as [-> | [-> | [-> [Hp | Hp]]]].
  - unfold manhattan, col. rewrite Hi, Hj. cbn. intros [= <-].
    apply accu_vabs_nonneg, Hv.
  - unfold LINF, col. rewrite Hi, Hj. cbn. intros Hc.
    destruct (arma_max_nonneg (vabs (vsub a b))) as (d & Hd & Hn).
    + unfold vabs. destruct (vsub a b); cbn; congruence.
    + apply vabs_nonneg, Hv.
    + rewrite Hd in Hc. injection Hc as <-. exact Hn.
  - unfold LP, col. rewrite Hi, Hj, Hp. cbn.
    rewrite norm_1_manhattan. intros [= <-]. apply accu_vabs_nonneg, Hv.
  - unfold LP, col. rewrite Hi, Hj, Hp. cbn.
    destruct (vsub a b) as [|x v] eqn:Ev; [congruence|].
    cbn [norm]. intros [= <-]. unfold vec_norm_2.
    apply sqrt_nonneg, foldl_add_nonneg; [exact nonneg_zero|].
    eapply Forall_impl; [exact Hv|]. intros y Hy.
    exact (mul_self_nonneg y Hy).
Qed.

Lemma nonneg_leb_zero x : nonneg x -> (x <=? 0)%float = true ->
  (x =? 0)%float = true.
Proof.
  rewrite nonneg_SF, FloatAxioms.leb_spec, FloatAxioms.eqb_spec.
  unfold SFleb, SFeqb. change (Prim2SF 0) with (S754_zero false).
  destruct (Prim2SF x) as [s|s| |s m e]; cbn; try tauto;
    intros ->; cbn; congruence.
Qed.

(** X16: a medoid is at distance zero from the nearest medoid.  On a
    matrix of finite entries with at least one row, under the Manhattan,
    L-infinity, L1 or L2 kernel, and on the inputs on which the
    assignment engine is specified, the entry of [best_distances] at the
    column index of any medoid is zero after the call. *)
Theorem medoid_best_distance_zero
    (pow : float -> float -> float) (self : KMedoids)
    (data : mat) (R : nat)
    (medoid_indices best_distances second_distances assignments : nat)
    (s : store) (ms B S A : list float)
    (cost : nat -> nat -> float) (k : nat) (m : float) (idx : nat) :
  NoDup [medoid_indices; best_distances; second_distances; assignments] ->
  s !! medoid_indices = Some ms -> s !! best_distances = Some B ->
  s !! second_distances = Some S -> s !! assignments = Some A ->
  (n_cols data <= length B)%nat -> (n_cols data <= length S)%nat ->
  (n_cols data <= length A)%nat ->
  (forall k m i, ms !! k = Some m -> (i < n_cols data)%nat ->
     cost_is pow self data i m (cost k i) /\ below_inf (cost k i)) ->
  elementary_kernel self -> finite_matrix data R ->
  ms !! k = Some m -> to_size m = Ok idx -> (idx < n_cols data)%nat ->
  exists (s' : store) (B' : list float) (b : float),
    calc_best_distances_swap pow self data medoid_indices best_distances
      second_distances assignments s = (Ok tt, s') /\
    s' !! best_distances = Some B' /\
    B' !! idx = Some b /\ (b =? 0)%float = true.
Proof.
  intros Hnd Hm HB HS HA HlB HlS HlA Hcost Hkern [HR Hfin] Hk Hidx Hlt.
  assert (ms <> []) as Hne by (intros ->; discriminate).
  pose proof (cost_table_rows pow self data ms cost (n_cols data) Hcost)
    as Hrows.
  destruct (each_point_run pow self data medoid_indices best_distances
    second_distances assignments ms cost (n_cols data) 0 s B S A
    Hnd Hm HB HS HA HlB HlS HlA Hne
    (fun j Hj => Hrows j (proj2 Hj)))
    as (s' & B' & S' & A' & Hrun & _ & HB' & _ & _ & _ & _ & _ & _ & Hres).
  destruct (Hres idx ltac:(lia)) as (b & sd & p & Hscan & Eb & _).
  exists s', B', b. split; [exact Hrun|]. split; [exact HB'|].
  split; [exact Eb|].
  destruct (Hrows idx Hlt) as [Hcs Hinf].
  set (cs := point_costs cost (length ms) idx) in *.
  assert (cs <> []) as Hcne.
  { subst cs. unfold point_costs. destruct ms; [congruence|discriminate]. }
  assert (is_min_of cs b) as [Hin Hle].
  { pose proof (running_min_is_min cs Hcne Hinf) as Hmin.
    rewrite (running_min_scan cs 0 infinity infinity None), Hscan in Hmin.
    exact Hmin. }
  (* the column of the medoid *)
  unfold n_cols in Hlt.
  destruct (lookup_lt_is_Some_2 data idx Hlt) as [a Ha].
  destruct (proj1 (Forall_lookup _ data) Hfin idx a Ha) as [Hla Hfa].
  assert (a <> []) as Hane by (intros ->; cbn in Hla; congruence).
  (* the cost of the medoid to itself is zero *)
  assert (k < length ms)%nat as Hklt by (apply lookup_lt_is_Some; eauto).
  assert (cs !! k = Some 0%float) as Hzero.
  { subst cs. rewrite point_costs_lookup by exact Hklt. f_equal.
    destruct (Hcost k m idx Hk Hlt) as [(idx' & Hidx' & Hc) _].
    rewrite Hidx in Hidx'. injection Hidx' as <-.
    assert (call_lossFn pow self data idx idx = Ok 0%float) as Hself.
    { unfold call_lossFn. destruct Hkern as [-> | [-> | [-> Hp]]].
      - exact (manhattan_diag data idx a Ha Hfa).
      - exact (LINF_diag data idx a Ha Hane Hfa).
      - exact (LP_diag pow self data idx a Hp Ha Hane Hfa). }
    congruence. }
  (* the best distance is a cost, hence at least zero *)
  apply nonneg_leb_zero.
  - apply list_elem_of_lookup in Hin as [k' Hk'].
    destruct (Forall2_lookup_r _ _ _ _ _ Hcs Hk') as (m' & Hm' & idx' & _ & Hc).
    assert (exists a', data !! idx' = Some a') as [a' Ha'].
    { unfold call_lossFn in Hc.
      destruct (data !! idx') as [a'|] eqn:E; [eauto|].
      destruct (lossFn self) as [[| | |]|]; try discriminate;
        unfold manhattan, cos, LINF, LP, col in Hc; rewrite E in Hc;
        discriminate. }
    destruct (proj1 (Forall_lookup _ data) Hfin idx' a' Ha') as [Hla' Hfa'].
    apply (elementary_kernel_nonneg pow self data idx' idx a' a b Hkern
             Ha' Ha); try assumption; try congruence.
    intros ->. cbn in Hla'. congruence.
  - exact (proj1 (Forall_lookup _ cs) Hle k _ Hzero).
Qed.

Lemma medoid_best_distance_zero_witness :
  exists (s' : store) (B' : list float) (b : float),
    calc_best_distances_swap pow_unused example_l2 example_data 0 1 2 3
      example_store = (Ok tt, s') /\
    s' !! 1%nat = Some B' /\
    B' !! 3%nat = Some b /\ (b =? 0)%float = true.
Proof.
  apply (medoid_best_distance_zero pow_unused example_l2 example_data 2
    0 1 2 3 example_store [0; 3]%float [9; 9; 9; 9]%float
    [9; 9; 9; 9]%float [9; 9; 9; 9]%float example_cost 1 3%float 3).
  - repeat constructor; rewrite ?not_elem_of_cons; repeat split;
      try lia; apply not_elem_of_nil.
  - reflexivity.
  - reflexivity.
  - reflexivity.
  - reflexivity.
  - cbn. lia.
  - cbn. lia.
  - cbn. lia.
  - intros k m i Hk Hi. cbn in Hi.
    destruct k as [|[|k]]; cbn in Hk; try discriminate;
      injection Hk as <-;
      destruct i as [|[|[|[|i]]]]; try lia;
      (split; [eexists; split; vm_compute; reflexivity
              |vm_compute; reflexivity]).
  - right; right. split; [reflexivity|right; reflexivity].
  - split; [lia|]. repeat constructor.
  - reflexivity.
  - vm_compute. reflexivity.
  - cbn. lia.
Defined.

(** ** [build_sigma] under [use_absolute] *)

(** X17: under [use_absolute], [build_sigma] never reads
    [best_distances]: under every schedule of its loop, its result, the
    line it logs and its failures are the same whatever that vector
    holds, an empty vector included. *)
Theorem build_sigma_absolute_ignores_best
    (pow : float -> float -> float)
    (arma_stddev : list float -> nat -> float)
    (randperm : nat -> nat -> outcome (list nat))
    (sigma_summary : list float -> outcome string)
    (self : KMedoids) (data : mat) (schedule : list nat)
    (best_distances best_distances' : list float) (batch_size : nat) :
  build_sigma pow arma_stddev randperm sigma_summary self data schedule
    best_distances batch_size true
  = build_sigma pow arma_stddev randperm sigma_summary self data schedule
      best_distances' batch_size true.
Proof.
  unfold build_sigma.
  destruct (randperm (n_cols data) batch_size) as [R| |]; reflexivity.
Qed.

(** ** SWAP against BUILD *)

(** Where the slot [k] holds none of the reference points, the sample of
    the arm [(k, n)] is the sample of the candidate [n] in BUILD. *)
Lemma swap_sample_is_build_sample pow self (data : mat)
    (best second assign : list float) k n (R : list nat) :
  forall xs ys,
  Forall2 (swap_slot pow self data best second assign k n) R xs ->
  Forall2 (build_slot pow self data best false n) R ys ->
  (forall r a, r ∈ R -> assign !! r = Some a ->
     (of_size k =? a)%float = false) ->
  xs = ys.
Proof.
  induction R as [|r R IH]; intros xs ys Hx Hy Hno.
  { inversion Hx; inversion Hy; reflexivity. }
  inversion Hx as [|? x ? xs' Hsx Hx']; subst.
  inversion Hy as [|? y ? ys' Hsy Hy']; subst.
  f_equal.
  - destruct Hsx as (c & a & b & Hc & Ha & Hb & Hslot).
    destruct Hsy as (c' & Hc' & b' & Hb' & ->).
    rewrite (Hno r a ltac:(left) Ha) in Hslot. cbv iota in Hslot.
    assert (c' = c) as -> by congruence.
    assert (b' = b) as -> by congruence.
    exact Hslot.
  - apply IH; try assumption.
    intros r' a' Hr'. apply Hno. right. exact Hr'.
Qed.

(** X18: SWAP falls back on BUILD where the slot is not involved, when
    one thread runs each loop.  On the inputs on which both sigma
    estimators are specified, for the same draw and under the schedule
    of a single thread, the sigma that [swap_sigma] gives the arm
    [(k, n)] is bit for bit the sigma that [build_sigma] (relative, not
    absolute) gives the candidate [n] whenever none of the drawn
    reference points is assigned to the slot [k]. *)
Theorem swap_sigma_unassigned_slot_is_build_sigma
    (pow : float -> float -> float)
    (arma_stddev : list float -> nat -> float)
    (randperm : nat -> nat -> outcome (list nat))
    (sigma_summary : list float -> outcome string)
    (self : KMedoids) (data : mat) (batch_size : nat)
    (best_distances second_best_distances assignments : list float) :
  randperm_contract randperm ->
  (batch_size <= n_cols data)%nat -> data <> [] ->
  (forall v, v <> [] -> is_ok (sigma_summary v)) ->
  (forall n r, (n < n_cols data)%nat -> (r < n_cols data)%nat ->
     exists c, call_lossFn pow self data n r = Ok c /\ num c) ->
  (n_cols data <= length best_distances)%nat /\
    Forall num best_distances ->
  (n_cols data <= length second_best_distances)%nat /\
    Forall num second_best_distances ->
  (n_cols data <= length assignments)%nat ->
  exists (R : list nat) (swap : mat) (build : list float)
         (self' : KMedoids),
    randperm (n_cols data) batch_size = Ok R /\
    swap_sigma pow arma_stddev randperm self data
      (one_thread
         (swap_body pow self data best_distances second_best_distances
            assignments R batch_size (n_medoids self))
         (n_medoids self * n_cols data))
      batch_size best_distances second_best_distances assignments
    = Ok swap /\
    build_sigma pow arma_stddev randperm sigma_summary self data
      (one_thread
         (build_body pow self data best_distances false R batch_size)
         (n_cols data))
      best_distances batch_size false = Ok (build, self') /\
    forall k n, (k < n_medoids self)%nat -> (n < n_cols data)%nat ->
      (forall r a, r ∈ R -> assignments !! r = Some a ->
         (of_size k =? a)%float = false) ->
      mat_at swap k n = build !! n.
Proof.
  intros Hperm Hbatch Hne Hsum Hcost Hbest Hsecond Hassign.
  destruct (Hperm (n_cols data) batch_size Hbatch)
    as (R & HR & Hnd & HlR & Hlt).
  destruct (swap_loop_one_thread pow arma_stddev self data best_distances
              second_best_distances assignments R (n_medoids self)
              (n_cols data))
    as (sample1 & swap & Hswap & _ & Hsres).
  { intros k n Hk Hn. apply swap_slots_exist; auto. }
  destruct (build_loop_one_thread pow arma_stddev self data best_distances
              false R (n_cols data))
    as (sample2 & build & Hbuild & Hlen & Hbres).
  { intros j Hj. apply build_slots_exist; auto. }
  rewrite HlR in Hswap, Hbuild.
  destruct (Hsum build) as [line Hline].
  { intros ->. destruct data; [congruence|discriminate]. }
  exists R, swap, build. eexists.
  split; [exact HR|]. split; [|split].
  - unfold swap_sigma. rewrite HR. cbn [obind]. rewrite Hswap. reflexivity.
  - unfold build_sigma. rewrite HR. cbn [obind]. rewrite Hbuild.
    cbn [obind snd]. rewrite Hline. reflexivity.
  - intros k n Hk Hn Hno.
    destruct (Hsres k n Hk Hn) as (xs & Hxs & ->).
    destruct (Hbres n Hn) as (ys & Hys & ->).
    rewrite (swap_sample_is_build_sample pow self data best_distances
               second_best_distances assignments k n R xs ys Hxs Hys Hno).
    reflexivity.
Qed.

Lemma swap_sigma_unassigned_slot_is_build_sigma_witness :
  exists (R : list nat) (swap : mat) (build : list float)
         (self' : KMedoids),
    first_indices (n_cols example_data) 3 = Ok R /\
    swap_sigma pow_unused textbook_stddev first_indices example_l2
      example_data
      (one_thread
         (swap_body pow_unused example_l2 example_data [0; 5; 5; 0]%float
            [10; 5; 15; 10]%float [0; 0; 0; 1]%float R 3
            (n_medoids example_l2))
         (n_medoids example_l2 * n_cols example_data))
      3 [0; 5; 5; 0]%float [10; 5; 15; 10]%float [0; 0; 0; 1]%float
    = Ok swap /\
    build_sigma pow_unused textbook_stddev first_indices plain_summary
      example_l2 example_data
      (one_thread
         (build_body pow_unused example_l2 example_data [0; 5; 5; 0]%float
            false R 3)
         (n_cols example_data))
      [0; 5; 5; 0]%float 3 false = Ok (build, self') /\
    forall k n, (k < n_medoids example_l2)%nat ->
                (n < n_cols example_data)%nat ->
      (forall r a, r ∈ R -> [0; 0; 0; 1]%float !! r = Some a ->
         (of_size k =? a)%float = false) ->
      mat_at swap k n = build !! n.
Proof.
  apply (swap_sigma_unassigned_slot_is_build_sigma pow_unused
    textbook_stddev first_indices plain_summary example_l2 example_data 3
    [0; 5; 5; 0]%float [10; 5; 15; 10]%float [0; 0; 0; 1]%float).
  - exact first_indices_contract.
  - cbn. lia.
  - discriminate.
  - intros v _. eexists. reflexivity.
  - exact example_costs_defined.
  - split; [cbn; lia|]. repeat constructor.
  - split; [cbn; lia|]. repeat constructor.
  - cbn. lia.
Defined.

(** ** Points that no medoid reaches *)

Lemma scan_costs_unreachable cs :
  forall k,
  Forall (fun c => (c <? infinity)%float = false) cs ->
  scan_costs cs k infinity infinity None = (infinity, infinity, None).
Proof.
  induction cs as [|c cs IH]; intros k Hcs; [reflexivity|].
  apply Forall_cons in Hcs as [Hc Hcs]. cbn [scan_costs].
  rewrite Hc. apply IH. exact Hcs.
Qed.

Section Each_point_any.

Variable pow : float -> float -> float.
Variable self : KMedoids.
Variable data : mat.
Variables rm rb rs ra : nat.
Variable ms : list float.
Variable cost : nat -> nat -> float.

(** The loop over the points when the costs are defined but need not be
    below [+infinity]: a point none of whose costs gets below the
    initial [best] keeps its entry of [assignments]. *)
Lemma each_point_run_any count :
  forall i (s : store) (B S A : list float),
  NoDup [rm; rb; rs; ra] ->
  s !! rm = Some ms -> s !! rb = Some B -> s !! rs = Some S ->
  s !! ra = Some A ->
  (i + count <= length B)%nat -> (i + count <= length S)%nat ->
  (i + count <= length A)%nat ->
  (forall j, (i <= j < i + count)%nat ->
     Forall2 (cost_is pow self data j) ms (point_costs cost (length ms) j)) ->
  exists (s' : store) (B' S' A' : list float),
    each_point pow self data rm rb rs ra i count s = (Ok tt, s') /\
    s' !! rb = Some B' /\ s' !! rs = Some S' /\ s' !! ra = Some A' /\
    (forall j, (j < i)%nat ->
       B' !! j = B !! j /\ S' !! j = S !! j /\ A' !! j = A !! j) /\
    (forall j, (i <= j < i + count)%nat ->
       let r := scan_costs (point_costs cost (length ms) j) 0 infinity
                  infinity None in
       B' !! j = Some r.1.1 /\ S' !! j = Some r.1.2 /\
       A' !! j = match r.2 with
                 | Some p => Some (of_size p)
                 | None => A !! j
                 end).
Proof.
  induction count as [|count IH];
    intros i s B S A Hnd Hm HB HS HA HlB HlS HlA Hcost.
  { exists s, B, S, A. split; [reflexivity|].
    repeat (split; [assumption|]). split; [auto|intros j Hj; lia]. }
  assert (rm <> rb /\ rm <> rs /\ rm <> ra /\ rb <> rs /\ rb <> ra /\ rs <> ra)
    as (Hmb & Hms & Hma & Hbs & Hba & Hsa).
  { apply NoDup_cons in Hnd as [H1 Hnd']. apply NoDup_cons in Hnd' as [H2 Hnd'].
    apply NoDup_cons in Hnd' as [H3 _].
    rewrite !not_elem_of_cons in H1. rewrite !not_elem_of_cons in H2.
    rewrite !not_elem_of_cons in H3.
    destruct H1 as (? & ? & ? & _), H2 as (? & ? & _), H3 as (? & _).
    repeat split; assumption. }
  pose proof (Hcost i ltac:(lia)) as HF.
  cbn [each_point].
  rewrite (bind_ok _ _ _ _ _ (load_run s rm ms Hm)).
  pose proof (scan_medoids_run pow self data rm ra i ms
    (point_costs cost (length ms) i) [] infinity infinity s A Hma) as Hrun.
  cbn [length app] in Hrun.
  rewrite (bind_ok _ _ _ _ _ (Hrun Hm HA ltac:(lia) HF)). clear Hrun.
  set (r := scan_costs (point_costs cost (length ms) i) 0 infinity infinity
              None).
  set (A1 := match r.2 with Some p => <[i := of_size p]> A | None => A end).
  set (s1 := match r.2 with
             | Some p => <[ra := <[i := of_size p]> A]> s
             | None => s
             end).
  assert (s1 !! rm = Some ms /\ s1 !! rb = Some B /\ s1 !! rs = Some S /\
          s1 !! ra = Some A1) as (Hm1 & HB1 & HS1 & HA1).
  { subst s1 A1. destruct r.2.
    - rewrite !lookup_insert_ne by congruence. rewrite lookup_insert_eq. auto.
    - auto. }
  assert (length A1 = length A) as HlA1.
  { subst A1. destruct r.2; [apply length_insert|reflexivity]. }
  clearbody s1.
  rewrite (bind_ok _ _ _ _ _ (write_run s1 rb B i r.1.1 HB1 ltac:(lia))).
  set (B1 := <[i := r.1.1]> B).
  set (s2 := <[rb := B1]> s1).
  assert (s2 !! rs = Some S) as HS2.
  { subst s2. rewrite !lookup_insert_ne by congruence. exact HS1. }
  rewrite (bind_ok _ _ _ _ _ (write_run s2 rs S i r.1.2 HS2 ltac:(lia))).
  set (S1 := <[i := r.1.2]> S).
  set (s3 := <[rs := S1]> s2).
  destruct (IH (Datatypes.S i) s3 B1 S1 A1 Hnd)
    as (s' & B' & S' & A' & Hrun & HB' & HS' & HA' & Hlow & Hhigh).
  - subst s3 s2. rewrite !lookup_insert_ne by congruence. exact Hm1.
  - subst s3 s2. rewrite lookup_insert_ne by congruence.
    apply lookup_insert_eq.
  - subst s3. apply lookup_insert_eq.
  - subst s3 s2. rewrite !lookup_insert_ne by congruence. exact HA1.
  - subst B1. rewrite length_insert. lia.
  - subst S1. rewrite length_insert. lia.
  - lia.
  - intros j Hj. apply Hcost. lia.
  - exists s', B', S', A'. split; [exact Hrun|].
    split; [exact HB'|]. split; [exact HS'|]. split; [exact HA'|].
    assert (forall j, j <> i -> A1 !! j = A !! j) as HA1ne.
    { intros j Hj. subst A1. destruct r.2; [|reflexivity].
      apply list_lookup_insert_ne. lia. }
    split.
    + intros j Hj. destruct (Hlow j ltac:(lia)) as (-> & -> & ->).
      subst B1 S1. rewrite !list_lookup_insert_ne by lia.
      rewrite HA1ne by lia. auto.
    + intros j Hj. destruct (decide (j = i)) as [->|Hji].
      * destruct (Hlow i ltac:(lia)) as (-> & -> & ->).
        subst B1 S1. rewrite !list_lookup_insert_eq by lia.
        fold r. cbn zeta. split; [reflexivity|]. split; [reflexivity|].
        subst A1. destruct r.2; [|reflexivity].
        apply list_lookup_insert_eq. lia.
      * destruct (Hhigh j ltac:(lia)) as (Eb & Es & Ea).
        cbn zeta. split; [exact Eb|]. split; [exact Es|].
        rewrite Ea. destruct (scan_costs _ _ _ _ _).2; [reflexivity|].
        apply HA1ne. exact Hji.
Qed.

End Each_point_any.

(** X19: a point that no medoid reaches is left unassigned.  When the
    four vectors are distinct and long enough and every cost is defined,
    the assignment engine returns normally, and for a point none of
    whose costs is below [+infinity] (each is [+infinity] or NaN) it
    stores [+infinity] as best and as second distance and leaves the
    entry of [assignments] as it found it. *)
Theorem calc_best_distances_swap_unreachable_point
    (pow : float -> float -> float) (self : KMedoids) (data : mat)
    (medoid_indices best_distances second_distances assignments : nat)
    (s : store) (ms B S A : list float) (cost : nat -> nat -> float)
    (i : nat) :
  NoDup [medoid_indices; best_distances; second_distances; assignments] ->
  s !! medoid_indices = Some ms -> s !! best_distances = Some B ->
  s !! second_distances = Some S -> s !! assignments = Some A ->
  (n_cols data <= length B)%nat -> (n_cols data <= length S)%nat ->
  (n_cols data <= length A)%nat ->
  (forall k m j, ms !! k = Some m -> (j < n_cols data)%nat ->
     cost_is pow self data j m (cost k j)) ->
  (i < n_cols data)%nat ->
  (forall k, (k < length ms)%nat -> (cost k i <? infinity)%float = false) ->
  exists (s' : store) (B' S' A' : list float),
    calc_best_distances_swap pow self data medoid_indices best_distances
      second_distances assignments s = (Ok tt, s') /\
    s' !! best_distances = Some B' /\ s' !! second_distances = Some S' /\
    s' !! assignments = Some A' /\
    B' !! i = Some infinity /\ S' !! i = Some infinity /\
    A' !! i = A !! i.
Proof.
  intros Hnd Hm HB HS HA HlB HlS HlA Hcost Hi Hfar.
  destruct (each_point_run_any pow self data medoid_indices best_distances
    second_distances assignments ms cost (n_cols data) 0 s B S A
    Hnd Hm HB HS HA HlB HlS HlA)
    as (s' & B' & S' & A' & Hrun & HB' & HS' & HA' & _ & Hres).
  { intros j Hj. apply Forall2_same_length_lookup_2.
    { rewrite point_costs_length. reflexivity. }
    intros k m c Hk Hc.
    rewrite point_costs_lookup in Hc by (apply lookup_lt_is_Some; eauto).
    injection Hc as <-. apply (Hcost k m j Hk). lia. }
  exists s', B', S', A'. split; [exact Hrun|].
  split; [exact HB'|]. split; [exact HS'|]. split; [exact HA'|].
  destruct (Hres i ltac:(lia)) as (Eb & Es & Ea).
  rewrite scan_costs_unreachable in Eb, Es, Ea; auto;
    apply Forall_lookup; intros k c Hc;
    (assert (k < length ms)%nat as Hk
       by (rewrite <- (point_costs_length cost (length ms) i);
           apply lookup_lt_is_Some; eauto));
    rewrite point_costs_lookup in Hc by exact Hk; injection Hc as <-;
    apply Hfar; exact Hk.
Qed.

Lemma calc_best_distances_swap_unreachable_point_witness :
  exists (s' : store) (B' S' A' : list float),
    calc_best_distances_swap pow_unused example_cos example_data 0 1 2 3
      (<[0%nat := [1; 3]%float]> example_store) = (Ok tt, s') /\
    s' !! 1%nat = Some B' /\ s' !! 2%nat = Some S' /\
    s' !! 3%nat = Some A' /\
    B' !! 0%nat = Some infinity /\ S' !! 0%nat = Some infinity /\
    A' !! 0%nat = Some 9%float.
Proof.
  apply (calc_best_distances_swap_unreachable_point pow_unused example_cos
    example_data 0 1 2 3 (<[0%nat := [1; 3]%float]> example_store)
    [1; 3]%float [9; 9; 9; 9]%float [9; 9; 9; 9]%float [9; 9; 9; 9]%float
    example_cos_cost 0).
  - repeat constructor; rewrite ?not_elem_of_cons; repeat split;
      try lia; apply not_elem_of_nil.
  - reflexivity.
  - reflexivity.
  - reflexivity.
  - reflexivity.
  - cbn. lia.
  - cbn. lia.
  - cbn. lia.
  - intros k m j Hk Hj. cbn in Hj.
    destruct k as [|[|k]]; cbn in Hk; try discriminate;
      injection Hk as <-;
      destruct j as [|[|[|[|j]]]]; try lia;
      (eexists; split; vm_compute; reflexivity).
  - cbn. lia.
  - intros k Hk. cbn in Hk.
    destruct k as [|[|k]]; try lia; vm_compute; reflexivity.
Defined.

(** ** The setters against the constructor *)

(** X20: the setters reach every configuration the constructor can
    build, whatever the object held before.  On a constructed object,
    calling the seven setters with new values, the algorithm name among
    them being one the constructor accepts, returns normally, prints
    nothing, and leaves exactly the object that the constructor builds
    from the new values; none of the numbers is checked. *)
Theorem setters_reach_constructed_object
    (n : nat) (a : string) (v mi bc sc : nat) (lf : string)
    (n' : nat) (a' : string) (v' mi' bc' sc' : nat) (lf' : string)
    (k k' : KMedoids) (t : list event) :
  KMedoids_new n a v mi bc sc lf = Ok k ->
  KMedoids_new n' a' v' mi' bc' sc' lf' = Ok k' ->
  (setNMedoids n' ;; setAlgorithm a' ;; setVerbosity v' ;;
   setMaxIter mi' ;; setbuildConfidence bc' ;; setswapConfidence sc' ;;
   setLogFilename lf')%M (mkWorld k t)
  = (Ok tt, mkWorld k' t).
Proof.
  unfold KMedoids_new. rewrite !checkAlgorithm_selected.
  destruct (selected_engine a); [|discriminate].
  destruct (selected_engine a') eqn:Ha'; [|discriminate].
  cbn. intros [= <-] [= <-].
  unfold bind, setNMedoids, setAlgorithm, setVerbosity, setMaxIter,
    setbuildConfidence, setswapConfidence, setLogFilename, bind, modify,
    lift.
  cbn. rewrite checkAlgorithm_selected, Ha'. reflexivity.
Qed.

Lemma setters_reach_constructed_object_witness :
  (setNMedoids 3 ;; setAlgorithm "BanditPAM" ;; setVerbosity 1 ;;
   setMaxIter 50 ;; setbuildConfidence 5 ;; setswapConfidence 6 ;;
   setLogFilename "out.log")%M (example_world "naive")
  = (Ok tt,
     mkWorld (mkKMedoids 3 "BanditPAM" 50 5 6 1 "out.log" None None [] []
                [] 0 (mkLogHelper [] [] [])) []).
Proof.
  exact (setters_reach_constructed_object 2 "naive" 0 100 10 20 "log.txt"
           3 "BanditPAM" 1 50 5 6 "out.log" _ _ [] eq_refl eq_refl).
Defined.
